(** * Geomechanics calculator: header detection, row preparation and the
      derivation of elastic parameters ([script.js])

    A shallow embedding of [detectColumns], [detectUnitMultiplier],
    [validateAndPrepare] and [computeParameters].

    JavaScript numbers are IEEE 754 binary64 values: they are modelled by
    Rocq's primitive [float], whose operations are specified against
    [SpecFloat] by the axioms of [FloatAxioms].  Objects used as maps (a raw
    row, the column mapping) are [gmap]s keyed by strings, arrays are lists
    read with [!!]. Header labels are ASCII strings. *)

From Stdlib Require Import ZArith Floats Lia Ascii String.
From Stdlib Require Import Sorted Permutation.
From stdpp Require Import base strings gmap list.

#[local] Set Warnings "-inexact-float".
#[local] Open Scope float_scope.

(** ** JavaScript numbers *)

(** [Number.isNaN], [Number.isFinite] and [Math.abs]. *)
Definition isNaN (x : float) : bool := PrimFloat.is_nan x.
Definition isFinite (x : float) : bool := PrimFloat.is_finite x.
Definition Math_abs (x : float) : float := PrimFloat.abs x.

(** A number used as a condition ([dz ? a : b]) is false when it is [0],
    [-0] or [NaN]. *)
Definition truthy (x : float) : bool := negb (x =? 0) && negb (isNaN x).

(** [Math.pow(x, 2)].  ECMAScript leaves the precision of [Math.pow] to the
    implementation; for the exponent 2 it is taken to be the correctly
    rounded square, that is the IEEE product [x * x] (exact whenever the
    square is representable, and equal for equal arguments in any case). *)
Definition Math_pow2 (x : float) : float := x * x.

Definition is_neg_zero (x : float) : bool := (x =? 0) && get_sign x.
Definition is_pos_zero (x : float) : bool := (x =? 0) && negb (get_sign x).

(** [Math.min(...l)] and [Math.max(...l)] as ECMAScript defines them: [NaN]
    if any argument is [NaN]; otherwise a scan from [+Infinity] (resp.
    [-Infinity]) in which [-0] counts as smaller than [+0]. *)
Definition Math_min (l : list float) : float :=
  if existsb isNaN l then nan
  else fold_left (λ lowest x,
         if (x <? lowest) || (is_neg_zero x && is_pos_zero lowest) then x else lowest)
       l infinity.

Definition Math_max (l : list float) : float :=
  if existsb isNaN l then nan
  else fold_left (λ highest x,
         if (highest <? x) || (is_pos_zero x && is_neg_zero highest) then x else highest)
       l neg_infinity.

(** Reading [a[i]] for arithmetic: an index outside the array reads
    [undefined], which every arithmetic operator turns into [NaN]. *)
Definition get (a : list float) (i : nat) : float := default nan (a !! i).

(** Writing [a[i] = v]: inside the array the cell is replaced; at or past the
    end JavaScript extends the array, leaving holes (which read as
    [undefined]) before the new cell. *)
Definition array_set (a : list float) (i : nat) (v : float) : list float :=
  if decide (i < length a)%nat then <[i := v]> a
  else a ++ replicate (i - length a) nan ++ [v].

(** [Array.prototype.sort(comparefn)].  ECMAScript treats a [NaN] comparator
    result as [+0] and requires the sort to be stable, so for a consistent
    comparator the result is the unique stable sorted permutation; it is
    modelled by a stable insertion sort driven by the comparator. *)
Definition SortCompare {A} (comparefn : A → A → float) (x y : A) : float :=
  let v := comparefn x y in if isNaN v then 0 else v.

Fixpoint sort_insert {A} (comparefn : A → A → float) (x : A) (l : list A) : list A :=
  match l with
  | [] => [x]
  | y :: l' =>
      if 0 <? SortCompare comparefn x y then y :: sort_insert comparefn x l'
      else x :: y :: l'
  end.

Definition Array_sort {A} (comparefn : A → A → float) (l : list A) : list A :=
  foldr (sort_insert comparefn) [] l.

(** ** The value of a float on the binary64 grid

    Every finite binary64 number is an integer multiple of [2^-1074]; [grid]
    is that integer, with the infinities placed beyond all finite values.
    Comparisons of floats are comparisons of their grid values. *)
Module SF.

Definition ulps (e : Z) : Z := 2 ^ (e + 1074).
Definition top : Z := 2 ^ 2100.

Definition grid (x : spec_float) : Z :=
  match x with
  | S754_zero _ => 0
  | S754_nan => 0
  | S754_infinity s => cond_Zopp s top
  | S754_finite s m e => cond_Zopp s (Z.pos m * ulps e)
  end.

Definition is_nan (x : spec_float) : bool :=
  match x with S754_nan => true | _ => false end.

(** [signed s r]: [r] is a non-zero number (finite or infinite) of sign [s]. *)
Definition signed (s : bool) (r : spec_float) : Prop :=
  match r with
  | S754_finite s' _ _ | S754_infinity s' => s' = s
  | _ => False
  end.

(** [null r]: [r] is a zero or [NaN], the values that are false as a condition. *)
Definition null (r : spec_float) : Prop :=
  match r with S754_zero _ | S754_nan => True | _ => False end.

Definition is_zero (x : spec_float) : bool :=
  match x with S754_zero _ => true | _ => false end.

(** A zero or a finite non-zero number. *)
Definition finite (x : spec_float) : bool :=
  match x with S754_zero _ | S754_finite _ _ _ => true | _ => false end.

(** The number 1. *)
Definition one : spec_float := S754_finite false 4503599627370496 (-52).

End SF.

Definition fgrid (x : float) : Z := SF.grid (Prim2SF x).

(** ** Regular expressions

    The fragment of JavaScript regular expressions used by the header
    patterns: literals, [\b], [^], sequence, alternation and [?].
    [matches r p] lists the positions at which a match of [r] started at
    position [p] can end; a position is the character before it (none at the
    start of the input) and the rest of the input. *)
Inductive regex :=
| Lit (s : string)
| WordB
| Start
| Seq (r1 r2 : regex)
| Alt (r1 r2 : regex)
| Opt (r : regex).

Definition position : Type := option ascii * string.

Definition in_range (lo hi c : ascii) : bool :=
  (N.leb (N_of_ascii lo) (N_of_ascii c)) && (N.leb (N_of_ascii c) (N_of_ascii hi)).

Definition is_lower (c : ascii) : bool := in_range "a" "z" c.
Definition is_upper (c : ascii) : bool := in_range "A" "Z" c.
Definition is_digit (c : ascii) : bool := in_range "0" "9" c.

(** The class [\w]. *)
Definition is_word_char (c : ascii) : bool :=
  is_lower c || is_upper c || is_digit c || Ascii.eqb c "_".

Fixpoint strip_prefix (p s : string) (prev : option ascii) : option position :=
  match p with
  | EmptyString => Some (prev, s)
  | String a p' =>
      match s with
      | String b s' => if Ascii.eqb a b then strip_prefix p' s' (Some b) else None
      | EmptyString => None
      end
  end.

Definition at_boundary (p : position) : bool :=
  xorb (from_option is_word_char false p.1)
       (match p.2 with String c _ => is_word_char c | EmptyString => false end).

Fixpoint matches (r : regex) (p : position) : list position :=
  match r with
  | Lit s => match strip_prefix s p.2 p.1 with Some q => [q] | None => [] end
  | WordB => if at_boundary p then [p] else []
  | Start => match p.1 with None => [p] | Some _ => [] end
  | Seq r1 r2 => q ← matches r1 p; matches r2 q
  | Alt r1 r2 => matches r1 p ++ matches r2 p
  | Opt r => matches r p ++ [p]
  end.

Definition matches_at (r : regex) (p : position) : bool :=
  match matches r p with [] => false | _ :: _ => true end.

(** [RegExp.prototype.test]: a match starting at some position of the input. *)
Fixpoint test_from (r : regex) (prev : option ascii) (s : string) : bool :=
  matches_at r (prev, s) ||
  match s with
  | EmptyString => false
  | String c s' => test_from r (Some c) s'
  end.

Definition test (r : regex) (s : string) : bool := test_from r None s.

(** [\bw\b] *)
Definition word (w : string) : regex := Seq WordB (Seq (Lit w) WordB).

Fixpoint alts (rs : list regex) : regex :=
  match rs with
  | [] => Lit ""
  | [r] => r
  | r :: rs' => Alt r (alts rs')
  end.

(** ** Header normalisation *)

(** [String.prototype.trim] on ASCII labels: the white space is tab, line
    feed, vertical tab, form feed, carriage return and space. *)
Definition is_space (c : ascii) : bool :=
  in_range "009" "013" c || Ascii.eqb c " ".

Fixpoint trim_start (s : string) : string :=
  match s with
  | String c s' => if is_space c then trim_start s' else s
  | EmptyString => EmptyString
  end.

Fixpoint trim_end (s : string) : string :=
  match s with
  | String c s' =>
      match trim_end s' with
      | EmptyString => if is_space c then EmptyString else String c EmptyString
      | t => String c t
      end
  | EmptyString => EmptyString
  end.

Definition trim (s : string) : string := trim_end (trim_start s).

(** [String.prototype.toLowerCase] on ASCII labels. *)
Definition lower_char (c : ascii) : ascii :=
  if is_upper c then ascii_of_N (N_of_ascii c + 32) else c.

Fixpoint toLowerCase (s : string) : string :=
  match s with
  | String c s' => String (lower_char c) (toLowerCase s')
  | EmptyString => EmptyString
  end.

(** [String(name||'').trim().toLowerCase()] *)
Definition normalizeHeader (name : string) : string := toLowerCase (trim name).

(** [s.replace(/[^a-z0-9]+/g, ' ')]: every maximal run of characters outside
    [a-z0-9] becomes one space. *)
Fixpoint replace_runs (in_run : bool) (s : string) : string :=
  match s with
  | EmptyString => EmptyString
  | String c s' =>
      if is_lower c || is_digit c then String c (replace_runs false s')
      else if in_run then replace_runs true s'
      else String " " (replace_runs true s')
  end.

Definition cleaned (header : string) : string :=
  replace_runs false (normalizeHeader header).

(** ** Header Mapper: [detectColumns] *)

(** [/\bdepth\b/] and [/\b(depthm|depth m|depth)\b/] *)
Definition re_depth : regex := word "depth".
Definition re_depth_units : regex :=
  Seq WordB (Seq (alts [Lit "depthm"; Lit "depth m"; Lit "depth"]) WordB).

(** [/\b(dens|density|rho|kg m)\b/] *)
Definition re_density : regex :=
  Seq WordB (Seq (alts [Lit "dens"; Lit "density"; Lit "rho"; Lit "kg m"]) WordB).

(** [/\bvp\b|\bp vel\b|\bp velocity\b|\b p velocity\b|\bpwave\b|\bp-wave\b/]
    and [/^vp\b/] *)
Definition re_vp : regex :=
  alts [word "vp"; word "p vel"; word "p velocity"; word " p velocity";
        word "pwave"; word "p-wave"].
Definition re_vp_start : regex := Seq Start (Seq (Lit "vp") WordB).

(** [/\bvs\b|\bs vel\b|\bs velocity\b|\bshear\b/] and [/^vs\b/] *)
Definition re_vs : regex :=
  alts [word "vs"; word "s vel"; word "s velocity"; word "shear"].
Definition re_vs_start : regex := Seq Start (Seq (Lit "vs") WordB).

(** Truthiness of a property that holds a string or is absent: [undefined]
    and the empty string are false. *)
Definition present (v : option string) : bool :=
  match v with
  | Some s => negb (String.eqb s "")
  | None => false
  end.

(** The body of the loop over the headers. *)
Definition detect_step (map : gmap string string) (h : string) : gmap string string :=
  let raw := h in
  let n := normalizeHeader raw in
  let cleaned := replace_runs false n in
  let map := if test re_depth cleaned then <["depth" := raw]> map else map in
  let map := if test re_depth_units cleaned then <["depth" := raw]> map else map in
  let map := if test re_density cleaned then <["density" := raw]> map else map in
  let map := if test re_vp cleaned then <["vp" := raw]> map else map in
  let map := if negb (present (map !! "vp")) && test re_vp_start cleaned
             then <["vp" := raw]> map else map in
  let map := if test re_vs cleaned then <["vs" := raw]> map else map in
  let map := if negb (present (map !! "vs")) && test re_vs_start cleaned
             then <["vs" := raw]> map else map in
  map.

Definition detectColumns (headers : list string) : gmap string string :=
  fold_left detect_step headers ∅.

(** ** Unit Normalizer: [detectUnitMultiplier] *)

(** [/\bkm\b|\bkm s\b|\bkm\/s\b/], [/\bm\/s\b|\bm s\b|\bmpersec\b/],
    [/\bkm\b/] and [/g\/?cc|g cm3|gcm3/] *)
Definition re_km_per_s : regex := alts [word "km"; word "km s"; word "km/s"].
Definition re_m_per_s : regex := alts [word "m/s"; word "m s"; word "mpersec"].
Definition re_km : regex := word "km".
Definition re_g_per_cc : regex :=
  alts [Seq (Lit "g") (Seq (Opt (Lit "/")) (Lit "cc")); Lit "g cm3"; Lit "gcm3"].

Definition detectUnitMultiplier (header : option string) (hint : string) : float :=
  if negb (present header) then 1
  else
    let s := replace_runs false (normalizeHeader (default "" header)) in
    if test re_km_per_s s then 1000
    else if test re_m_per_s s then 1
    else if String.eqb hint "depth" then
      (if test re_km s then 1000 else 1)
    else if String.eqb hint "density" then
      (if test re_g_per_cc s then 1000 else 1)
    else 1.

(** ** Row Validator / Preparer: [validateAndPrepare] *)

(** The scalar a cell of a raw row can hold. *)
Inductive jsval :=
| JUndefined
| JNull
| JBool (b : bool)
| JNum (x : float)
| JStr (s : string).

Definition RawRow : Type := gmap string jsval.

Record PreparedSample := {
  depth : float;
  density : float;
  vp : float;
  vs : float
}.

(** A call either returns or throws an [Error] with a message. *)
Inductive outcome (A : Type) :=
| Return (a : A)
| Throw (message : string).
Arguments Return {A} a.
Arguments Throw {A} message.

(** [row[key]]: an absent property reads [undefined]. *)
Definition property (row : RawRow) (key : option string) : jsval :=
  default JUndefined (row !! default "undefined" key).

Definition keys : list string := ["depth"; "density"; "vp"; "vs"].

(** [missing.join(', ')] *)
Definition join (sep : string) (l : list string) : string := String.concat sep l.

Definition by_depth (a b : PreparedSample) : float := depth a - depth b.

(** The unit kind passed for each canonical field. *)
Definition hint_of (key : string) : string :=
  if String.eqb key "depth" then "depth"
  else if String.eqb key "density" then "density"
  else "velocity".

Section Validation.

(** The conversion of a string to a number ([StringToNumber] of ECMAScript)
    is left abstract. *)
Variable StringToNumber : string → float.

(** [Number(v)] *)
Definition Number (v : jsval) : float :=
  match v with
  | JUndefined => nan
  | JNull => 0
  | JBool b => if b then 1 else 0
  | JNum x => x
  | JStr s => StringToNumber s
  end.

(** [Number.isFinite(raw) ? raw * mult : raw] *)
Definition scaled (raw mult : float) : float :=
  if isFinite raw then raw * mult else raw.

(** One iteration of the loop over the rows: the sample pushed, or [None]
    when the row is skipped.  The four values are numbers, so of the test
    [v === null || v === undefined || Number.isNaN(v)] only the last
    disjunct can hold. *)
Definition prepare (cols : gmap string string) (row : RawRow) : option PreparedSample :=
  let depthHeader := cols !! "depth" in
  let densityHeader := cols !! "density" in
  let vpHeader := cols !! "vp" in
  let vsHeader := cols !! "vs" in
  let depthMult := detectUnitMultiplier depthHeader "depth" in
  let densMult := detectUnitMultiplier densityHeader "density" in
  let vpMult := detectUnitMultiplier vpHeader "velocity" in
  let vsMult := detectUnitMultiplier vsHeader "velocity" in
  let dRaw := Number (property row depthHeader) in
  let rhoRaw := Number (property row densityHeader) in
  let vpRaw := Number (property row vpHeader) in
  let vsRaw := Number (property row vsHeader) in
  let d := scaled dRaw depthMult in
  let rho := scaled rhoRaw densMult in
  let vp := scaled vpRaw vpMult in
  let vs := scaled vsRaw vsMult in
  if existsb isNaN [d; rho; vp; vs] then None
  else Some {| depth := d; density := rho; vp := vp; vs := vs |}.

Definition push_row (cols : gmap string string)
    (arr : list PreparedSample) (row : RawRow) : list PreparedSample :=
  match prepare cols row with
  | Some s => arr ++ [s]
  | None => arr
  end.

Definition missing_columns (cols : gmap string string) : list string :=
  List.filter (λ k, negb (present (cols !! k))) keys.

Definition validateAndPrepare (data : list RawRow) (cols : gmap string string)
    : outcome (list PreparedSample) :=
  let missing := missing_columns cols in
  if negb (length missing =? 0)%nat then
    Throw ("Missing columns: " ++ join ", " missing)%string
  else
    let arr := fold_left (push_row cols) data [] in
    if (length arr =? 0)%nat then Throw "No valid numeric rows found."
    else Return (Array_sort by_depth arr).

(** The value of field [key] of a row after lookup under the mapped header,
    coercion and unit multiplication, as [prepare] computes it. *)
Definition coerced (cols : gmap string string) (row : RawRow) (key : string) : float :=
  scaled (Number (property row (cols !! key)))
         (detectUnitMultiplier (cols !! key) (hint_of key)).

End Validation.

(** ** Derivation Engine: [computeParameters] *)

Definition g : float := 9.81.

(** The derived row; [r_depth], [r_density], [r_vp] and [r_vs] are the keys
    [depth], [density], [vp] and [vs] of the output object. *)
Record DerivedSample := {
  r_depth : float;
  r_density : float;
  r_vp : float;
  r_vs : float;
  vertical_stress_pa : float;
  shear_modulus_pa : float;
  bulk_modulus_pa : float;
  lame_lambda_pa : float;
  youngs_modulus_pa : float;
  poisson_ratio : float;
  acoustic_impedance : float;
  shear_impedance : float;
  p_modulus_pa : float;
  vp_vs_ratio : float;
  impedance_gradient_per_m : float;
  delta_impedance_prev : float;
  lambda_over_mu : float;
  poisson_from_moduli : float;
  brittleness_e : float
}.

(** The body of the trapezoidal loop, on the state [(acc, sigma_v)]. *)
Definition stress_step (depths rho : list float)
    (st : float * list float) (i : nat) : float * list float :=
  let dz := get depths i - get depths (i - 1) in
  let area := 0.5 * (get rho i + get rho (i - 1)) * dz in
  let acc := st.1 + area in
  (acc, array_set st.2 i (acc * g)).

Definition sigma_v (n : nat) (depths rho : list float) : list float :=
  (fold_left (stress_step depths rho) (seq 1 (n - 1))
     (0, array_set (replicate n 0) 0 0)).2.

Definition shearModulus (rho vs : list float) : list float :=
  imap (λ i r, r * Math_pow2 (get vs i)) rho.

Definition bulkModulus (rho vp vs : list float) : list float :=
  imap (λ i r, r * (Math_pow2 (get vp i) - (4 / 3) * Math_pow2 (get vs i))) rho.

Definition lambda (rho vp vs : list float) : list float :=
  imap (λ i r, r * (Math_pow2 (get vp i) - 2 * Math_pow2 (get vs i))) rho.

Definition poisson (vp vs : list float) : list float :=
  imap (λ i vpi,
    let denom := 2 * (Math_pow2 vpi - Math_pow2 (get vs i)) in
    if Math_abs denom <? 1e-12 then nan
    else (Math_pow2 vpi - 2 * Math_pow2 (get vs i)) / denom) vp.

Definition young (shearModulus poisson : list float) : list float :=
  imap (λ i G,
    let nu := get poisson i in
    if negb (isFinite nu) then nan else 2 * G * (1 + nu)) shearModulus.

Definition acousticZ (rho vp : list float) : list float :=
  imap (λ i r, r * get vp i) rho.

Definition shearZ (rho vs : list float) : list float :=
  imap (λ i r, r * get vs i) rho.

Definition pModulus (rho vp : list float) : list float :=
  imap (λ i r, r * Math_pow2 (get vp i)) rho.

Definition vpVsRatio (vp vs : list float) : list float :=
  imap (λ i vpi, if negb (get vs i =? 0) then vpi / get vs i else nan) vp.

(** The body of the finite-difference loop. *)
Definition gradient_step (n : nat) (depths acousticZ : list float)
    (impedanceGrad : list float) (i : nat) : list float :=
  if (i =? 0)%nat then
    let dz := get depths (i + 1) - get depths i in
    array_set impedanceGrad i
      (if truthy dz then (get acousticZ 1 - get acousticZ 0) / dz else nan)
  else if (i =? n - 1)%nat then
    let dz := get depths i - get depths (i - 1) in
    array_set impedanceGrad i
      (if truthy dz then (get acousticZ i - get acousticZ (i - 1)) / dz else nan)
  else
    let dz := get depths (i + 1) - get depths (i - 1) in
    array_set impedanceGrad i
      (if truthy dz then (get acousticZ (i + 1) - get acousticZ (i - 1)) / dz else nan).

Definition impedanceGrad (n : nat) (depths acousticZ : list float) : list float :=
  fold_left (gradient_step n depths acousticZ) (seq 0 n) (replicate n nan).

Definition deltaZPrev (n : nat) (acousticZ : list float) : list float :=
  fold_left (λ a i, array_set a i (get acousticZ i - get acousticZ (i - 1)))
    (seq 1 (n - 1)) (replicate n 0).

Definition lambdaOverMu (lambda shearModulus : list float) : list float :=
  imap (λ i lam,
    if truthy (get shearModulus i) then lam / get shearModulus i else nan) lambda.

Definition poisson_from_moduli_of (bulkModulus shearModulus : list float) : list float :=
  imap (λ i K,
    let G := get shearModulus i in
    let denom := 2 * (3 * K + G) in
    if Math_abs denom <? 1e-12 then nan
    else (3 * K - 2 * G) / denom) bulkModulus.

Definition Evals (shearModulus poisson : list float) : list float :=
  List.filter isFinite
    (imap (λ i G,
       let nu := get poisson i in
       if isFinite nu then 2 * G * (1 + nu) else nan) shearModulus).

Definition E_min (Evals : list float) : float :=
  if negb (length Evals =? 0)%nat then Math_min Evals else nan.

Definition E_max (Evals : list float) : float :=
  if negb (length Evals =? 0)%nat then Math_max Evals else nan.

Definition brittlenessE (young : list float) (E_min E_max : float) : list float :=
  map (λ E,
    if negb (isFinite E) || negb (isFinite E_min) || (E_max =? E_min) then nan
    else (E - E_min) / (E_max - E_min)) young.

Definition computeParameters (rows : list PreparedSample) : list DerivedSample :=
  let n := length rows in
  let depths := map depth rows in
  let rho := map density rows in
  let vp_arr := map vp rows in
  let vs_arr := map vs rows in
  let sigma_v := sigma_v n depths rho in
  let shearModulus := shearModulus rho vs_arr in
  let bulkModulus := bulkModulus rho vp_arr vs_arr in
  let lambda := lambda rho vp_arr vs_arr in
  let poisson := poisson vp_arr vs_arr in
  let young := young shearModulus poisson in
  let acousticZ := acousticZ rho vp_arr in
  let shearZ := shearZ rho vs_arr in
  let pModulus := pModulus rho vp_arr in
  let vpVsRatio := vpVsRatio vp_arr vs_arr in
  let impedanceGrad := impedanceGrad n depths acousticZ in
  let deltaZPrev := deltaZPrev n acousticZ in
  let lambdaOverMu := lambdaOverMu lambda shearModulus in
  let poisson_from_moduli := poisson_from_moduli_of bulkModulus shearModulus in
  let Evals := Evals shearModulus poisson in
  let E_min := E_min Evals in
  let E_max := E_max Evals in
  let brittlenessE := brittlenessE young E_min E_max in
  imap (λ i row,
    {| r_depth := depth row;
       r_density := density row;
       r_vp := vp row;
       r_vs := vs row;
       vertical_stress_pa := get sigma_v i;
       shear_modulus_pa := get shearModulus i;
       bulk_modulus_pa := get bulkModulus i;
       lame_lambda_pa := get lambda i;
       youngs_modulus_pa := get young i;
       poisson_ratio := get poisson i;
       acoustic_impedance := get acousticZ i;
       shear_impedance := get shearZ i;
       p_modulus_pa := get pModulus i;
       vp_vs_ratio := get vpVsRatio i;
       impedance_gradient_per_m := get impedanceGrad i;
       delta_impedance_prev := get deltaZPrev i;
       lambda_over_mu := get lambdaOverMu i;
       poisson_from_moduli := get poisson_from_moduli i;
       brittleness_e := get brittlenessE i |}) rows.

(** ** Notions used to state the properties *)

(** The comparator [(a, b) => key(a) - key(b)], keys that are numbers, and
    the order of keys on the grid. *)
Definition by_key {A} (key : A → float) (a b : A) : float := key a - key b.
Definition key_ok {A} (key : A → float) (a : A) : Prop := isNaN (key a) = false.
Definition key_le {A} (key : A → float) (a b : A) : Prop :=
  (fgrid (key a) <= fgrid (key b))%Z.

(** The field of a sample by its canonical name. *)
Definition field_of (key : string) (s : PreparedSample) : float :=
  if String.eqb key "depth" then depth s
  else if String.eqb key "density" then density s
  else if String.eqb key "vp" then vp s
  else vs s.

(** All four fields of a sample are numbers other than [NaN]. *)
Definition not_nan (s : PreparedSample) : Prop :=
  isNaN (depth s) = false ∧ isNaN (density s) = false ∧
  isNaN (vp s) = false ∧ isNaN (vs s) = false.

(** The loop [for (i = s; i < s + c; i++) a[i] = f(i)]. *)
Definition set_loop (f : nat → float) (s c : nat) (init : list float) : list float :=
  fold_left (λ a i, array_set a i (f i)) (seq s c) init.

(** The cumulative trapezoidal integral of density over depth up to sample
    [i], summed from the top. *)
Fixpoint cumulative_area (depths rho : list float) (i : nat) : float :=
  match i with
  | O => 0
  | S j =>
      cumulative_area depths rho j +
      0.5 * (get rho (S j) + get rho j) * (get depths (S j) - get depths j)
  end.

(** [dz ? (z1 - z0) / dz : NaN] with [dz = d1 - d0]. *)
Definition finite_difference (z1 z0 d1 d0 : float) : float :=
  if truthy (d1 - d0) then (z1 - z0) / (d1 - d0) else nan.

(** The gradient at index [i] of [n] samples, as the three branches of the
    loop compute it. *)
Definition gradient_at (n : nat) (depths Z : list float) (i : nat) : float :=
  if (i =? 0)%nat then finite_difference (get Z 1) (get Z 0) (get depths (i + 1)) (get depths i)
  else if (i =? n - 1)%nat then
    finite_difference (get Z i) (get Z (i - 1)) (get depths i) (get depths (i - 1))
  else finite_difference (get Z (i + 1)) (get Z (i - 1))
         (get depths (i + 1)) (get depths (i - 1)).

(** The characters of a normalised label: lower-case letters, digits and
    spaces. *)
Fixpoint all_chars (p : ascii → bool) (s : string) : bool :=
  match s with
  | EmptyString => true
  | String c s' => p c && all_chars p s'
  end.

Definition clean_char (c : ascii) : bool := is_lower c || is_digit c || Ascii.eqb c " ".

(** A header matches the patterns of a canonical field. *)
Definition matches_depth (h : string) : bool :=
  test re_depth (cleaned h) || test re_depth_units (cleaned h).

Definition matches_density (h : string) : bool := test re_density (cleaned h).

Definition matches_vp (h : string) : bool :=
  test re_vp (cleaned h) || test re_vp_start (cleaned h).

Definition matches_vs (h : string) : bool :=
  test re_vs (cleaned h) || test re_vs_start (cleaned h).

(** The last header, in input order, that satisfies [p]. *)
Fixpoint last_match (p : string → bool) (headers : list string) : option string :=
  match headers with
  | [] => None
  | h :: rest =>
      match last_match p rest with
      | Some h' => Some h'
      | None => if p h then Some h else None
      end
  end.

(** The patterns of a canonical field. *)
Definition field_matches (k : string) : string → bool :=
  if String.eqb k "depth" then matches_depth
  else if String.eqb k "density" then matches_density
  else if String.eqb k "vp" then matches_vp
  else matches_vs.

(** The Poisson ratio, Young's modulus and brittleness of one sample, as the
    bodies of [poisson], [young] and [brittlenessE] compute them. *)
Definition poisson_of (vpi vsi : float) : float :=
  let denom := 2 * (Math_pow2 vpi - Math_pow2 vsi) in
  if Math_abs denom <? 1e-12 then nan
  else (Math_pow2 vpi - 2 * Math_pow2 vsi) / denom.

(** One step of the scans of [Math.min] and [Math.max]. *)
Definition min_step (lowest x : float) : float :=
  if (x <? lowest) || (is_neg_zero x && is_pos_zero lowest) then x else lowest.

Definition max_step (highest x : float) : float :=
  if (highest <? x) || (is_pos_zero x && is_neg_zero highest) then x else highest.

Definition all_finite (l : list float) : Prop := Forall (λ x, isFinite x = true) l.

Definition young_of (G nu : float) : float :=
  if negb (isFinite nu) then nan else 2 * G * (1 + nu).

Definition brittle_of (E E_min E_max : float) : float :=
  if negb (isFinite E) || negb (isFinite E_min) || (E_max =? E_min) then nan
  else (E - E_min) / (E_max - E_min).

(** ** Validate and compute *)

Section Pipeline.

Variable StringToNumber : string → float.

(** [prepared = validateAndPrepare(rawData, cols)] followed by
    [results = computeParameters(prepared)], as the handler of the Validate
    button runs them; an error thrown by the first ends the handler. *)
Definition compute_results (rawData : list RawRow) (cols : gmap string string)
    : outcome (list DerivedSample) :=
  match validateAndPrepare StringToNumber rawData cols with
  | Return prepared => Return (computeParameters prepared)
  | Throw message => Throw message
  end.

End Pipeline.

(** ** Moving average: [smoothArray] *)

(** [Math.floor] of a finite number, as an integer; [smoothArray] takes it
    of a finite window only. *)
Definition Math_floor (x : float) : Z :=
  match Prim2SF x with
  | S754_finite s m e => Z.shiftl (cond_Zopp s (Z.pos m)) e
  | _ => 0
  end.

(** The body of the inner loop, on the state [(sum, cnt)]. *)
Definition smooth_step (arr : list float) (st : float * float) (j : Z) : float * float :=
  if (0 <=? j)%Z && (j <? Z.of_nat (length arr))%Z && isFinite (get arr (Z.to_nat j))
  then (st.1 + get arr (Z.to_nat j), st.2 + 1)
  else st.

(** The inner loop [for (j = i - half; j <= i + half; j++)] and the cell it
    gives. *)
Definition smooth_at (arr : list float) (half : Z) (i : nat) : float :=
  let st := fold_left (smooth_step arr) (seqZ (Z.of_nat i - half) (2 * half + 1)) (0, 0) in
  if truthy st.2 then st.1 / st.2 else nan.

(** [smoothArray(arr, window)].  The counters [i] and [j] are numbers; from
    [2^53] on, [j++] no longer advances [j] and the inner loop does not end.
    The model covers the windows below [2^53], where [w], [half] and the
    counters are exact integers, and is [None] beyond. *)
Definition smoothArray (arr : list float) (window : float) : option (list float) :=
  if negb (truthy window) || (window <=? 1) then Some arr
  else if 9007199254740992 <=? window then None
  else
    let w := Math_floor window in
    let half := (w / 2)%Z in
    Some (set_loop (smooth_at arr half) 0 (length arr) (replicate (length arr) nan)).

(** ** Well-log tracks: the series of [plotWellLogs] *)

(** The own properties of a derived row, in the order of the object literal
    ([Object.keys]). *)
Definition entries (r : DerivedSample) : list (string * float) :=
  [("depth", r_depth r); ("density", r_density r); ("vp", r_vp r); ("vs", r_vs r);
   ("vertical_stress_pa", vertical_stress_pa r);
   ("shear_modulus_pa", shear_modulus_pa r);
   ("bulk_modulus_pa", bulk_modulus_pa r);
   ("lame_lambda_pa", lame_lambda_pa r);
   ("youngs_modulus_pa", youngs_modulus_pa r);
   ("poisson_ratio", poisson_ratio r);
   ("acoustic_impedance", acoustic_impedance r);
   ("shear_impedance", shear_impedance r);
   ("p_modulus_pa", p_modulus_pa r);
   ("vp_vs_ratio", vp_vs_ratio r);
   ("impedance_gradient_per_m", impedance_gradient_per_m r);
   ("delta_impedance_prev", delta_impedance_prev r);
   ("lambda_over_mu", lambda_over_mu r);
   ("poisson_from_moduli", poisson_from_moduli r);
   ("brittleness_e", brittleness_e r)].

(** [(v === null || v === undefined) ? NaN : Number(v)] for [v = r[f]]: the
    number under an own key; a key the row does not own reads [undefined] or
    a function of the prototype, and both end as [NaN]. *)
Definition series_value (f : string) (r : DerivedSample) : float :=
  match List.find (λ kv, String.eqb kv.1 f) (entries r) with
  | Some kv => kv.2
  | None => nan
  end.

Definition series (results : list DerivedSample) (f : string) : list float :=
  map (series_value f) results.

(** The normalisation of one series. *)
Definition normalize (arr : list float) : list float :=
  let vals := List.filter isFinite arr in
  let mn := if negb (length vals =? 0)%nat then Math_min vals else nan in
  let mx := if negb (length vals =? 0)%nat then Math_max vals else nan in
  if isFinite mn && isFinite mx && negb (mx =? mn) then
    map (λ v, if isFinite v then (v - mn) / (mx - mn) else nan) arr
  else map (λ _, nan) arr.

(** The loop [seriesList[i] = smoothArray(seriesList[i], smooth)]; [None] as
    soon as one call is. *)
Fixpoint smooth_all (smooth : float) (seriesList : list (list float))
    : option (list (list float)) :=
  match seriesList with
  | [] => Some []
  | s :: rest =>
      match smoothArray s smooth with
      | Some s' =>
          match smooth_all smooth rest with
          | Some rest' => Some (s' :: rest')
          | None => None
          end
      | None => None
      end
  end.

(** [seriesList] as [plotWellLogs] hands it to the traces, for the options
    [smooth] (a number) and [normalize] (a boolean); an empty selection of
    fields is refused before this point. *)
Definition seriesList (results : list DerivedSample) (fields : list string)
    (smooth : float) (normalized : bool) : option (list (list float)) :=
  let seriesList := map (series results) fields in
  let smoothed :=
    if truthy smooth && (1 <? smooth) then smooth_all smooth seriesList
    else Some seriesList in
  match smoothed with
  | Some seriesList =>
      Some (if normalized then map normalize seriesList else seriesList)
  | None => None
  end.

(** ** Further notions used to state the properties *)

(** The four input columns of a derived row. *)
Definition inputs_of (r : DerivedSample) : PreparedSample :=
  {| depth := r_depth r; density := r_density r; vp := r_vp r; vs := r_vs r |}.

(** The columns of a derived row that are computed from its own sample. *)
Definition own_columns (r : DerivedSample) : list float :=
  [shear_modulus_pa r; bulk_modulus_pa r; lame_lambda_pa r; youngs_modulus_pa r;
   poisson_ratio r; acoustic_impedance r; shear_impedance r; p_modulus_pa r;
   vp_vs_ratio r; lambda_over_mu r; poisson_from_moduli r].

(** [Math.abs(denom) < 1e-12 ? NaN : (3K - 2G) / denom] with
    [denom = 2 * (3K + G)]. *)
Definition poisson_moduli_of (K G : float) : float :=
  let denom := 2 * (3 * K + G) in
  if Math_abs denom <? 1e-12 then nan else (3 * K - 2 * G) / denom.

(** The same columns as the bodies of the maps compute them from a sample. *)
Definition own_of (s : PreparedSample) : list float :=
  let G := density s * Math_pow2 (vs s) in
  let K := density s * (Math_pow2 (vp s) - (4 / 3) * Math_pow2 (vs s)) in
  let lam := density s * (Math_pow2 (vp s) - 2 * Math_pow2 (vs s)) in
  [G; K; lam; young_of G (poisson_of (vp s) (vs s)); poisson_of (vp s) (vs s);
   density s * vp s; density s * vs s; density s * Math_pow2 (vp s);
   if negb (vs s =? 0) then vp s / vs s else nan;
   if truthy G then lam / G else nan;
   poisson_moduli_of K G].

(** The indices of the window of half-width [half] around [i] that lie in
    an array of length [n]. *)
Definition in_window (n : nat) (half : Z) (i j : nat) : Prop :=
  (j < n)%nat ∧ (Z.of_nat i - half <= Z.of_nat j <= Z.of_nat i + half)%Z.

(** The samples are in ascending order of depth. *)
Definition ascending (l : list PreparedSample) : Prop :=
  StronglySorted (λ a b, (depth a <=? depth b) = true) l.

(** The canonical fields that no header of the list matches. *)
Definition undetected (headers : list string) : list string :=
  List.filter (λ k, negb (existsb (field_matches k) headers)) keys.

(** The state [(sum, cnt)] of the inner loop of [smoothArray] after at most
    [K] additions: the sum is a number, the count a finite number from 0 to
    [K]. *)
Definition counted (st : float * float) (K : Z) : Prop :=
  isNaN st.1 = false ∧ isFinite st.2 = true ∧ (0 <= fgrid st.2 <= K * 2 ^ 1074)%Z.

(** The test of the inner loop: [j] is an index of the array and the cell
    is finite. *)
Definition usable (arr : list float) (j : Z) : bool :=
  (0 <=? j)%Z && (j <? Z.of_nat (length arr))%Z && isFinite (get arr (Z.to_nat j)).



(** ** Rounding to nearest, ties to even

    What the rounding of binary64 does to a magnitude, written on
    integers.  These functions are not part of the program; they state what
    the arithmetic of the program computes. *)
Module Nearest.

(** [M / 2^k] rounded to the nearest integer, a tie going to the even one. *)
Definition to_nearest (M k : Z) : Z :=
  let q := (M / 2 ^ k)%Z in
  let r := (M mod 2 ^ k)%Z in
  if (2 * r <? 2 ^ k)%Z then q
  else if (2 ^ k <? 2 * r)%Z then (q + 1)%Z
  else if Z.even q then q else (q + 1)%Z.

(** The state of the shift register after [k] right shifts of [M]: the
    quotient, the round bit and the sticky bit. *)
Definition shifted (M k : Z) (mrs : shr_record) : Prop :=
  shr_m mrs = (M / 2 ^ k)%Z ∧
  shr_r mrs = (2 ^ k <=? 2 * (M mod 2 ^ k))%Z ∧
  shr_s mrs = negb ((2 * (M mod 2 ^ k)) mod 2 ^ k =? 0)%Z.

(** A magnitude [V], in units of [2^-(1074+b)], is rounded at the binary
    place [place b V]: 53 significant bits, and never below [2^-1074]. *)
Definition place (b V : Z) : Z := Z.max (Zdigits2 V - 53) b.

Definition rounded (b V : Z) : Z :=
  (to_nearest V (place b V) * 2 ^ place b V)%Z.

(** Overflow: a rounded magnitude of [2^1024] or more becomes infinite. *)
Definition clamp (b v : Z) : Z :=
  if (v <? 2 ^ (2098 + b))%Z then v else (SF.top * 2 ^ b)%Z.

(** The rounding of a signed quantity. *)
Definition signed_rounded (b S : Z) : Z := (Z.sgn S * clamp b (rounded b (Z.abs S)))%Z.

End Nearest.

(** ** Examples *)

Definition sample (d rho p s : float) : PreparedSample :=
  {| depth := d; density := rho; vp := p; vs := s |}.

(** The example rows hold numbers and [null] only, so the conversion of
    strings is never consulted. *)
Definition no_strings : string → float := λ _, nan.

(** A mapping with a kilometre-per-second velocity column, and rows under it. *)
Definition ex_cols : gmap string string :=
  <["depth" := "Depth"]> (<["density" := "Rho"]> (<["vp" := "Vp_Km/s"]> (<["vs" := "Vs"]> ∅))).

Definition ex_row (d rho vp vs : jsval) : RawRow :=
  <["Depth" := d]> (<["Rho" := rho]> (<["Vp_Km/s" := vp]> (<["Vs" := vs]> ∅))).

Definition ex_data : list RawRow :=
  [ex_row (JNum 10) (JNum 2600) (JNum 3.2) (JNum 1600);
   ex_row (JNum 0) JNull (JNum 3) (JNum 1500);
   ex_row (JNum 5) JUndefined (JNum 3) (JNum 1500);
   ex_row (JNum 0) (JNum 2500) (JNum 3) (JNum 1500)].

(** What [validateAndPrepare] returns for [ex_data] under [ex_cols]. *)
Definition ex_prepared : list PreparedSample :=
  [{| depth := 0; density := 0; vp := 3000; vs := 1500 |};
   {| depth := 0; density := 2500; vp := 3000; vs := 1500 |};
   {| depth := 10; density := 2600; vp := 3200; vs := 1600 |}].


(** The two samples of the specification's concrete scenario. *)
Definition ex_samples : list PreparedSample :=
  [sample 0 2500 3000 1500; sample 10 2600 3200 1600].

(** A water layer ([vs = 0]) on top of rock. *)
Definition ex_fluid : list PreparedSample :=
  [sample 0 1000 1500 0; sample 10 2600 3200 1600].


(** A log with a gap of three cells. *)
Definition ex_log : list float := [1; nan; nan; nan; 5].

(** * Facts about binary64 arithmetic *)

Module SFFacts.
Import SF.

Lemma digits2_size m : digits2_pos m = Pos.size m.
Proof. induction m; simpl; congruence. Qed.

Lemma digits2_bounds m :
  (2 ^ (Z.pos (digits2_pos m) - 1) <= Z.pos m < 2 ^ Z.pos (digits2_pos m))%Z.
Proof.
  rewrite digits2_size. split.
  - pose proof (Pos.size_le m) as H.
    assert (Z.pos (2 ^ Pos.size m) <= Z.pos m~0)%Z by (apply Pos2Z.pos_le_pos; exact H).
    rewrite Pos2Z.inj_pow in H0.
    replace (Z.pos (Pos.size m)) with (Z.succ (Z.pos (Pos.size m) - 1)) in H0 by lia.
    rewrite Z.pow_succ_r in H0 by lia. lia.
  - pose proof (Pos.size_gt m) as H.
    apply Pos2Z.pos_lt_pos in H. rewrite Pos2Z.inj_pow in H. exact H.
Qed.

Lemma ulps_pos e : (-1074 <= e -> 0 < ulps e)%Z.
Proof. intros; unfold ulps; apply Z.pow_pos_nonneg; lia. Qed.

Lemma ulps_add e k : (-1074 <= e -> 0 <= k -> ulps (e + k) = ulps e * 2 ^ k)%Z.
Proof. intros; unfold ulps. rewrite <- Z.pow_add_r by lia. f_equal; lia. Qed.

Lemma bounded_inv m e :
  bounded prec emax m e = true ->
  (-1074 <= e <= 971 /\ Z.pos m < 2 ^ 53 /\ (-1074 < e -> 2 ^ 52 <= Z.pos m))%Z.
Proof.
  unfold bounded, canonical_mantissa, fexp, SpecFloat.emin, prec, emax.
  intros H. apply andb_prop in H as [H1 H2].
  apply Z.eqb_eq in H1. apply Z.leb_le in H2.
  pose proof (digits2_bounds m) as [Hlo Hhi].
  set (d := Z.pos (digits2_pos m)) in *.
  assert (Hd : (d <= 53)%Z) by lia.
  repeat split; try lia.
  - eapply Z.lt_le_trans; [exact Hhi|]. apply Z.pow_le_mono_r; lia.
  - intros He. assert (d = 53)%Z by lia. subst d. rewrite H in Hlo. exact Hlo.
Qed.

Lemma finite_below_top m e :
  bounded prec emax m e = true -> (0 < Z.pos m * ulps e < top)%Z.
Proof.
  intros H. apply bounded_inv in H as (He & Hm & _).
  pose proof (ulps_pos e ltac:(lia)) as Hu.
  assert (Hle : (ulps e <= 2 ^ 2045)%Z)
    by (unfold ulps; apply Z.pow_le_mono_r; lia).
  assert (Htop : (top = 2 ^ 53 * 2 ^ 2045 * 2 ^ 2)%Z)
    by (unfold top; rewrite <- !Z.pow_add_r by lia; reflexivity).
  assert (0 < 2 ^ 2045)%Z by (apply Z.pow_pos_nonneg; lia).
  rewrite Htop. split; [lia|]. 
  assert (Z.pos m * ulps e < 2 ^ 53 * 2 ^ 2045)%Z by nia.
  change (2 ^ 2)%Z with 4%Z. nia.
Qed.

Lemma SFcompare_grid x y :
  valid_binary x = true -> valid_binary y = true ->
  is_nan x = false -> is_nan y = false ->
  SFcompare x y = Some (grid x ?= grid y)%Z.
Proof.
  intros Vx Vy Nx Ny.
  pose proof (Z.pow_pos_nonneg 2 2100 ltac:(lia) ltac:(lia)) as Ht; fold top in Ht.
  destruct x as [sx|sx| |sx mx ex], y as [sy|sy| |sy my ey];
    try discriminate; simpl in Vx, Vy;
    try pose proof (finite_below_top _ _ Vx) as Hx;
    try pose proof (finite_below_top _ _ Vy) as Hy.
  1-8: destruct sx, sy; cbn [SFcompare grid cond_Zopp]; f_equal; symmetry;
       first [apply Z.compare_eq_iff|apply Z.compare_lt_iff|apply Z.compare_gt_iff]; lia.
  cbn [SFcompare grid cond_Zopp].
  - 
    apply bounded_inv in Vx as (Hex & Hmx & Hnx).
    apply bounded_inv in Vy as (Hey & Hmy & Hny).
    assert (Hlt : forall m1 e1 m2 e2,
      (-1074 <= e1 -> e1 < e2 -> Z.pos m1 < 2 ^ 53 -> 2 ^ 52 <= Z.pos m2 ->
       Z.pos m1 * ulps e1 < Z.pos m2 * ulps e2)%Z).
    { intros m1 e1 m2 e2 H1 H2 H3 H4.
      replace e2 with (e1 + (e2 - e1))%Z by lia.
      rewrite ulps_add by lia.
      pose proof (ulps_pos e1 H1).
      assert (2 ^ 1 <= 2 ^ (e2 - e1))%Z by (apply Z.pow_le_mono_r; lia).
      change (2 ^ 1)%Z with 2%Z in *.
      change (2 ^ 53)%Z with (2 * 2 ^ 52)%Z in H3.
      assert (Z.pos m1 * ulps e1 < 2 * (Z.pos m2 * ulps e1))%Z by nia.
      assert (2 * (Z.pos m2 * ulps e1) <= 2 ^ (e2 - e1) * (Z.pos m2 * ulps e1))%Z
        by (apply Z.mul_le_mono_nonneg_r; lia).
      lia. }
    f_equal. symmetry.
    change (Pos.compare_cont Eq mx my) with (Z.pos mx ?= Z.pos my)%Z.
    pose proof (ulps_pos ex ltac:(lia)) as Hux.
    destruct sx, sy; cbn [cond_Zopp];
      try (apply Z.compare_lt_iff; lia); try (apply Z.compare_gt_iff; lia).
    + destruct (Z.compare_spec ex ey) as [E|E|E].
      * subst ey.
        destruct (Z.compare_spec (Z.pos mx) (Z.pos my)) as [E'|E'|E']; cbn [CompOpp];
          [apply Z.compare_eq_iff|apply Z.compare_gt_iff|apply Z.compare_lt_iff]; nia.
      * apply Z.compare_gt_iff. specialize (Hlt mx ex my ey). lia.
      * apply Z.compare_lt_iff. specialize (Hlt my ey mx ex). lia.
    + destruct (Z.compare_spec ex ey) as [E|E|E].
      * subst ey.
        destruct (Z.compare_spec (Z.pos mx) (Z.pos my)) as [E'|E'|E'];
          [apply Z.compare_eq_iff|apply Z.compare_lt_iff|apply Z.compare_gt_iff]; nia.
      * apply Z.compare_lt_iff. specialize (Hlt mx ex my ey). lia.
      * apply Z.compare_gt_iff. specialize (Hlt my ey mx ex). lia.
Qed.

Lemma shr_1_m mrs : (0 <= shr_m mrs -> shr_m (shr_1 mrs) = shr_m mrs / 2)%Z.
Proof.
  destruct mrs as [m r t]; cbn [shr_m]. intros Hm.
  destruct m as [|[p|p|]|p]; cbn [shr_1 shr_m]; try lia; try reflexivity.
  - apply Z.div_unique with (r := 1%Z); lia.
  - apply Z.div_unique with (r := 0%Z); lia.
Qed.

Lemma iter_shr_m p : forall mrs,
  (0 <= shr_m mrs -> shr_m (SpecFloat.iter_pos shr_1 p mrs) = shr_m mrs / 2 ^ Z.pos p)%Z.
Proof.
  induction p as [p IH|p IH|]; intros mrs Hm; cbn [SpecFloat.iter_pos];
    try pose proof (Z.pow_pos_nonneg 2 (Z.pos p) ltac:(lia) ltac:(lia)) as Hp.
  - assert (H1 : (0 <= shr_m (shr_1 mrs))%Z)
      by (rewrite shr_1_m by lia; apply Z.div_pos; lia).
    assert (H2 : (0 <= shr_m (SpecFloat.iter_pos shr_1 p (shr_1 mrs)))%Z)
      by (rewrite IH by lia; apply Z.div_pos; [lia|apply Z.pow_pos_nonneg; lia]).
    rewrite IH, IH, shr_1_m by lia.
    rewrite !Z.div_div by lia.
    f_equal.
    assert (E : (2 ^ Z.pos p~1 = 2 * (2 ^ Z.pos p * 2 ^ Z.pos p))%Z).
    { rewrite <- Z.pow_add_r, <- Z.pow_succ_r by lia. f_equal; lia. }
    rewrite E. reflexivity.
  - assert (H2 : (0 <= shr_m (SpecFloat.iter_pos shr_1 p mrs))%Z)
      by (rewrite IH by lia; apply Z.div_pos; [lia|apply Z.pow_pos_nonneg; lia]).
    rewrite IH, IH by lia.
    rewrite Z.div_div by lia.
    f_equal. rewrite <- Z.pow_add_r by lia. f_equal; lia.
  - rewrite shr_1_m by lia. reflexivity.
Qed.

Lemma shr_record_of_loc_m m l : shr_m (shr_record_of_loc m l) = m.
Proof. destruct l as [|[]]; reflexivity. Qed.

(** Shifting a positive mantissa down to the format never empties it, as
    long as the exponent is on the grid (at least [emin]). *)
Lemma shr_fexp_pos m e l :
  (0 < m -> -1074 <= e ->
   0 < shr_m (fst (shr_fexp prec emax m e l)) /\
   -1074 <= snd (shr_fexp prec emax m e l))%Z.
Proof.
  intros Hm He. unfold shr_fexp, shr.
  destruct m as [|p|p]; try lia. cbn [Zdigits2].
  pose proof (digits2_bounds p) as [Hlo _].
  set (d := Z.pos (digits2_pos p)) in *.
  unfold fexp, SpecFloat.emin, prec, emax.
  destruct (Z.max (d + e - 53) (3 - 1024 - 53) - e)%Z as [|n|n] eqn:En;
    cbn [fst snd]; rewrite ?shr_record_of_loc_m; try lia.
  rewrite iter_shr_m by (rewrite shr_record_of_loc_m; lia).
  rewrite shr_record_of_loc_m. split; [|lia].
  assert (Hn : (Z.pos n = d - 53)%Z) by lia.
  apply Z.div_str_pos. split; [apply Z.pow_pos_nonneg; lia|].
  eapply Z.le_trans; [|exact Hlo]. apply Z.pow_le_mono_r; lia.
Qed.

Lemma round_nearest_even_pos m l : (0 < m -> 0 < round_nearest_even m l)%Z.
Proof. destruct l as [|[]]; cbn; try lia. destruct (Z.even m); lia. Qed.

Lemma binary_round_aux_signed s m e l :
  (0 < m -> -1074 <= e)%Z -> (0 < m)%Z -> signed s (binary_round_aux prec emax s m e l).
Proof.
  intros He Hm. specialize (He Hm). unfold binary_round_aux.
  pose proof (shr_fexp_pos m e l Hm He) as [H1 H2].
  destruct (shr_fexp prec emax m e l) as [mrs' e']. cbn [fst snd] in *.
  pose proof (round_nearest_even_pos _ (loc_of_shr_record mrs') H1) as H3.
  pose proof (shr_fexp_pos _ e' loc_Exact H3 H2) as [H4 H5].
  destruct (shr_fexp prec emax _ e' loc_Exact) as [mrs'' e'']. cbn [fst snd] in *.
  destruct (shr_m mrs'') as [|q|q]; try lia.
  destruct (e'' <=? emax - prec)%Z; reflexivity.
Qed.

Lemma shl_align_spec m e e' :
  (e' <= e ->
   Z.pos (fst (shl_align m e e')) = Z.pos m * 2 ^ (e - e') /\ snd (shl_align m e e') = e')%Z.
Proof.
  intros H. unfold shl_align.
  destruct (e' - e)%Z as [|d|d] eqn:E; cbn [fst snd]; try lia.
  - replace (e - e')%Z with 0%Z by lia. lia.
  - change (Pos.iter xO m d) with (shift_pos d m).
    rewrite shift_pos_correct. change (Z.pow_pos 2 d) with (2 ^ Z.pos d)%Z.
    replace (e - e')%Z with (Z.pos d) by lia. lia.
Qed.

Lemma binary_round_signed s m e :
  (-1074 <= e)%Z -> signed s (binary_round prec emax s m e).
Proof.
  intros He. unfold binary_round.
  set (e' := fexp prec emax (Z.pos (digits2_pos m) + e)).
  assert (He' : (-1074 <= e')%Z) by (unfold e', fexp, SpecFloat.emin, prec, emax; lia).
  assert (Hs : (-1074 <= snd (shl_align m e e'))%Z).
  { unfold shl_align. destruct (e' - e)%Z; cbn [snd]; lia. }
  destruct (shl_align m e e') as [mz ez]. cbn [snd] in Hs.
  apply binary_round_aux_signed; lia.
Qed.

Lemma binary_normalize_sign m e sz :
  (-1074 <= e)%Z ->
  match (m ?= 0)%Z with
  | Eq => binary_normalize prec emax m e sz = S754_zero sz
  | Lt => signed true (binary_normalize prec emax m e sz)
  | Gt => signed false (binary_normalize prec emax m e sz)
  end.
Proof.
  intros He. destruct m as [|p|p]; cbn [Z.compare binary_normalize];
    [reflexivity| |]; apply binary_round_signed; exact He.
Qed.

(** The sign of a rounded difference is the sign of the exact difference:
    subtraction never rounds a non-zero difference to zero. *)
Lemma SFsub_sign x y :
  valid_binary x = true -> valid_binary y = true ->
  is_nan x = false -> is_nan y = false ->
  match (grid x ?= grid y)%Z with
  | Eq => null (SFsub prec emax x y)
  | Lt => signed true (SFsub prec emax x y)
  | Gt => signed false (SFsub prec emax x y)
  end.
Proof.
  intros Vx Vy Nx Ny.
  pose proof (Z.pow_pos_nonneg 2 2100 ltac:(lia) ltac:(lia)) as Ht; fold top in Ht.
  destruct x as [sx|sx| |sx mx ex], y as [sy|sy| |sy my ey];
    try discriminate; simpl in Vx, Vy;
    try pose proof (finite_below_top _ _ Vx) as Hx;
    try pose proof (finite_below_top _ _ Vy) as Hy.
  1-8: destruct sx, sy; cbn [grid cond_Zopp SFsub negb];
       match goal with
       | |- match (?a ?= ?b)%Z with _ => _ end =>
           destruct (Z.compare_spec a b); cbn [null signed]; try lia; auto
       end.
  apply bounded_inv in Vx as (Hex & _ & _).
  apply bounded_inv in Vy as (Hey & _ & _).
  cbn [SFsub grid].
  set (ez := Z.min ex ey).
  destruct (shl_align_spec mx ex ez ltac:(lia)) as [Ex _].
  destruct (shl_align_spec my ey ez ltac:(lia)) as [Ey _].
  set (D := (cond_Zopp sx (Z.pos (fst (shl_align mx ex ez))) -
             cond_Zopp sy (Z.pos (fst (shl_align my ey ez))))%Z).
  assert (HD : (D * ulps ez =
                cond_Zopp sx (Z.pos mx * ulps ex) - cond_Zopp sy (Z.pos my * ulps ey))%Z).
  { unfold D. rewrite Ex, Ey.
    replace (ulps ex) with (ulps (ez + (ex - ez))) by (f_equal; lia).
    replace (ulps ey) with (ulps (ez + (ey - ez))) by (f_equal; lia).
    rewrite !ulps_add by lia. destruct sx, sy; cbn [cond_Zopp]; ring. }
  pose proof (ulps_pos ez ltac:(lia)) as Hu.
  pose proof (binary_normalize_sign D ez false ltac:(lia)) as HN.
  destruct (Z.compare_spec (cond_Zopp sx (Z.pos mx * ulps ex))
                           (cond_Zopp sy (Z.pos my * ulps ey))) as [E|E|E].
  - assert (H : (D = 0)%Z) by nia. clear HN. fold D. rewrite H. exact I.
  - assert (H : (D < 0)%Z) by nia. apply Z.compare_lt_iff in H. rewrite H in HN. exact HN.
  - assert (H : (0 < D)%Z) by nia. apply Z.compare_gt_iff in H. rewrite H in HN. exact HN.
Qed.

(** *** Products *)

Lemma shr_fexp_nonneg m e l :
  (0 <= m -> 0 <= shr_m (fst (shr_fexp prec emax m e l)))%Z.
Proof.
  intros Hm. unfold shr_fexp, shr.
  destruct (fexp prec emax (Zdigits2 m + e) - e)%Z as [|n|n];
    cbn [fst]; rewrite ?shr_record_of_loc_m; try lia.
  rewrite iter_shr_m by (rewrite shr_record_of_loc_m; lia).
  rewrite shr_record_of_loc_m. apply Z.div_pos; [lia|apply Z.pow_pos_nonneg; lia].
Qed.

Lemma round_nearest_even_nonneg m l : (0 <= m -> 0 <= round_nearest_even m l)%Z.
Proof. destruct l as [|[]]; cbn; try lia. destruct (Z.even m); lia. Qed.

(** Rounding a non-negative mantissa never yields [NaN]. *)
Lemma binary_round_aux_not_nan s m e l :
  (0 <= m)%Z -> is_nan (binary_round_aux prec emax s m e l) = false.
Proof.
  intros Hm. unfold binary_round_aux.
  pose proof (shr_fexp_nonneg m e l Hm) as H1.
  destruct (shr_fexp prec emax m e l) as [mrs' e']. cbn [fst] in H1.
  pose proof (round_nearest_even_nonneg _ (loc_of_shr_record mrs') H1) as H2.
  pose proof (shr_fexp_nonneg _ e' loc_Exact H2) as H3.
  destruct (shr_fexp prec emax _ e' loc_Exact) as [mrs'' e'']. cbn [fst] in H3.
  destruct (shr_m mrs'') as [|q|q]; try lia; [reflexivity|].
  destruct (e'' <=? emax - prec)%Z; reflexivity.
Qed.



(** *** Differences and quotients of equal numbers *)

Lemma SFsub_diag x :
  SFsub prec emax x x = S754_zero false \/ SFsub prec emax x x = S754_nan.
Proof.
  destruct x as [[]|[]| |s m e]; cbn [SFsub]; auto.
  left. rewrite Z.sub_diag. reflexivity.
Qed.

Lemma SFeqb_inv x y :
  SFeqb x y = true -> x = y \/ (is_zero x = true /\ is_zero y = true).
Proof.
  unfold SFeqb.
  destruct x as [sx|sx| |sx mx ex], y as [sy|sy| |sy my ey]; cbn [SFcompare is_zero];
    try discriminate; auto;
    try (destruct sx; discriminate); try (destruct sy; discriminate).
  - destruct sx, sy; try discriminate; auto.
  - change (Pos.compare_cont Eq mx my) with (mx ?= my)%positive.
    destruct sx, sy; try discriminate;
      destruct (Z.compare_spec ex ey); try discriminate;
      destruct (Pos.compare_spec mx my); try discriminate; subst; auto.
Qed.

Lemma SFsub_finite_not_nan x y :
  valid_binary x = true -> valid_binary y = true ->
  finite x = true -> finite y = true -> is_nan (SFsub prec emax x y) = false.
Proof.
  intros Vx Vy Fx Fy.
  destruct x as [sx|sx| |sx mx ex], y as [sy|sy| |sy my ey]; try discriminate;
    cbn [SFsub]; try reflexivity.
  - destruct sx, sy; reflexivity.
  - simpl in Vx, Vy.
    apply bounded_inv in Vx as (Hex & _ & _). apply bounded_inv in Vy as (Hey & _ & _).
    match goal with |- is_nan (binary_normalize _ _ ?D ?ez _) = false =>
      pose proof (binary_normalize_sign D ez false ltac:(lia)) as HN;
      destruct (D ?= 0)%Z; [rewrite HN; reflexivity| |];
      destruct (binary_normalize prec emax D ez false); cbn in HN; tauto || reflexivity
    end.
Qed.

(** A zero is interchangeable with any other zero in a difference with a
    non-zero number. *)
Lemma SFsub_zero_l s1 s2 s m e :
  SFsub prec emax (S754_zero s1) (S754_finite s m e) =
  SFsub prec emax (S754_zero s2) (S754_finite s m e).
Proof. reflexivity. Qed.

Lemma SFdiv_zero_l s x sy :
  signed sy x -> is_zero (SFdiv prec emax (S754_zero s) x) = true.
Proof. destruct x; cbn; tauto || reflexivity. Qed.

(** The quotient of a finite non-zero number by itself is exactly 1. *)
Lemma SFdiv_diag s m e :
  SFdiv prec emax (S754_finite s m e) (S754_finite s m e) = one.
Proof.
  cbn [SFdiv]. unfold SFdiv_core_binary.
  replace (Zdigits2 (Z.pos m) + e - (Zdigits2 (Z.pos m) + e))%Z with 0%Z by lia.
  rewrite Z.sub_diag.
  change (Z.min (fexp prec emax 0) 0) with (-53)%Z.
  change (0 - -53)%Z with 53%Z. cbv iota beta.
  pose proof (Z.div_eucl_eq (Z.shiftl (Z.pos m) 53) (Z.pos m) ltac:(lia)) as Heq.
  pose proof (Z.mod_pos_bound (Z.shiftl (Z.pos m) 53) (Z.pos m) ltac:(lia)) as Hb.
  unfold Z.modulo in Hb.
  destruct (Z.div_eucl (Z.shiftl (Z.pos m) 53) (Z.pos m)) as [q r].
  rewrite Z.shiftl_mul_pow2 in Heq by lia.
  assert (Hq : q = (2 ^ 53)%Z) by nia.
  assert (Hr : r = 0%Z) by nia.
  subst q r. unfold new_location, new_location_even, new_location_odd.
  change (0 =? 0)%Z with true.
  destruct (Z.even (Z.pos m)), s; vm_compute; reflexivity.
Qed.

End SFFacts.

(** * Primitive floats through their specification *)

Lemma Prim2SF_zero : Prim2SF 0 = S754_zero false.
Proof. reflexivity. Qed.

Lemma isNaN_spec x : isNaN x = SF.is_nan (Prim2SF x).
Proof.
  unfold isNaN, PrimFloat.is_nan. rewrite FloatAxioms.eqb_spec. unfold SFeqb.
  destruct (SF.is_nan (Prim2SF x)) eqn:E.
  - destruct (Prim2SF x); try discriminate. reflexivity.
  - rewrite SFFacts.SFcompare_grid by auto using Prim2SF_valid.
    rewrite Z.compare_refl. reflexivity.
Qed.

Lemma isNaN_nan x : isNaN x = true → x = nan.
Proof.
  rewrite isNaN_spec. intros H. apply Prim2SF_inj.
  destruct (Prim2SF x); try discriminate. reflexivity.
Qed.

Section Order.
Variables x y : float.
Hypothesis Hx : isNaN x = false.
Hypothesis Hy : isNaN y = false.

Lemma compare_grid : SFcompare (Prim2SF x) (Prim2SF y) = Some (fgrid x ?= fgrid y)%Z.
Proof.
  apply SFFacts.SFcompare_grid; auto using Prim2SF_valid; rewrite <- isNaN_spec; auto.
Qed.

Lemma ltb_grid : (x <? y) = (fgrid x <? fgrid y)%Z.
Proof. rewrite FloatAxioms.ltb_spec. unfold SFltb, Z.ltb. rewrite compare_grid. reflexivity. Qed.

Lemma leb_grid : (x <=? y) = (fgrid x <=? fgrid y)%Z.
Proof.
  rewrite FloatAxioms.leb_spec. unfold SFleb, Z.leb. rewrite compare_grid.
  destruct (fgrid x ?= fgrid y)%Z; reflexivity.
Qed.

Lemma eqb_grid : (x =? y) = (fgrid x =? fgrid y)%Z.
Proof.
  rewrite FloatAxioms.eqb_spec, Z.eqb_compare. unfold SFeqb. rewrite compare_grid.
  reflexivity.
Qed.

Lemma sub_sign :
  match (fgrid x ?= fgrid y)%Z with
  | Eq => SF.null (Prim2SF (x - y))
  | Lt => SF.signed true (Prim2SF (x - y))
  | Gt => SF.signed false (Prim2SF (x - y))
  end.
Proof.
  rewrite FloatAxioms.sub_spec. apply SFFacts.SFsub_sign; auto using Prim2SF_valid;
    rewrite <- isNaN_spec; auto.
Qed.

End Order.

Lemma null_falsy r : SF.null (Prim2SF r) → truthy r = false.
Proof.
  unfold truthy. rewrite isNaN_spec, FloatAxioms.eqb_spec, Prim2SF_zero.
  destruct (Prim2SF r) as [[]| | |]; cbn; tauto.
Qed.

Lemma signed_truthy s r : SF.signed s (Prim2SF r) → truthy r = true.
Proof.
  unfold truthy. rewrite isNaN_spec, FloatAxioms.eqb_spec, Prim2SF_zero.
  destruct (Prim2SF r) as [| [] | |[] ? ?]; cbn; try tauto; reflexivity.
Qed.

Lemma signed_pos s r : SF.signed s (Prim2SF r) → (0 <? r) = negb s.
Proof.
  rewrite FloatAxioms.ltb_spec, Prim2SF_zero.
  destruct (Prim2SF r) as [| [] | |[] ? ?]; cbn; try tauto; intros <-; reflexivity.
Qed.

Lemma null_not_pos r : SF.null (Prim2SF r) → (0 <? r) = false.
Proof.
  rewrite FloatAxioms.ltb_spec, Prim2SF_zero.
  destruct (Prim2SF r) as [[]| | |]; cbn; tauto.
Qed.

(** The comparator [a - b] is positive exactly when [b] lies below [a]. *)
Lemma sub_pos x y :
  isNaN x = false → isNaN y = false → (0 <? x - y) = (fgrid y <? fgrid x)%Z.
Proof.
  intros Hx Hy. pose proof (sub_sign x y Hx Hy) as H.
  rewrite (Z.ltb_antisym), Z.leb_compare.
  destruct (fgrid x ?= fgrid y)%Z.
  - apply null_not_pos in H. rewrite H. reflexivity.
  - apply signed_pos in H. rewrite H. reflexivity.
  - apply signed_pos in H. rewrite H. reflexivity.
Qed.

Lemma sub_truthy x y :
  isNaN x = false → isNaN y = false → truthy (x - y) = negb (fgrid x =? fgrid y)%Z.
Proof.
  intros Hx Hy. pose proof (sub_sign x y Hx Hy) as H. rewrite Z.eqb_compare.
  destruct (fgrid x ?= fgrid y)%Z.
  - apply null_falsy in H. rewrite H. reflexivity.
  - apply signed_truthy in H. rewrite H. reflexivity.
  - apply signed_truthy in H. rewrite H. reflexivity.
Qed.

Lemma sub_nan_l x : nan - x = nan.
Proof. apply Prim2SF_inj. rewrite FloatAxioms.sub_spec. reflexivity. Qed.

Lemma sub_nan_r x : x - nan = nan.
Proof. apply Prim2SF_inj. rewrite FloatAxioms.sub_spec. cbn. destruct (Prim2SF x); reflexivity. Qed.

Lemma eqb_nan_r x d : isNaN d = true → (x =? d) = false.
Proof.
  intros H. apply isNaN_nan in H. subst d. rewrite FloatAxioms.eqb_spec.
  unfold SFeqb. cbn. destruct (Prim2SF x); reflexivity.
Qed.

(** * The stable sort by a numeric key *)

Section Sorting.
Context {A : Type} (key : A → float).
Local Abbreviation by_key := (by_key key).
Local Abbreviation key_ok := (key_ok key).
Local Abbreviation key_le := (key_le key).

Lemma SortCompare_pos a b :
  key_ok a → key_ok b →
  (0 <? SortCompare by_key a b) = (fgrid (key b) <? fgrid (key a))%Z.
Proof.
  intros Ha Hb. rewrite <- (sub_pos _ _ Ha Hb). unfold SortCompare, by_key.
  destruct (isNaN (key a - key b)) eqn:E; [|reflexivity].
  apply isNaN_nan in E. rewrite E. reflexivity.
Qed.

Lemma sort_insert_perm x l : sort_insert by_key x l ≡ₚ x :: l.
Proof.
  induction l as [|y l IH]; cbn; [reflexivity|].
  destruct (0 <? SortCompare by_key x y); [|reflexivity].
  rewrite IH. apply Permutation_swap.
Qed.

Lemma Array_sort_perm l : Array_sort by_key l ≡ₚ l.
Proof.
  induction l as [|x l IH]; cbn; [reflexivity|].
  fold (Array_sort by_key l). rewrite sort_insert_perm, IH. reflexivity.
Qed.

Lemma sort_insert_sorted x l :
  key_ok x → Forall key_ok l →
  StronglySorted key_le l → StronglySorted key_le (sort_insert by_key x l).
Proof.
  intros Hx Hl Hs. induction Hs as [|y l Hs IH Hy]; cbn.
  - repeat constructor.
  - apply Forall_cons in Hl as [Hoy Hl].
    rewrite (SortCompare_pos x y Hx Hoy).
    destruct (Z.ltb_spec (fgrid (key y)) (fgrid (key x))) as [Hlt|Hge].
    + constructor; [auto|].
      rewrite sort_insert_perm. constructor; [unfold key_le; lia|exact Hy].
    + constructor; [constructor; assumption|].
      constructor; [exact Hge|].
      eapply Forall_impl; [exact Hy|]. unfold key_le. intros; lia.
Qed.

Lemma Array_sort_sorted l :
  Forall key_ok l → StronglySorted key_le (Array_sort by_key l).
Proof.
  induction 1 as [|x l Hx Hl IH]; cbn; [constructor|].
  fold (Array_sort by_key l). apply sort_insert_sorted; auto.
  rewrite Array_sort_perm. exact Hl.
Qed.

(** Stability: the elements of any one key value keep their input order. *)
Lemma sort_insert_stable d x l :
  key_ok x → Forall key_ok l →
  List.filter (λ a, key a =? d) (sort_insert by_key x l) =
  List.filter (λ a, key a =? d) (x :: l).
Proof.
  intros Hx Hl. induction Hl as [|y l Hy Hl IH]; [reflexivity|].
  cbn [sort_insert]. rewrite (SortCompare_pos x y Hx Hy).
  destruct (Z.ltb_spec (fgrid (key y)) (fgrid (key x))) as [Hlt|Hge]; [|reflexivity].
  cbn [List.filter] in *. rewrite IH.
  destruct (isNaN d) eqn:Hd.
  - rewrite !(eqb_nan_r _ d Hd). reflexivity.
  - rewrite (eqb_grid (key x) d Hx Hd), (eqb_grid (key y) d Hy Hd).
    destruct (Z.eqb_spec (fgrid (key x)) (fgrid d)), (Z.eqb_spec (fgrid (key y)) (fgrid d));
      try reflexivity; lia.
Qed.

Lemma Array_sort_stable d l :
  Forall key_ok l →
  List.filter (λ a, key a =? d) (Array_sort by_key l) = List.filter (λ a, key a =? d) l.
Proof.
  induction 1 as [|x l Hx Hl IH]; [reflexivity|].
  cbn [Array_sort foldr]. fold (Array_sort by_key l).
  rewrite sort_insert_stable; auto.
  - cbn [List.filter]. rewrite IH. reflexivity.
  - rewrite Array_sort_perm. exact Hl.
Qed.

End Sorting.

(** * The Row Validator / Preparer *)

Section ValidationFacts.
Variable StringToNumber : string → float.
Local Abbreviation Number := (Number StringToNumber).
Local Abbreviation prepare := (prepare StringToNumber).
Local Abbreviation validateAndPrepare := (validateAndPrepare StringToNumber).
Local Abbreviation coerced := (coerced StringToNumber).

Lemma rows_loop cols data acc :
  fold_left (push_row StringToNumber cols) data acc = acc ++ omap (prepare cols) data.
Proof.
  revert acc. induction data as [|row data IH]; intros acc; cbn.
  - rewrite app_nil_r. reflexivity.
  - rewrite IH. unfold push_row. destruct (prepare cols row); cbn.
    + rewrite <- app_assoc. reflexivity.
    + reflexivity.
Qed.

Lemma prepare_spec cols row :
  prepare cols row =
    if existsb (λ k, isNaN (coerced cols row k)) keys then None
    else Some {| depth := coerced cols row "depth"; density := coerced cols row "density";
                 vp := coerced cols row "vp"; vs := coerced cols row "vs" |}.
Proof. reflexivity. Qed.

Lemma prepare_Some cols row s :
  prepare cols row = Some s →
  not_nan s ∧ ∀ k, k ∈ keys → field_of k s = coerced cols row k.
Proof.
  rewrite prepare_spec. cbn [existsb keys].
  destruct (isNaN (coerced cols row "depth")) eqn:E1; [discriminate|].
  destruct (isNaN (coerced cols row "density")) eqn:E2; [discriminate|].
  destruct (isNaN (coerced cols row "vp")) eqn:E3; [discriminate|].
  destruct (isNaN (coerced cols row "vs")) eqn:E4; [discriminate|].
  cbn. intros [= <-]. split; [repeat split; assumption|].
  intros k Hk. unfold keys in Hk.
  repeat (apply elem_of_cons in Hk as [->|Hk]; [reflexivity|]).
  apply elem_of_nil in Hk as [].
Qed.

Lemma prepare_None cols row :
  prepare cols row = None ↔ ∃ k, k ∈ keys ∧ isNaN (coerced cols row k) = true.
Proof.
  rewrite prepare_spec.
  destruct (existsb _ keys) eqn:E.
  - split; [intros _|reflexivity].
    apply existsb_exists in E as (k & Hk & Hn). exists k. split; [|exact Hn].
    apply list_elem_of_In. exact Hk.
  - split; [discriminate|]. intros (k & Hk & Hn).
    assert (existsb (λ k, isNaN (coerced cols row k)) keys = true) as E'.
    { apply existsb_exists. exists k. split; [apply list_elem_of_In; exact Hk|exact Hn]. }
    congruence.
Qed.

Lemma survivors_not_nan cols data : Forall not_nan (omap (prepare cols) data).
Proof.
  induction data as [|row data IH]; cbn; [constructor|].
  destruct (prepare cols row) as [s|] eqn:E; cbn; [|exact IH].
  constructor; [|exact IH]. apply (prepare_Some _ _ _ E).
Qed.

Lemma validateAndPrepare_cases data cols :
  validateAndPrepare data cols =
    match missing_columns cols with
    | _ :: _ => Throw ("Missing columns: " ++ join ", " (missing_columns cols))%string
    | [] =>
        match omap (prepare cols) data with
        | [] => Throw "No valid numeric rows found."
        | _ :: _ => Return (Array_sort by_depth (omap (prepare cols) data))
        end
    end.
Proof.
  unfold validateAndPrepare. rewrite rows_loop, app_nil_l.
  destruct (missing_columns cols); [|reflexivity]. cbn [length Nat.eqb negb].
  destruct (omap (prepare cols) data); reflexivity.
Qed.

Lemma validateAndPrepare_Return data cols arr :
  validateAndPrepare data cols = Return arr →
  missing_columns cols = [] ∧ omap (prepare cols) data ≠ [] ∧
  arr = Array_sort by_depth (omap (prepare cols) data).
Proof.
  rewrite validateAndPrepare_cases.
  destruct (missing_columns cols) as [|k ks]; [|discriminate].
  destruct (omap (prepare cols) data) as [|s l]; [discriminate|].
  intros [= <-]. split; [reflexivity|]. split; [discriminate|reflexivity].
Qed.

Lemma detectUnitMultiplier_values header hint :
  detectUnitMultiplier header hint = 1 ∨ detectUnitMultiplier header hint = 1000.
Proof.
  unfold detectUnitMultiplier.
  repeat match goal with |- context [if ?b then _ else _] => destruct b end; auto.
Qed.

Lemma null_coerced cols row k h :
  cols !! k = Some h → row !! h = Some JNull →
  coerced cols row k = 0 * detectUnitMultiplier (Some h) (hint_of k) ∧
  coerced cols row k = 0.
Proof.
  intros Hc Hr. unfold coerced, property. rewrite Hc. cbn [default from_option id]. rewrite Hr.
  cbn [default from_option id]; unfold Number. change (scaled 0 ?m) with (0 * m).
  split; [reflexivity|].
  destruct (detectUnitMultiplier_values (Some h) (hint_of k)) as [-> | ->]; reflexivity.
Qed.

Lemma StronglySorted_on {A} (P : A → Prop) (R R' : A → A → Prop) l :
  (∀ a b, P a → P b → R a b → R' a b) →
  Forall P l → StronglySorted R l → StronglySorted R' l.
Proof.
  intros HR HP Hs. induction Hs as [|a l Hs IH Ha]; [constructor|].
  apply Forall_cons in HP as [Pa Pl]. constructor; [auto|].
  rewrite Forall_forall in *. intros b Hb. apply HR; auto.
Qed.

Lemma missing_columns_spec cols k :
  k ∈ missing_columns cols ↔ k ∈ keys ∧ present (cols !! k) = false.
Proof.
  unfold missing_columns. rewrite list_elem_of_In, filter_In, <- list_elem_of_In.
  rewrite negb_true_iff. reflexivity.
Qed.

Lemma computeParameters_length rows : length (computeParameters rows) = length rows.
Proof. unfold computeParameters. apply length_imap. Qed.

(** C2. [validateAndPrepare] throws in two ways only.  When a canonical field
    is absent from the mapping it throws the missing-columns error, whatever
    the rows are, and the message lists exactly the absent fields; otherwise,
    when no row survives, it throws the no-valid-rows error; otherwise it
    returns the samples, and [computeParameters] gives one derived row for
    each of them. *)
Theorem validateAndPrepare_fails_two_ways data cols :
  (missing_columns cols ≠ [] →
     validateAndPrepare data cols =
       Throw ("Missing columns: " ++ join ", " (missing_columns cols))%string) ∧
  (missing_columns cols = [] → Forall (λ row, prepare cols row = None) data →
     validateAndPrepare data cols = Throw "No valid numeric rows found.") ∧
  (missing_columns cols = [] → Exists (λ row, is_Some (prepare cols row)) data →
     ∃ arr, validateAndPrepare data cols = Return arr ∧
            length (computeParameters arr) = length arr) ∧
  (∀ k, k ∈ missing_columns cols ↔ k ∈ keys ∧ present (cols !! k) = false).
Proof.
  rewrite validateAndPrepare_cases.
  split; [|split; [|split]].
  - destruct (missing_columns cols); [congruence|reflexivity].
  - intros -> Hall.
    assert (omap (prepare cols) data = []) as ->; [|reflexivity].
    induction Hall as [|row data Hrow _ IH]; cbn; [reflexivity|].
    rewrite Hrow. exact IH.
  - intros -> Hex.
    destruct (omap (prepare cols) data) as [|s l] eqn:E.
    + exfalso. induction Hex as [row data [s Hs]|row data _ IH]; cbn in E.
      * rewrite Hs in E. discriminate.
      * destruct (prepare cols row); [discriminate|auto].
    + eexists. split; [reflexivity|apply computeParameters_length].
  - apply missing_columns_spec.
Qed.

(** C3 (amended). A row one of whose four values is [NaN] after lookup,
    coercion and unit multiplication is dropped without an error, so the
    returned samples are, up to order, the rows that passed, and each of
    their four fields is a number other than [NaN] (possibly an infinity). *)
Theorem returned_samples_not_nan data cols arr :
  validateAndPrepare data cols = Return arr →
  arr ≡ₚ omap (prepare cols) data ∧
  (∀ row, prepare cols row = None ↔ ∃ k, k ∈ keys ∧ isNaN (coerced cols row k) = true) ∧
  Forall not_nan arr.
Proof.
  intros H. apply validateAndPrepare_Return in H as (_ & _ & ->).
  assert (Hp : Array_sort by_depth (omap (prepare cols) data) ≡ₚ omap (prepare cols) data)
    by apply (Array_sort_perm depth).
  split; [exact Hp|]. split; [apply prepare_None|].
  rewrite Hp. apply survivors_not_nan.
Qed.

(** C5. The returned samples are sorted by depth, non-decreasing end to end,
    and the sort is stable: the samples of any one depth come in the order
    of their rows in the input. *)
Theorem validateAndPrepare_sorted_stable data cols arr :
  validateAndPrepare data cols = Return arr →
  StronglySorted (λ a b, (depth a <=? depth b) = true) arr ∧
  ∀ d, List.filter (λ s, depth s =? d) arr =
       List.filter (λ s, depth s =? d) (omap (prepare cols) data).
Proof.
  intros H. apply validateAndPrepare_Return in H as (_ & _ & ->).
  assert (Hok : Forall (key_ok depth) (omap (prepare cols) data)).
  { eapply Forall_impl; [apply survivors_not_nan|]. intros s Hs. apply Hs. }
  split.
  - apply (StronglySorted_on (key_ok depth) (key_le depth)).
    + intros a b Ha Hb Hab. rewrite (leb_grid _ _ Ha Hb). apply Z.leb_le. exact Hab.
    + rewrite (Array_sort_perm depth). exact Hok.
    + apply (Array_sort_sorted depth). exact Hok.
  - intros d. apply (Array_sort_stable depth). exact Hok.
Qed.

(** C10 (amended). A mapped cell that holds [null] is coerced to [0]: the field is [0]
    times the unit multiplier, which is not [NaN], so the cell never causes
    the row to be dropped; the row is retained whenever its other three
    values pass the check. *)
Theorem null_cell_is_zero data cols row k h :
  missing_columns cols = [] → k ∈ keys →
  cols !! k = Some h → row !! h = Some JNull → row ∈ data →
  (∀ k', k' ∈ keys → k' ≠ k → isNaN (coerced cols row k') = false) →
  ∃ arr s, validateAndPrepare data cols = Return arr ∧ s ∈ arr ∧
           prepare cols row = Some s ∧
           field_of k s = 0 * detectUnitMultiplier (Some h) (hint_of k) ∧
           field_of k s = 0.
Proof.
  intros Hm Hk Hc Hr Hin Hothers.
  destruct (null_coerced cols row k h Hc Hr) as [Hmul Hzero].
  assert (Hall : ∀ k', k' ∈ keys → isNaN (coerced cols row k') = false).
  { intros k' Hk'. destruct (decide (k' = k)) as [->|Hne]; [|auto].
    rewrite Hzero. reflexivity. }
  destruct (prepare cols row) as [s|] eqn:Hs.
  2:{ apply prepare_None in Hs as (k' & Hk' & Hn). rewrite Hall in Hn by auto. discriminate. }
  destruct (prepare_Some _ _ _ Hs) as [_ Hf].
  assert (Hsur : s ∈ omap (prepare cols) data).
  { apply list_elem_of_omap. exists row. auto. }
  exists (Array_sort by_depth (omap (prepare cols) data)), s.
  split.
  { rewrite validateAndPrepare_cases, Hm.
    destruct (omap (prepare cols) data); [|reflexivity]. apply elem_of_nil in Hsur as []. }
  split; [rewrite (Array_sort_perm depth); exact Hsur|]. split; [reflexivity|].
  rewrite (Hf k Hk), <- Hmul. auto.
Qed.

End ValidationFacts.

(** ** The properties on the examples *)

Lemma validateAndPrepare_fails_two_ways_witness :
  validateAndPrepare no_strings ex_data (delete "density" ex_cols) =
    Throw "Missing columns: density" ∧
  validateAndPrepare no_strings [ex_row (JNum 5) JUndefined (JNum 3) (JNum 1500)] ex_cols =
    Throw "No valid numeric rows found." ∧
  ∃ arr, validateAndPrepare no_strings ex_data ex_cols = Return arr ∧
         length (computeParameters arr) = length arr.
Proof.
  split; [|split].
  - destruct (validateAndPrepare_fails_two_ways no_strings ex_data (delete "density" ex_cols))
      as (H & _).
    apply H. vm_compute. discriminate.
  - destruct (validateAndPrepare_fails_two_ways no_strings
                [ex_row (JNum 5) JUndefined (JNum 3) (JNum 1500)] ex_cols) as (_ & H & _).
    apply H; [vm_compute; reflexivity|repeat constructor].
  - destruct (validateAndPrepare_fails_two_ways no_strings ex_data ex_cols) as (_ & _ & H & _).
    apply H; [vm_compute; reflexivity|]. constructor. vm_compute. eauto.
Defined.

Lemma returned_samples_not_nan_witness :
  ex_prepared ≡ₚ omap (prepare no_strings ex_cols) ex_data ∧ Forall not_nan ex_prepared.
Proof.
  destruct (returned_samples_not_nan no_strings ex_data ex_cols ex_prepared) as (H1 & _ & H3).
  - vm_compute. reflexivity.
  - split; assumption.
Defined.

(** C3, as stated, fails: a finite cell under a kilometre header overflows to
    [Infinity] when multiplied, and the row is returned all the same. *)
Lemma infinite_sample_is_returned :
  validateAndPrepare no_strings
    [ex_row (JNum 10) (JNum 2600) (JNum 1e306) (JNum 1600)] ex_cols =
    Return [{| depth := 10; density := 2600; vp := infinity; vs := 1600 |}] ∧
  coerced no_strings ex_cols (ex_row (JNum 10) (JNum 2600) (JNum 1e306) (JNum 1600)) "vp"
    = infinity ∧
  isFinite infinity = false.
Proof. vm_compute. auto. Qed.

Lemma validateAndPrepare_sorted_stable_witness :
  StronglySorted (λ a b, (depth a <=? depth b) = true) ex_prepared ∧
  List.filter (λ s, depth s =? 0) ex_prepared =
  List.filter (λ s, depth s =? 0) (omap (prepare no_strings ex_cols) ex_data).
Proof.
  destruct (validateAndPrepare_sorted_stable no_strings ex_data ex_cols ex_prepared) as [H1 H2].
  - vm_compute. reflexivity.
  - split; [exact H1|apply H2].
Defined.

Lemma null_cell_is_zero_witness :
  ∃ arr s, validateAndPrepare no_strings ex_data ex_cols = Return arr ∧ s ∈ arr ∧
           prepare no_strings ex_cols (ex_row (JNum 0) JNull (JNum 3) (JNum 1500)) = Some s ∧
           field_of "density" s = 0 * detectUnitMultiplier (Some "Rho") (hint_of "density") ∧
           field_of "density" s = 0.
Proof.
  apply (null_cell_is_zero no_strings ex_data ex_cols
           (ex_row (JNum 0) JNull (JNum 3) (JNum 1500)) "density" "Rho").
  - vm_compute. reflexivity.
  - unfold keys. set_solver.
  - vm_compute. reflexivity.
  - vm_compute. reflexivity.
  - unfold ex_data. set_solver.
  - intros k' Hk' Hne. unfold keys in Hk'.
    repeat (apply elem_of_cons in Hk' as [->|Hk']; [try congruence; vm_compute; reflexivity|]).
    apply elem_of_nil in Hk' as [].
Defined.

(** C10, as stated, fails: a row whose depth cell holds [null] and whose
    density cell is missing is discarded, the [null] cell notwithstanding;
    only the other row is returned. *)
Lemma null_cell_row_discarded :
  ex_cols !! "depth" = Some "Depth" ∧
  ex_row JNull JUndefined (JNum 3) (JNum 1500) !! "Depth" = Some JNull ∧
  coerced no_strings ex_cols (ex_row JNull JUndefined (JNum 3) (JNum 1500)) "depth" = 0 ∧
  prepare no_strings ex_cols (ex_row JNull JUndefined (JNum 3) (JNum 1500)) = None ∧
  validateAndPrepare no_strings
    [ex_row JNull JUndefined (JNum 3) (JNum 1500);
     ex_row (JNum 10) (JNum 2600) (JNum 3.2) (JNum 1600)] ex_cols =
    Return [sample 10 2600 3200 1600].
Proof. vm_compute. auto 6. Qed.

(** * The Derivation Engine *)

(** ** Arrays *)

Lemma lookup_map {A B} (f : A → B) l i : map f l !! i = f <$> l !! i.
Proof. revert i. induction l as [|a l IH]; intros [|i]; cbn; auto. Qed.

Lemma get_lookup a i x : a !! i = Some x → get a i = x.
Proof. unfold get. intros ->. reflexivity. Qed.

Lemma get_map {A} (f : A → float) l i x : l !! i = Some x → get (map f l) i = f x.
Proof. intros H. apply get_lookup. rewrite lookup_map, H. reflexivity. Qed.

Lemma get_imap {A} (f : nat → A → float) l i x :
  l !! i = Some x → get (imap f l) i = f i x.
Proof. intros H. apply get_lookup. rewrite list_lookup_imap, H. reflexivity. Qed.

Lemma get_outside a i : length a ≤ i → get a i = nan.
Proof. intros H. unfold get. rewrite lookup_ge_None_2 by exact H. reflexivity. Qed.

Lemma array_set_inside a i v : i < length a → array_set a i v = <[i := v]> a.
Proof. intros H. unfold array_set. rewrite decide_True by exact H. reflexivity. Qed.

Lemma get_insert a i j v :
  i < length a → get (<[i := v]> a) j = if decide (i = j) then v else get a j.
Proof.
  intros H. unfold get. rewrite list_lookup_insert.
  destruct (decide (i = j)) as [->|Hne].
  - rewrite decide_True by auto. reflexivity.
  - rewrite decide_False by tauto. reflexivity.
Qed.

(** A loop [for (i = s; i < s + c; i++) a[i] = f(i)] on an array that holds
    all these cells: it keeps the length, and cell [i] ends as [f i]. *)
Section SetLoop.
Variable f : nat → float.
Local Abbreviation set_loop := (set_loop f).

Lemma set_loop_cons s c init :
  set_loop s (S c) init = set_loop (S s) c (array_set init s (f s)).
Proof. reflexivity. Qed.

Lemma set_loop_snoc s c init :
  set_loop s (S c) init = array_set (set_loop s c init) (s + c) (f (s + c)).
Proof. unfold set_loop. rewrite seq_S, fold_left_app. reflexivity. Qed.

Lemma set_loop_length c : ∀ s init,
  s + c ≤ length init → length (set_loop s c init) = length init.
Proof.
  induction c as [|c IH]; intros s init H; [reflexivity|].
  rewrite set_loop_cons, array_set_inside by lia.
  rewrite IH; rewrite length_insert; [reflexivity|lia].
Qed.

Lemma set_loop_get c : ∀ s init i,
  s + c ≤ length init →
  get (set_loop s c init) i = if decide (s ≤ i < s + c) then f i else get init i.
Proof.
  induction c as [|c IH]; intros s init i H.
  - cbn. rewrite decide_False by lia. reflexivity.
  - rewrite set_loop_cons, array_set_inside by lia.
    rewrite IH by (rewrite length_insert; lia).
    rewrite get_insert by lia.
    destruct (decide (S s ≤ i < S s + c)), (decide (s ≤ i < s + S c)),
      (decide (s = i)); try lia; subst; reflexivity.
Qed.

End SetLoop.

(** ** Vertical stress *)

Lemma stress_loop depths rho m : ∀ init,
  fold_left (stress_step depths rho) (seq 1 m) (0, init) =
  (cumulative_area depths rho m,
   set_loop (λ i, cumulative_area depths rho i * g) 1 m init).
Proof.
  induction m as [|m IH]; intros init; [reflexivity|].
  rewrite seq_S, fold_left_app, IH, set_loop_snoc.
  cbn [fold_left]. unfold stress_step. cbn [fst snd].
  replace (1 + m - 1)%nat with m by lia. reflexivity.
Qed.

Lemma sigma_v_get n depths rho i :
  i < n →
  get (sigma_v n depths rho) i =
    match i with O => 0 | S _ => cumulative_area depths rho i * g end.
Proof.
  intros H. unfold sigma_v. rewrite stress_loop. cbn [snd].
  rewrite array_set_inside by (rewrite length_replicate; lia).
  rewrite set_loop_get by (rewrite length_insert, length_replicate; lia).
  destruct i as [|i].
  - rewrite decide_False by lia. rewrite get_insert by (rewrite length_replicate; lia).
    reflexivity.
  - rewrite decide_True by lia. reflexivity.
Qed.

Lemma deltaZPrev_get n Z i :
  i < n →
  get (deltaZPrev n Z) i = match i with O => 0 | S j => get Z i - get Z j end.
Proof.
  intros H. unfold deltaZPrev.
  change (fold_left _ (seq 1 (n - 1)) (replicate n 0))
    with (set_loop (λ i, get Z i - get Z (i - 1)) 1 (n - 1) (replicate n 0)).
  rewrite set_loop_get by (rewrite length_replicate; lia).
  destruct i as [|i].
  - rewrite decide_False by lia. apply get_lookup, lookup_replicate_2. lia.
  - rewrite decide_True by lia. replace (S i - 1)%nat with i by lia. reflexivity.
Qed.

(** ** Impedance gradient *)

Lemma gradient_step_set n depths Z a i :
  gradient_step n depths Z a i = array_set a i (gradient_at n depths Z i).
Proof.
  unfold gradient_step, gradient_at.
  destruct (i =? 0)%nat; [reflexivity|]. destruct (i =? n - 1)%nat; reflexivity.
Qed.

Lemma impedanceGrad_get n depths Z i :
  i < n → get (impedanceGrad n depths Z) i = gradient_at n depths Z i.
Proof.
  intros H. unfold impedanceGrad.
  assert (E : ∀ l init, fold_left (gradient_step n depths Z) l init =
                        fold_left (λ a i, array_set a i (gradient_at n depths Z i)) l init).
  { induction l as [|j l IH]; intros init; cbn; [reflexivity|].
    rewrite gradient_step_set. apply IH. }
  rewrite E. fold (set_loop (gradient_at n depths Z) 0 n (replicate n nan)).
  rewrite set_loop_get by (rewrite length_replicate; lia).
  rewrite decide_True by lia. reflexivity.
Qed.

(** A zero depth span gives the sentinel. *)
Lemma finite_difference_zero_span z1 z0 d1 d0 :
  (d1 =? d0) = true → finite_difference z1 z0 d1 d0 = nan.
Proof.
  intros H. unfold finite_difference.
  destruct (isNaN d1) eqn:H1.
  { apply isNaN_nan in H1. subst d1. rewrite sub_nan_l. reflexivity. }
  destruct (isNaN d0) eqn:H0.
  { rewrite (eqb_nan_r _ _ H0) in H. discriminate. }
  rewrite (sub_truthy _ _ H1 H0), <- (eqb_grid _ _ H1 H0), H. reflexivity.
Qed.

Lemma gradient_at_last d Z j :
  gradient_at (S (S j)) d Z (S j) =
  finite_difference (get Z (S j)) (get Z j) (get d (S j)) (get d j).
Proof.
  unfold gradient_at. change (S j =? 0)%nat with false. cbv iota.
  replace (S (S j) - 1)%nat with (S j) by lia. rewrite Nat.eqb_refl.
  replace (S j - 1)%nat with j by lia. reflexivity.
Qed.

Lemma gradient_at_interior n d Z j :
  S (S j) < n →
  gradient_at n d Z (S j) =
  finite_difference (get Z (S (S j))) (get Z j) (get d (S (S j))) (get d j).
Proof.
  intros H. unfold gradient_at. change (S j =? 0)%nat with false. cbv iota.
  destruct (Nat.eqb_spec (S j) (n - 1)) as [E|_]; [lia|].
  replace (S j - 1)%nat with j by lia. replace (S j + 1)%nat with (S (S j)) by lia.
  reflexivity.
Qed.

(** ** Rows of the output *)

(** [out_row H rows i s Hs]: from [H : computeParameters rows !! i = Some r],
    the sample [s] at index [i] and [r] as the record built from it. *)
Ltac out_row H rows i s Hs :=
  unfold computeParameters in H; rewrite list_lookup_imap in H;
  destruct (rows !! i) as [s|] eqn:Hs; [|discriminate H];
  cbn [fmap option_fmap option_map] in H;
  injection H as H; try subst.

Lemma out_depth_impedance rows i r :
  computeParameters rows !! i = Some r →
  i < length rows ∧
  r_depth r = get (map depth rows) i ∧
  acoustic_impedance r = get (acousticZ (map density rows) (map vp rows)) i ∧
  impedance_gradient_per_m r =
    gradient_at (length rows) (map depth rows)
      (acousticZ (map density rows) (map vp rows)) i.
Proof.
  intros H. out_row H rows i s Hs. cbn.
  assert (Hi : i < length rows) by (apply lookup_lt_is_Some; eauto).
  repeat split; auto.
  - symmetry. apply get_map. exact Hs.
  - apply impedanceGrad_get. exact Hi.
Qed.

(** C1. On the two samples (0, 2500, 3000, 1500) and (10, 2600, 3200, 1600)
    the first row has p-modulus 2500 * 3000^2 = 2.25e10 and vertical stress
    0, the second has vertical stress 0.5 * (2500 + 2600) * 10 * 9.81 =
    250155; and for every input the vertical stress of the first row is 0
    and that of row [i] is g = 9.81 times the cumulative trapezoidal
    integral of density over depth. *)
Theorem vertical_stress_trapezoid :
  (∃ r0 r1,
     computeParameters [sample 0 2500 3000 1500; sample 10 2600 3200 1600] = [r0; r1] ∧
     p_modulus_pa r0 = 2500 * (3000 * 3000) ∧ p_modulus_pa r0 = 2.25e10 ∧
     vertical_stress_pa r0 = 0 ∧
     vertical_stress_pa r1 = 0.5 * (2500 + 2600) * 10 * 9.81 ∧
     vertical_stress_pa r1 = 250155) ∧
  (∀ rows i r, computeParameters rows !! i = Some r →
     vertical_stress_pa r =
       match i with
       | O => 0
       | S _ => cumulative_area (map depth rows) (map density rows) i * g
       end) ∧
  (∀ d rho, cumulative_area d rho 0 = 0) ∧
  (∀ d rho j, cumulative_area d rho (S j) =
     cumulative_area d rho j + 0.5 * (get rho (S j) + get rho j) * (get d (S j) - get d j)).
Proof.
  split; [|split; [|split]].
  - eexists _, _. split; [vm_compute; reflexivity|]. vm_compute. auto 6.
  - intros rows i r H. out_row H rows i s Hs. cbn [vertical_stress_pa].
    apply sigma_v_get. apply lookup_lt_is_Some. eauto.
  - reflexivity.
  - reflexivity.
Qed.

Lemma vertical_stress_trapezoid_witness :
  ∃ r, computeParameters ex_samples !! 1%nat = Some r ∧
       vertical_stress_pa r =
         cumulative_area (map depth ex_samples) (map density ex_samples) 1 * g ∧
       vertical_stress_pa r = 250155.
Proof.
  destruct (computeParameters ex_samples !! 1%nat) as [r|] eqn:E;
    [|vm_compute in E; discriminate E].
  exists r. split; [reflexivity|].
  destruct vertical_stress_trapezoid as (_ & H & _).
  pose proof (H ex_samples 1%nat r E) as Hr. split; [exact Hr|].
  rewrite Hr. vm_compute. reflexivity.
Defined.

(** C8. A single sample has vertical stress 0, impedance difference 0 and a
    sentinel impedance gradient.  With two samples or more the gradient is
    the forward difference at the first sample, the backward difference at
    the last and the centered difference in between, of acoustic impedance
    over depth; and a difference over a zero depth span is the sentinel. *)
Theorem single_sample_and_gradient :
  (∀ s, ∃ r, computeParameters [s] = [r] ∧ vertical_stress_pa r = 0 ∧
             delta_impedance_prev r = 0 ∧ impedance_gradient_per_m r = nan) ∧
  (∀ rows r0 r1,
     computeParameters rows !! 0%nat = Some r0 → computeParameters rows !! 1%nat = Some r1 →
     impedance_gradient_per_m r0 =
       finite_difference (acoustic_impedance r1) (acoustic_impedance r0)
                         (r_depth r1) (r_depth r0)) ∧
  (∀ rows j p r,
     length rows = S (S j) →
     computeParameters rows !! j = Some p → computeParameters rows !! S j = Some r →
     impedance_gradient_per_m r =
       finite_difference (acoustic_impedance r) (acoustic_impedance p)
                         (r_depth r) (r_depth p)) ∧
  (∀ rows j p r q,
     computeParameters rows !! j = Some p → computeParameters rows !! S j = Some r →
     computeParameters rows !! S (S j) = Some q →
     impedance_gradient_per_m r =
       finite_difference (acoustic_impedance q) (acoustic_impedance p)
                         (r_depth q) (r_depth p)) ∧
  (∀ z1 z0 d1 d0, (d1 =? d0) = true → finite_difference z1 z0 d1 d0 = nan).
Proof.
  split; [|split; [|split; [|split]]].
  - intros s. pose proof (computeParameters_length [s]) as Hlen.
    destruct (computeParameters [s]) as [|r [|]] eqn:E; try discriminate Hlen.
    exists r. split; [reflexivity|].
    assert (H : computeParameters [s] !! 0%nat = Some r) by (rewrite E; reflexivity).
    clear E Hlen. out_row H [s] 0%nat s' Hs.
    cbn [vertical_stress_pa delta_impedance_prev impedance_gradient_per_m].
    rewrite sigma_v_get, deltaZPrev_get, impedanceGrad_get by (cbn; lia).
    repeat split. unfold gradient_at, finite_difference. cbn [Nat.eqb].
    rewrite (get_outside _ (0 + 1)) by (cbn; lia). rewrite sub_nan_l. reflexivity.
  - intros rows r0 r1 H0 H1.
    apply out_depth_impedance in H0 as (_ & -> & -> & ->).
    apply out_depth_impedance in H1 as (_ & -> & -> & _).
    reflexivity.
  - intros rows j p r Hn Hp Hr.
    apply out_depth_impedance in Hp as (_ & -> & -> & _).
    apply out_depth_impedance in Hr as (_ & -> & -> & ->).
    rewrite Hn. apply gradient_at_last.
  - intros rows j p r q Hp Hr Hq.
    apply out_depth_impedance in Hp as (_ & -> & -> & _).
    apply out_depth_impedance in Hq as (Hlt & -> & -> & _).
    apply out_depth_impedance in Hr as (_ & _ & _ & ->).
    apply gradient_at_interior. exact Hlt.
  - apply finite_difference_zero_span.
Qed.

Lemma single_sample_and_gradient_witness :
  ∃ r0 r1, computeParameters ex_samples = [r0; r1] ∧
    impedance_gradient_per_m r0 =
      finite_difference (acoustic_impedance r1) (acoustic_impedance r0)
                        (r_depth r1) (r_depth r0) ∧
    impedance_gradient_per_m r0 = 82000.
Proof.
  destruct (computeParameters ex_samples) as [|r0 [|r1 [|]]] eqn:E;
    try (vm_compute in E; discriminate E).
  exists r0, r1. split; [reflexivity|].
  assert (E0 : computeParameters ex_samples !! 0%nat = Some r0) by (rewrite E; reflexivity).
  assert (E1 : computeParameters ex_samples !! 1%nat = Some r1) by (rewrite E; reflexivity).
  destruct single_sample_and_gradient as (_ & H & _).
  split; [exact (H ex_samples r0 r1 E0 E1)|].
  vm_compute in E. injection E as <- <-. reflexivity.
Defined.

(** * Header patterns *)

Lemma matches_at_Alt r1 r2 p :
  matches_at (Alt r1 r2) p = matches_at r1 p || matches_at r2 p.
Proof.
  unfold matches_at. cbn [matches].
  destruct (matches r1 p), (matches r2 p); reflexivity.
Qed.

Lemma test_from_Alt r1 r2 s : ∀ prev,
  test_from (Alt r1 r2) prev s = test_from r1 prev s || test_from r2 prev s.
Proof.
  induction s as [|c s IH]; intros prev; cbn [test_from]; rewrite matches_at_Alt.
  - rewrite !orb_false_r. reflexivity.
  - rewrite IH.
    destruct (matches_at r1 _), (matches_at r2 _), (test_from r1 _ s), (test_from r2 _ s);
      reflexivity.
Qed.

Lemma test_Alt r1 r2 s : test (Alt r1 r2) s = test r1 s || test r2 s.
Proof. apply test_from_Alt. Qed.

(** [^] matches at the start of the input only. *)
Lemma test_from_Start_inside r c s : test_from (Seq Start r) (Some c) s = false.
Proof.
  revert c. induction s as [|c' s IH]; intros c; cbn [test_from]; [reflexivity|].
  rewrite IH. reflexivity.
Qed.

Lemma test_Start r s : test (Seq Start r) s = matches_at r (None, s).
Proof.
  unfold test. destruct s as [|c s]; cbn [test_from].
  - rewrite orb_false_r. unfold matches_at. cbn. rewrite app_nil_r. reflexivity.
  - rewrite test_from_Start_inside, orb_false_r.
    unfold matches_at. cbn. rewrite app_nil_r. reflexivity.
Qed.

(** A label that starts with the word [w] contains the word [w]: the
    patterns [/^vp\b/] and [/^vs\b/] add nothing to [/\bvp\b/] and [/\bvs\b/]. *)
Lemma test_Start_word c w s :
  is_word_char c = true →
  test (Seq Start (Seq (Lit (String c w)) WordB)) s = true →
  test (word (String c w)) s = true.
Proof.
  intros Hc. rewrite test_Start. intros H.
  assert (Hb : at_boundary (None, s) = true).
  { destruct s as [|c' s]; [discriminate H|].
    unfold matches_at in H. cbn in H.
    destruct (Ascii.eqb_spec c c') as [<-|]; [|discriminate H].
    cbn. exact Hc. }
  unfold test. destruct s as [|c' s]; [discriminate H|].
  cbn [test_from]. apply orb_true_iff. left.
  unfold matches_at, word in *. cbn [matches mbind] in *.
  rewrite Hb. cbn [mbind list_bind]. rewrite app_nil_r. exact H.
Qed.

Lemma vp_start_redundant s : test re_vp_start s = true → test re_vp s = true.
Proof.
  intros H. apply (test_Start_word "v" "p") in H; [|reflexivity].
  unfold re_vp. cbn [alts]. rewrite test_Alt, H. reflexivity.
Qed.

Lemma vs_start_redundant s : test re_vs_start s = true → test re_vs s = true.
Proof.
  intros H. apply (test_Start_word "v" "s") in H; [|reflexivity].
  unfold re_vs. cbn [alts]. rewrite test_Alt, H. reflexivity.
Qed.

(** * The Header Mapper *)

Lemma last_match_snoc p hs h :
  last_match p (hs ++ [h]) = if p h then Some h else last_match p hs.
Proof.
  induction hs as [|h' hs IH]; cbn.
  - destruct (p h); reflexivity.
  - rewrite IH. destruct (p h); reflexivity.
Qed.

Lemma lookup_if_insert (c : bool) (k k' v : string) (m : gmap string string) :
  (if c then <[k := v]> m else m) !! k' =
  if c && bool_decide (k = k') then Some v else m !! k'.
Proof.
  destruct c; cbn; [|reflexivity].
  destruct (bool_decide_reflect (k = k')) as [->|Hne].
  - apply lookup_insert_eq.
  - apply lookup_insert_ne. exact Hne.
Qed.

(** Assigning a field a second time under a condition that implies the
    first changes nothing. *)
Lemma assign_again (c1 c2 c3 : bool) (k v : string) (m : gmap string string) :
  (c2 = true → c1 = true) →
  (if c3 && c2 then <[k := v]> (if c1 then <[k := v]> m else m)
   else if c1 then <[k := v]> m else m) =
  if c1 then <[k := v]> m else m.
Proof.
  intros H. destruct c3, c2; cbn [andb]; try reflexivity.
  rewrite (H eq_refl). apply insert_insert_eq.
Qed.

Lemma detect_step_main map h :
  detect_step map h =
    let c := cleaned h in
    let map := if test re_depth c then <["depth" := h]> map else map in
    let map := if test re_depth_units c then <["depth" := h]> map else map in
    let map := if test re_density c then <["density" := h]> map else map in
    let map := if test re_vp c then <["vp" := h]> map else map in
    if test re_vs c then <["vs" := h]> map else map.
Proof.
  unfold detect_step. fold (cleaned h). cbv zeta.
  rewrite (assign_again (test re_vp (cleaned h))) by apply vp_start_redundant.
  rewrite (assign_again (test re_vs (cleaned h))) by apply vs_start_redundant.
  reflexivity.
Qed.

Lemma orb_start_redundant (a b : bool) : (b = true → a = true) → a || b = a.
Proof. destruct a, b; auto. intros H. symmetry. auto. Qed.

(** What one header does to the mapping, field by field. *)
Lemma detect_step_lookup map h k :
  detect_step map h !! k =
    if bool_decide (k = "depth") && matches_depth h then Some h
    else if bool_decide (k = "density") && matches_density h then Some h
    else if bool_decide (k = "vp") && matches_vp h then Some h
    else if bool_decide (k = "vs") && matches_vs h then Some h
    else map !! k.
Proof.
  rewrite detect_step_main. cbv zeta.
  unfold matches_depth, matches_density, matches_vp, matches_vs.
  rewrite (orb_start_redundant _ _ (vp_start_redundant (cleaned h))).
  rewrite (orb_start_redundant _ _ (vs_start_redundant (cleaned h))).
  rewrite !lookup_if_insert.
  destruct (bool_decide_reflect (k = "depth")) as [->|H1];
    [|destruct (bool_decide_reflect (k = "density")) as [->|H2];
      [|destruct (bool_decide_reflect (k = "vp")) as [->|H3];
        [|destruct (bool_decide_reflect (k = "vs")) as [->|H4]]]].
  5: rewrite !bool_decide_eq_false_2 by congruence.
  1-4: repeat match goal with
       | |- context [bool_decide (?a = ?b)] =>
           change (bool_decide (a = b)) with true || change (bool_decide (a = b)) with false
       end.
  all: destruct (test re_depth (cleaned h)), (test re_depth_units (cleaned h)),
         (test re_density (cleaned h)), (test re_vp (cleaned h)), (test re_vs (cleaned h));
       reflexivity.
Qed.

Lemma detectColumns_snoc hs h :
  detectColumns (hs ++ [h]) = detect_step (detectColumns hs) h.
Proof. unfold detectColumns. rewrite fold_left_app. reflexivity. Qed.

Lemma keys_inv (P : string → Prop) :
  P "depth" → P "density" → P "vp" → P "vs" → ∀ k, k ∈ keys → P k.
Proof.
  intros H1 H2 H3 H4 k Hk. unfold keys in Hk.
  repeat (apply elem_of_cons in Hk as [->|Hk]; [assumption|]).
  apply elem_of_nil in Hk as [].
Qed.

Ltac decide_keys :=
  repeat match goal with
  | |- context [bool_decide (?a = ?b)] =>
      change (bool_decide (a = b)) with true || change (bool_decide (a = b)) with false
  end.

Lemma detect_step_field map h k :
  k ∈ keys → detect_step map h !! k = if field_matches k h then Some h else map !! k.
Proof.
  revert k. apply keys_inv; rewrite detect_step_lookup; decide_keys; cbn [andb].
  - change (field_matches "depth") with matches_depth. reflexivity.
  - change (field_matches "density") with matches_density. reflexivity.
  - change (field_matches "vp") with matches_vp.
    destruct (matches_vp h); reflexivity.
  - change (field_matches "vs") with matches_vs.
    destruct (matches_vs h); reflexivity.
Qed.

Lemma detect_step_other map h k : k ∉ keys → detect_step map h !! k = map !! k.
Proof.
  intros Hk. rewrite detect_step_lookup. unfold keys in Hk.
  rewrite !bool_decide_eq_false_2 by (intros ->; apply Hk; set_solver).
  reflexivity.
Qed.

(** C9. [detectColumns] returns a mapping for every list of headers.  Each
    canonical field holds the last header, in input order, that matches the
    patterns of the field: a later matching header overwrites the
    assignment, a header that does not match leaves it; nothing but the
    canonical fields is ever assigned. *)
Theorem detectColumns_last_match headers k :
  (k ∈ keys →
     detectColumns headers !! k = last_match (field_matches k) headers ∧
     ∀ h, detectColumns (headers ++ [h]) !! k =
          if field_matches k h then Some h else detectColumns headers !! k) ∧
  (k ∉ keys → detectColumns headers !! k = None).
Proof.
  split.
  - intros Hk. split.
    + induction headers as [|h hs IH] using rev_ind; [reflexivity|].
      rewrite detectColumns_snoc, detect_step_field, last_match_snoc, IH by exact Hk.
      reflexivity.
    + intros h. rewrite detectColumns_snoc. apply detect_step_field. exact Hk.
  - intros Hk. induction headers as [|h hs IH] using rev_ind; [reflexivity|].
    rewrite detectColumns_snoc, detect_step_other by exact Hk. exact IH.
Qed.

Lemma detectColumns_last_match_witness :
  detectColumns ["Vp"; "Depth_m"; "Vp_Km/s"; "Rho"] !! "vp" = Some "Vp_Km/s" ∧
  detectColumns (["Vp"; "Depth_m"; "Vp_Km/s"; "Rho"] ++ ["P velocity"]) !! "vp" =
    Some "P velocity".
Proof.
  destruct (detectColumns_last_match ["Vp"; "Depth_m"; "Vp_Km/s"; "Rho"] "vp") as [H _].
  destruct H as [H1 H2]; [unfold keys; set_solver|].
  split; [exact H1|]. rewrite H2. vm_compute. reflexivity.
Defined.

(** * The Unit Normalizer *)

Lemma km_token_multiplier h hint :
  present (Some h) = true → test re_km (cleaned h) = true →
  detectUnitMultiplier (Some h) hint = 1000.
Proof.
  intros Hp Hkm. unfold detectUnitMultiplier. rewrite Hp. cbn [negb default from_option id].
  fold (cleaned h). unfold re_km_per_s. cbn [alts]. rewrite test_Alt.
  unfold re_km in Hkm. rewrite Hkm. reflexivity.
Qed.

(** A normalised label holds no slash, so the optional slash of [g\/?cc]
    never matches: the pattern finds ["gcc"], not ["g/cc"]. *)
Lemma replace_runs_clean s : ∀ b, all_chars clean_char (replace_runs b s) = true.
Proof.
  induction s as [|c s IH]; intros b; cbn [replace_runs]; [reflexivity|].
  destruct (is_lower c || is_digit c) eqn:E.
  - cbn [all_chars]. unfold clean_char. rewrite E, IH. reflexivity.
  - destruct b; [apply IH|]. cbn [all_chars]. rewrite IH. reflexivity.
Qed.

Lemma optional_slash_unmatched prev s :
  all_chars clean_char s = true →
  matches_at (Seq (Lit "g") (Seq (Opt (Lit "/")) (Lit "cc"))) (prev, s) =
  matches_at (Lit "gcc") (prev, s).
Proof.
  intros H. destruct s as [|c1 s1]; [reflexivity|].
  unfold matches_at. cbn [matches strip_prefix fst snd].
  destruct (Ascii.eqb "g" c1); [|reflexivity].
  cbn [mbind list_bind matches fst snd].
  cbn [all_chars] in H. apply andb_prop in H as [_ H].
  destruct s1 as [|c2 s2]; [reflexivity|].
  cbn [all_chars] in H. apply andb_prop in H as [Hc _].
  cbn [strip_prefix].
  destruct (Ascii.eqb_spec "/" c2) as [<-|_]; [discriminate Hc|].
  cbn [app mbind list_bind matches strip_prefix fst snd].
  destruct (Ascii.eqb "c" c2); [|reflexivity].
  destruct s2 as [|c3 s3]; [reflexivity|].
  destruct (Ascii.eqb "c" c3); reflexivity.
Qed.

Lemma optional_slash_test s : ∀ prev,
  all_chars clean_char s = true →
  test_from (Seq (Lit "g") (Seq (Opt (Lit "/")) (Lit "cc"))) prev s =
  test_from (Lit "gcc") prev s.
Proof.
  induction s as [|c s IH]; intros prev H; cbn [test_from];
    rewrite (optional_slash_unmatched prev _ H); [reflexivity|].
  cbn [all_chars] in H. apply andb_prop in H as [_ H]. rewrite (IH _ H). reflexivity.
Qed.

Lemma g_per_cc_without_slash h :
  test re_g_per_cc (cleaned h) =
  test (alts [Lit "gcc"; Lit "g cm3"; Lit "gcm3"]) (cleaned h).
Proof.
  unfold re_g_per_cc. cbn [alts]. rewrite !test_Alt. f_equal.
  apply optional_slash_test. apply replace_runs_clean.
Qed.

(** C4. [detectUnitMultiplier] returns 1 for an absent label, 1000 for every
    label with a [km] token (so the raw value 3.0 under ["Vp_Km/s"] becomes
    3000) and 1 for an explicit [m/s]; the density labels ["g cm3"] and
    ["gcm3"] give 1000.  The label ["g/cc"] does not: the slash is turned
    into a space before the pattern [g\/?cc] is tried, so for every label
    the pattern can find ["gcc"] only, and the multiplier of ["g/cc"] is 1,
    where the comment of the code and the specification say 1000. *)
Theorem gram_per_cc_label_not_converted :
  (∀ hint, detectUnitMultiplier None hint = 1 ∧ detectUnitMultiplier (Some "") hint = 1) ∧
  (∀ h hint, present (Some h) = true → test re_km (cleaned h) = true →
     detectUnitMultiplier (Some h) hint = 1000) ∧
  (∀ h hint, detectUnitMultiplier h hint = 1 ∨ detectUnitMultiplier h hint = 1000) ∧
  (∀ h, test re_g_per_cc (cleaned h) =
        test (alts [Lit "gcc"; Lit "g cm3"; Lit "gcm3"]) (cleaned h)) ∧
  detectUnitMultiplier (Some "Vp_Km/s") "velocity" = 1000 ∧
  3.0 * detectUnitMultiplier (Some "Vp_Km/s") "velocity" = 3000 ∧
  detectUnitMultiplier (Some "Vs (m/s)") "velocity" = 1 ∧
  detectUnitMultiplier (Some "Vs") "velocity" = 1 ∧
  detectUnitMultiplier (Some "Depth_km") "depth" = 1000 ∧
  detectUnitMultiplier (Some "Depth") "depth" = 1 ∧
  detectUnitMultiplier (Some "Density g cm3") "density" = 1000 ∧
  detectUnitMultiplier (Some "rho_gcm3") "density" = 1000 ∧
  detectUnitMultiplier (Some "Density") "density" = 1 ∧
  cleaned "Density (g/cc)" = "density g cc " ∧
  test re_g_per_cc (cleaned "Density (g/cc)") = false ∧
  detectUnitMultiplier (Some "Density (g/cc)") "density" = 1 ∧
  detectUnitMultiplier (Some "g/cc") "density" = 1.
Proof.
  split; [intros hint; split; reflexivity|].
  split; [apply km_token_multiplier|].
  split; [apply detectUnitMultiplier_values|].
  split; [apply g_per_cc_without_slash|].
  vm_compute. repeat split.
Qed.

(** * Degenerate arithmetic *)

Lemma isFinite_spec x : isFinite x = SF.finite (Prim2SF x).
Proof.
  unfold isFinite, is_finite, is_infinity. fold (isNaN x).
  rewrite isNaN_spec, FloatAxioms.eqb_spec, FloatAxioms.abs_spec.
  destruct (Prim2SF x) as [[]|[]| |[] m e]; reflexivity.
Qed.

Lemma isFinite_not_nan x : isFinite x = true → isNaN x = false.
Proof. rewrite isFinite_spec, isNaN_spec. destruct (Prim2SF x); auto. Qed.


Lemma sub_diag p : p - p = 0 ∨ p - p = nan.
Proof.
  destruct (SFFacts.SFsub_diag (Prim2SF p)) as [H|H]; [left|right];
    apply Prim2SF_inj; rewrite FloatAxioms.sub_spec; exact H.
Qed.




Lemma sub_finite_not_nan x y :
  isFinite x = true → isFinite y = true → isNaN (x - y) = false.
Proof.
  rewrite !isFinite_spec, isNaN_spec, FloatAxioms.sub_spec.
  apply SFFacts.SFsub_finite_not_nan; apply Prim2SF_valid.
Qed.

Lemma div_diag d : isFinite d = true → truthy d = true → d / d = 1.
Proof.
  unfold truthy. rewrite isFinite_spec, isNaN_spec, FloatAxioms.eqb_spec.
  change (Prim2SF 0) with (S754_zero false). intros Hf Ht.
  apply Prim2SF_inj. rewrite FloatAxioms.div_spec.
  destruct (Prim2SF d) as [[]|[]| |s m e]; try discriminate.
  apply SFFacts.SFdiv_diag.
Qed.


(** * [Math.min] and [Math.max] of finite numbers *)

Lemma finite_grid_bounds x : isFinite x = true → (- SF.top < fgrid x < SF.top)%Z.
Proof.
  rewrite isFinite_spec. unfold fgrid. pose proof (Prim2SF_valid x) as V.
  pose proof (Z.pow_pos_nonneg 2 2100 ltac:(lia) ltac:(lia)) as Ht. fold SF.top in Ht.
  destruct (Prim2SF x) as [s|s| |s m e]; try discriminate; intros _; cbn [SF.grid]; [lia|].
  apply SFFacts.finite_below_top in V. destruct s; cbn [cond_Zopp]; lia.
Qed.

Lemma zero_grid x : (x =? 0) = true → fgrid x = 0%Z.
Proof.
  intros H. destruct (isNaN x) eqn:Hx.
  - apply isNaN_nan in Hx. subst x. discriminate H.
  - rewrite (eqb_grid x 0 Hx eq_refl) in H. apply Z.eqb_eq in H. exact H.
Qed.

Lemma min_step_spec lowest x :
  isNaN lowest = false → isNaN x = false →
  (min_step lowest x = x ∨ min_step lowest x = lowest) ∧
  (fgrid (min_step lowest x) <= fgrid lowest)%Z ∧
  (fgrid (min_step lowest x) <= fgrid x)%Z.
Proof.
  intros Hl Hx. unfold min_step. rewrite (ltb_grid x lowest Hx Hl).
  destruct (Z.ltb_spec (fgrid x) (fgrid lowest)) as [Hlt|Hge]; cbn [orb].
  - split; [auto|lia].
  - destruct (is_neg_zero x && is_pos_zero lowest) eqn:E.
    + apply andb_prop in E as [E1 E2].
      apply andb_prop in E1 as [E1 _]. apply andb_prop in E2 as [E2 _].
      apply zero_grid in E1, E2. split; [auto|lia].
    + split; [auto|lia].
Qed.

Lemma max_step_spec highest x :
  isNaN highest = false → isNaN x = false →
  (max_step highest x = x ∨ max_step highest x = highest) ∧
  (fgrid highest <= fgrid (max_step highest x))%Z ∧
  (fgrid x <= fgrid (max_step highest x))%Z.
Proof.
  intros Hl Hx. unfold max_step. rewrite (ltb_grid highest x Hl Hx).
  destruct (Z.ltb_spec (fgrid highest) (fgrid x)) as [Hlt|Hge]; cbn [orb].
  - split; [auto|lia].
  - destruct (is_pos_zero x && is_neg_zero highest) eqn:E.
    + apply andb_prop in E as [E1 E2].
      apply andb_prop in E1 as [E1 _]. apply andb_prop in E2 as [E2 _].
      apply zero_grid in E1, E2. split; [auto|lia].
    + split; [auto|lia].
Qed.

Lemma fold_min l : ∀ lowest,
  all_finite l → isNaN lowest = false →
  let m := fold_left min_step l lowest in
  (m = lowest ∨ m ∈ l) ∧ isNaN m = false ∧
  (fgrid m <= fgrid lowest)%Z ∧ ∀ x, x ∈ l → (fgrid m <= fgrid x)%Z.
Proof.
  induction l as [|x l IH]; intros lowest Hl Hn; cbv zeta; cbn [fold_left].
  - repeat split; auto; try lia. intros x Hx. apply elem_of_nil in Hx as [].
  - apply Forall_cons in Hl as [Hx Hl]. pose proof (isFinite_not_nan x Hx) as Hxn.
    destruct (min_step_spec lowest x Hn Hxn) as (Hor & H1 & H2).
    assert (Hn' : isNaN (min_step lowest x) = false) by (destruct Hor as [-> | ->]; auto).
    destruct (IH (min_step lowest x) Hl Hn') as (Hm & Hmn & Hm1 & Hm2). cbv zeta in *.
    split; [|split; [exact Hmn|split; [lia|]]].
    + destruct Hm as [Hm|Hm]; [|right; right; exact Hm].
      rewrite Hm. destruct Hor as [-> | ->]; [right; left|left]; reflexivity.
    + intros y Hy. apply elem_of_cons in Hy as [->|Hy]; [lia|auto].
Qed.

Lemma fold_max l : ∀ highest,
  all_finite l → isNaN highest = false →
  let m := fold_left max_step l highest in
  (m = highest ∨ m ∈ l) ∧ isNaN m = false ∧
  (fgrid highest <= fgrid m)%Z ∧ ∀ x, x ∈ l → (fgrid x <= fgrid m)%Z.
Proof.
  induction l as [|x l IH]; intros highest Hl Hn; cbv zeta; cbn [fold_left].
  - repeat split; auto; try lia. intros x Hx. apply elem_of_nil in Hx as [].
  - apply Forall_cons in Hl as [Hx Hl]. pose proof (isFinite_not_nan x Hx) as Hxn.
    destruct (max_step_spec highest x Hn Hxn) as (Hor & H1 & H2).
    assert (Hn' : isNaN (max_step highest x) = false) by (destruct Hor as [-> | ->]; auto).
    destruct (IH (max_step highest x) Hl Hn') as (Hm & Hmn & Hm1 & Hm2). cbv zeta in *.
    split; [|split; [exact Hmn|split; [lia|]]].
    + destruct Hm as [Hm|Hm]; [|right; right; exact Hm].
      rewrite Hm. destruct Hor as [-> | ->]; [right; left|left]; reflexivity.
    + intros y Hy. apply elem_of_cons in Hy as [->|Hy]; [lia|auto].
Qed.

Lemma all_finite_no_nan l : all_finite l → existsb isNaN l = false.
Proof.
  induction 1 as [|x l Hx _ IH]; cbn; [reflexivity|].
  rewrite (isFinite_not_nan x Hx), IH. reflexivity.
Qed.

(** On a non-empty list of finite numbers [Math.min] returns an element of
    the list that no element lies below, [Math.max] one that none exceeds. *)
Lemma Math_min_spec l :
  all_finite l → l ≠ [] →
  Math_min l ∈ l ∧ ∀ x, x ∈ l → (fgrid (Math_min l) <= fgrid x)%Z.
Proof.
  intros Hl Hne. unfold Math_min. rewrite (all_finite_no_nan l Hl).
  fold min_step. destruct l as [|x l]; [congruence|].
  pose proof Hl as Hl'. apply Forall_cons in Hl' as [Hx _].
  destruct (fold_min (x :: l) infinity Hl eq_refl) as (Hm & _ & Hle & Hall).
  split; [|exact Hall]. destruct Hm as [Hm|Hm]; [|exact Hm].
  exfalso. cbv zeta in Hm, Hall. rewrite Hm in Hall.
  specialize (Hall x ltac:(left)). pose proof (finite_grid_bounds x Hx).
  change (fgrid infinity) with SF.top in Hall. lia.
Qed.

Lemma Math_max_spec l :
  all_finite l → l ≠ [] →
  Math_max l ∈ l ∧ ∀ x, x ∈ l → (fgrid x <= fgrid (Math_max l))%Z.
Proof.
  intros Hl Hne. unfold Math_max. rewrite (all_finite_no_nan l Hl).
  fold max_step. destruct l as [|x l]; [congruence|].
  pose proof Hl as Hl'. apply Forall_cons in Hl' as [Hx _].
  destruct (fold_max (x :: l) neg_infinity Hl eq_refl) as (Hm & _ & Hle & Hall).
  split; [|exact Hall]. destruct Hm as [Hm|Hm]; [|exact Hm].
  exfalso. cbv zeta in Hm, Hall. rewrite Hm in Hall.
  specialize (Hall x ltac:(left)). pose proof (finite_grid_bounds x Hx).
  change (fgrid neg_infinity) with (- SF.top)%Z in Hall. lia.
Qed.

(** * Moduli, Young's modulus and brittleness of a row *)

Section Row.
Variable rows : list PreparedSample.
Variable i : nat.
Variable s : PreparedSample.
Hypothesis Hs : rows !! i = Some s.

Lemma poisson_get :
  get (poisson (map vp rows) (map vs rows)) i = poisson_of (vp s) (vs s).
Proof.
  unfold poisson. rewrite (get_imap _ _ i (vp s)).
  - rewrite (get_map vs rows i s Hs). reflexivity.
  - rewrite lookup_map, Hs. reflexivity.
Qed.

Lemma young_lookup :
  young (shearModulus (map density rows) (map vs rows))
        (poisson (map vp rows) (map vs rows)) !! i =
  Some (young_of (density s * Math_pow2 (vs s)) (poisson_of (vp s) (vs s))).
Proof.
  unfold young at 1. rewrite list_lookup_imap.
  unfold shearModulus at 1. rewrite list_lookup_imap, lookup_map, Hs.
  cbn [fmap option_fmap option_map]. rewrite poisson_get, (get_map vs rows i s Hs).
  reflexivity.
Qed.

End Row.

Lemma out_young rows :
  map youngs_modulus_pa (computeParameters rows) =
  young (shearModulus (map density rows) (map vs rows))
        (poisson (map vp rows) (map vs rows)).
Proof.
  apply list_eq. intros i. rewrite lookup_map. unfold computeParameters.
  rewrite list_lookup_imap. destruct (rows !! i) as [s|] eqn:Hs.
  - cbn [fmap option_fmap option_map youngs_modulus_pa].
    rewrite (young_lookup rows i s Hs). unfold get. rewrite (young_lookup rows i s Hs).
    reflexivity.
  - cbn. symmetry. apply lookup_ge_None_2.
    unfold young, shearModulus. rewrite !length_imap, length_map.
    apply lookup_ge_None_1. exact Hs.
Qed.

Lemma Evals_young G P : Evals G P = List.filter isFinite (young G P).
Proof.
  unfold Evals, young. f_equal. apply imap_ext. intros j x _. cbn.
  destruct (isFinite (get P j)); reflexivity.
Qed.

Lemma out_brittleness rows i r :
  computeParameters rows !! i = Some r →
  brittleness_e r =
    brittle_of (youngs_modulus_pa r)
      (E_min (List.filter isFinite (map youngs_modulus_pa (computeParameters rows))))
      (E_max (List.filter isFinite (map youngs_modulus_pa (computeParameters rows)))).
Proof.
  intros H. rewrite out_young, <- Evals_young.
  out_row H rows i s Hs. cbn [brittleness_e youngs_modulus_pa].
  unfold brittlenessE. unfold get at 1. rewrite lookup_map.
  unfold get. rewrite (young_lookup rows i s Hs). reflexivity.
Qed.


(** * Brittleness: min-max normalisation *)

Lemma zero_div a b s :
  SF.is_zero (Prim2SF a) = true → SF.signed s (Prim2SF b) → (a / b =? 0) = true.
Proof.
  intros Ha Hb. rewrite FloatAxioms.eqb_spec, FloatAxioms.div_spec.
  destruct (Prim2SF a) as [sa| | |]; try discriminate.
  pose proof (SFFacts.SFdiv_zero_l sa _ _ Hb) as H.
  change (Prim2SF 0) with (S754_zero false). unfold SF64div.
  destruct (SFdiv prec emax (S754_zero sa) (Prim2SF b)); try discriminate. reflexivity.
Qed.

(** Numbers at the same place of the grid give the same difference with a
    number elsewhere. *)
Lemma sub_same_grid a b c :
  isFinite a = true → isFinite b = true → isFinite c = true →
  fgrid a = fgrid b → fgrid c ≠ fgrid a → a - c = b - c.
Proof.
  intros Ha Hb Hc Hab Hca.
  pose proof (isFinite_not_nan a Ha) as Na. pose proof (isFinite_not_nan b Hb) as Nb.
  pose proof (eqb_grid a b Na Nb) as E. rewrite Hab, Z.eqb_refl in E.
  rewrite FloatAxioms.eqb_spec in E.
  apply SFFacts.SFeqb_inv in E as [E|[Za Zb]].
  - apply Prim2SF_inj in E. subst b. reflexivity.
  - apply Prim2SF_inj. rewrite !FloatAxioms.sub_spec.
    rewrite isFinite_spec in Hc. unfold fgrid in Hca.
    destruct (Prim2SF a) as [sa| | |]; try discriminate.
    destruct (Prim2SF b) as [sb| | |]; try discriminate.
    destruct (Prim2SF c) as [sc| | |sc mc ec]; try discriminate.
    + cbn in Hca. congruence.
    + apply SFFacts.SFsub_zero_l.
Qed.

Section Brittleness.
Variable Es : list float.
Variable E : float.
Hypothesis HEs : all_finite Es.
Hypothesis HE : E ∈ Es.

Lemma Es_nonempty : Es ≠ [].
Proof. intros ->. apply elem_of_nil in HE as []. Qed.

Lemma E_finite : isFinite E = true.
Proof. unfold all_finite in HEs. rewrite Forall_forall in HEs. auto. Qed.

Lemma E_min_max_eq : E_min Es = Math_min Es ∧ E_max Es = Math_max Es.
Proof.
  unfold E_min, E_max. pose proof Es_nonempty. destruct Es; [congruence|]. auto.
Qed.

Lemma min_max_facts :
  isFinite (Math_min Es) = true ∧ isFinite (Math_max Es) = true ∧
  (fgrid (Math_min Es) <= fgrid E <= fgrid (Math_max Es))%Z ∧
  (∀ x, x ∈ Es → fgrid (Math_min Es) <= fgrid x <= fgrid (Math_max Es))%Z.
Proof.
  destruct (Math_min_spec Es HEs Es_nonempty) as [Hm Hmin].
  destruct (Math_max_spec Es HEs Es_nonempty) as [HM Hmax].
  pose proof HEs as HF. unfold all_finite in HF. rewrite Forall_forall in HF.
  repeat split; auto.
Qed.

Lemma brittle_formula :
  brittle_of E (E_min Es) (E_max Es) =
    if Math_max Es =? Math_min Es then nan
    else (E - Math_min Es) / (Math_max Es - Math_min Es).
Proof.
  destruct E_min_max_eq as [-> ->]. destruct min_max_facts as (Hm & _).
  unfold brittle_of. rewrite E_finite, Hm. reflexivity.
Qed.

Hypothesis Hdistinct : ∃ x, x ∈ Es ∧ (x =? E) = false.

Lemma brittle_least :
  (∀ x, x ∈ Es → (E <=? x) = true) →
  (brittle_of E (E_min Es) (E_max Es) =? 0) = true.
Proof.
  intros Hleast. rewrite brittle_formula.
  destruct min_max_facts as (Hm & HM & HEg & Hall).
  pose proof E_finite as HEf.
  pose proof (isFinite_not_nan _ Hm) as Nm. pose proof (isFinite_not_nan _ HM) as NM.
  pose proof (isFinite_not_nan _ HEf) as NE.
  destruct (Math_min_spec Es HEs Es_nonempty) as [Hmin _].
  pose proof (Hleast _ Hmin) as Hle. rewrite (leb_grid _ _ NE Nm) in Hle.
  apply Z.leb_le in Hle.
  destruct Hdistinct as (x & Hx & Hne).
  pose proof (Hall x Hx) as Hxg. pose proof (Hleast x Hx) as HEx.
  assert (Nx : isNaN x = false).
  { apply isFinite_not_nan. unfold all_finite in HEs. rewrite Forall_forall in HEs. auto. }
  rewrite (eqb_grid _ _ Nx NE) in Hne. apply Z.eqb_neq in Hne.
  rewrite (leb_grid _ _ NE Nx) in HEx. apply Z.leb_le in HEx.
  rewrite (eqb_grid _ _ NM Nm), (proj2 (Z.eqb_neq _ _)) by lia.
  pose proof (sub_sign E (Math_min Es) NE Nm) as H1.
  replace (fgrid E ?= fgrid (Math_min Es))%Z with Eq in H1
    by (symmetry; apply Z.compare_eq_iff; lia).
  pose proof (sub_sign (Math_max Es) (Math_min Es) NM Nm) as H2.
  replace (fgrid (Math_max Es) ?= fgrid (Math_min Es))%Z with Gt in H2
    by (symmetry; apply Z.compare_gt_iff; lia).
  apply (zero_div _ _ false); [|exact H2].
  pose proof (sub_finite_not_nan E (Math_min Es) HEf Hm) as H3.
  rewrite isNaN_spec in H3.
  destruct (Prim2SF (E - Math_min Es)); cbn in *; tauto || congruence.
Qed.

Lemma brittle_greatest :
  (∀ x, x ∈ Es → (x <=? E) = true) →
  isFinite (Math_max Es - Math_min Es) = true →
  brittle_of E (E_min Es) (E_max Es) = 1.
Proof.
  intros Hgreatest Hspan. rewrite brittle_formula.
  destruct min_max_facts as (Hm & HM & HEg & Hall).
  pose proof E_finite as HEf.
  pose proof (isFinite_not_nan _ Hm) as Nm. pose proof (isFinite_not_nan _ HM) as NM.
  pose proof (isFinite_not_nan _ HEf) as NE.
  destruct (Math_max_spec Es HEs Es_nonempty) as [Hmax _].
  pose proof (Hgreatest _ Hmax) as Hle. rewrite (leb_grid _ _ NM NE) in Hle.
  apply Z.leb_le in Hle.
  destruct Hdistinct as (x & Hx & Hne).
  pose proof (Hall x Hx) as Hxg. pose proof (Hgreatest x Hx) as HEx.
  assert (Nx : isNaN x = false).
  { apply isFinite_not_nan. unfold all_finite in HEs. rewrite Forall_forall in HEs. auto. }
  rewrite (eqb_grid _ _ Nx NE) in Hne. apply Z.eqb_neq in Hne.
  rewrite (leb_grid _ _ Nx NE) in HEx. apply Z.leb_le in HEx.
  rewrite (eqb_grid _ _ NM Nm), (proj2 (Z.eqb_neq _ _)) by lia.
  rewrite (sub_same_grid E (Math_max Es) (Math_min Es)) by (auto; lia).
  pose proof (sub_sign (Math_max Es) (Math_min Es) NM Nm) as H2.
  replace (fgrid (Math_max Es) ?= fgrid (Math_min Es))%Z with Gt in H2
    by (symmetry; apply Z.compare_gt_iff; lia).
  apply div_diag; [exact Hspan|]. apply (signed_truthy false). exact H2.
Qed.

End Brittleness.

Lemma finite_youngs_all_finite (l : list float) : all_finite (List.filter isFinite l).
Proof.
  unfold all_finite. rewrite Forall_forall. intros x Hx.
  apply list_elem_of_In, filter_In in Hx. apply Hx.
Qed.

Lemma finite_youngs_elem rows i r :
  computeParameters rows !! i = Some r → isFinite (youngs_modulus_pa r) = true →
  youngs_modulus_pa r ∈ List.filter isFinite (map youngs_modulus_pa (computeParameters rows)).
Proof.
  intros Hr Hf. apply list_elem_of_In, filter_In. split; [|exact Hf].
  apply in_map. apply list_elem_of_In. eapply list_elem_of_lookup_2. exact Hr.
Qed.

(** C7 (amended). Let [Es] be the finite Young's moduli of the samples.  A
    sample with a finite modulus [E] gets [(E - E_min) / (E_max - E_min)]
    when [E_max] differs from [E_min], where [E_min] and [E_max] are the
    least and greatest members of [Es].  When [Es] holds two distinct
    values, a sample whose modulus is least gets 0, and one whose modulus is
    greatest gets exactly 1 provided the span [E_max - E_min] does not
    overflow.  The brittleness is the sentinel when [Es] is empty, when
    [E_max = E_min], and when the sample's own modulus is not finite. *)
Theorem brittleness_min_max rows i r :
  computeParameters rows !! i = Some r →
  let E := youngs_modulus_pa r in
  let Es := List.filter isFinite (map youngs_modulus_pa (computeParameters rows)) in
  (isFinite E = true →
     Math_min Es ∈ Es ∧ Math_max Es ∈ Es ∧
     (∀ x, x ∈ Es → (Math_min Es <=? x) = true ∧ (x <=? Math_max Es) = true) ∧
     brittleness_e r =
       if Math_max Es =? Math_min Es then nan
       else (E - Math_min Es) / (Math_max Es - Math_min Es)) ∧
  (isFinite E = true → (∃ x, x ∈ Es ∧ (x =? E) = false) →
     (∀ x, x ∈ Es → (E <=? x) = true) → (brittleness_e r =? 0) = true) ∧
  (isFinite E = true → (∃ x, x ∈ Es ∧ (x =? E) = false) →
     (∀ x, x ∈ Es → (x <=? E) = true) →
     isFinite (Math_max Es - Math_min Es) = true → brittleness_e r = 1) ∧
  (Es = [] → brittleness_e r = nan) ∧
  (isFinite E = false → brittleness_e r = nan).
Proof.
  intros Hr E Es. pose proof (out_brittleness rows i r Hr) as Hb. fold E Es in Hb.
  pose proof (finite_youngs_all_finite (map youngs_modulus_pa (computeParameters rows)))
    as HEs. fold Es in HEs.
  split; [|split; [|split; [|split]]].
  - intros Hf. pose proof (finite_youngs_elem rows i r Hr Hf) as HE. fold E Es in HE.
    destruct (Math_min_spec Es HEs (Es_nonempty Es E HEs HE)) as [Hm Hmin].
    destruct (Math_max_spec Es HEs (Es_nonempty Es E HEs HE)) as [HM Hmax].
    split; [exact Hm|]. split; [exact HM|]. split.
    + intros x Hx.
      destruct (min_max_facts Es E HEs HE) as (Fm & FM & _).
      assert (Fx : isFinite x = true)
        by (unfold all_finite in HEs; rewrite Forall_forall in HEs; auto).
      rewrite !leb_grid by auto using isFinite_not_nan.
      split; apply Z.leb_le; auto.
    + rewrite Hb. apply brittle_formula; assumption.
  - intros Hf Hd Hleast. rewrite Hb.
    exact (brittle_least Es E HEs (finite_youngs_elem rows i r Hr Hf) Hd Hleast).
  - intros Hf Hd Hgreatest Hspan. rewrite Hb.
    exact (brittle_greatest Es E HEs (finite_youngs_elem rows i r Hr Hf) Hd Hgreatest Hspan).
  - intros Hemp. rewrite Hb, Hemp. unfold brittle_of.
    change (isFinite (E_min [])) with false. rewrite orb_true_r. reflexivity.
  - intros Hf. rewrite Hb. unfold brittle_of. rewrite Hf. reflexivity.
Qed.

Lemma brittleness_min_max_witness :
  ∃ r0 r1, computeParameters ex_samples = [r0; r1] ∧
    (brittleness_e r0 =? 0) = true ∧ brittleness_e r1 = 1.
Proof.
  destruct (computeParameters ex_samples) as [|r0 [|r1 [|]]] eqn:E;
    try (vm_compute in E; discriminate E).
  exists r0, r1. split; [reflexivity|].
  assert (E0 : computeParameters ex_samples !! 0%nat = Some r0) by (rewrite E; reflexivity).
  assert (E1 : computeParameters ex_samples !! 1%nat = Some r1) by (rewrite E; reflexivity).
  vm_compute in E. injection E as <- <-.
  split.
  - destruct (brittleness_min_max ex_samples 0 _ E0) as (_ & H & _).
    apply H; [reflexivity| |].
    + eexists. split; [apply list_elem_of_In; right; left; reflexivity|reflexivity].
    + intros x Hx. apply list_elem_of_In in Hx. vm_compute in Hx.
      destruct Hx as [<-|[<-|[]]]; reflexivity.
  - destruct (brittleness_min_max ex_samples 1 _ E1) as (_ & _ & H & _).
    apply H; [reflexivity| | |reflexivity].
    + eexists. split; [apply list_elem_of_In; left; reflexivity|reflexivity].
    + intros x Hx. apply list_elem_of_In in Hx. vm_compute in Hx.
      destruct Hx as [<-|[<-|[]]]; reflexivity.
Defined.

(** C7, as stated, fails: these two samples have distinct finite Young's
    moduli, but their span overflows to [Infinity], and the sample with the
    greater modulus gets [Infinity / Infinity = NaN], not 1. *)
Lemma brittleness_span_overflow :
  ∃ r0 r1, computeParameters [sample 0 5e307 2 1; sample 1 5e307 1.1 1] = [r0; r1] ∧
    isFinite (youngs_modulus_pa r0) = true ∧ isFinite (youngs_modulus_pa r1) = true ∧
    (youngs_modulus_pa r1 <? youngs_modulus_pa r0) = true ∧
    youngs_modulus_pa r0 - youngs_modulus_pa r1 = infinity ∧
    isNaN (brittleness_e r0) = true.
Proof. eexists _, _. split; [vm_compute; reflexivity|]. vm_compute. auto 6. Qed.

(** * Further properties of the Derivation Engine *)

Lemma out_inputs rows i r :
  computeParameters rows !! i = Some r → rows !! i = Some (inputs_of r).
Proof. intros H. out_row H rows i s Hs. destruct s; reflexivity. Qed.

Lemma own_columns_of rows i s r :
  rows !! i = Some s → computeParameters rows !! i = Some r → own_columns r = own_of s.
Proof.
  intros Hs Hr. unfold computeParameters in Hr. rewrite list_lookup_imap, Hs in Hr.
  cbn [fmap option_fmap option_map] in Hr. injection Hr as <-.
  unfold own_columns, own_of.
  cbn [shear_modulus_pa bulk_modulus_pa lame_lambda_pa youngs_modulus_pa poisson_ratio
       acoustic_impedance shear_impedance p_modulus_pa vp_vs_ratio lambda_over_mu
       poisson_from_moduli].
  unfold bulkModulus, lambda, vpVsRatio, lambdaOverMu, poisson_from_moduli_of,
    shearModulus, young, poisson, acousticZ, shearZ, pModulus, get.
  repeat (rewrite ?list_lookup_imap, ?lookup_map, ?Hs;
          cbn [fmap option_fmap option_map default from_option id]).
  reflexivity.
Qed.

(** X1. [computeParameters] hands the four input columns through unchanged:
    the derived rows are as many as the samples, in the same order, and row
    [i] carries the depth, density, vp and vs of sample [i]. *)
Theorem computeParameters_inputs rows : map inputs_of (computeParameters rows) = rows.
Proof.
  apply list_eq. intros i. rewrite lookup_map. unfold computeParameters.
  rewrite list_lookup_imap. destruct (rows !! i) as [[d rho p s]|]; reflexivity.
Qed.

(** X2. The moduli, the Poisson ratios, the impedances and the two ratios of
    a derived row depend on the sample of that row only: two rows, of any two
    inputs and at any two places, that carry the same sample agree in all
    these columns. *)
Theorem own_columns_local rows rows' i j r r' :
  computeParameters rows !! i = Some r → computeParameters rows' !! j = Some r' →
  inputs_of r = inputs_of r' → own_columns r = own_columns r'.
Proof.
  intros Hr Hr' E.
  rewrite (own_columns_of rows i _ r (out_inputs _ _ _ Hr) Hr).
  rewrite (own_columns_of rows' j _ r' (out_inputs _ _ _ Hr') Hr').
  rewrite E. reflexivity.
Qed.

Lemma own_columns_local_witness :
  ∃ r r', computeParameters ex_samples !! 1%nat = Some r ∧
          computeParameters [sample 10 2600 3200 1600] !! 0%nat = Some r' ∧
          own_columns r = own_columns r'.
Proof.
  destruct (computeParameters ex_samples !! 1%nat) as [r|] eqn:E;
    [|vm_compute in E; discriminate E].
  destruct (computeParameters [sample 10 2600 3200 1600] !! 0%nat) as [r'|] eqn:E';
    [|vm_compute in E'; discriminate E'].
  exists r, r'. split; [reflexivity|]. split; [reflexivity|].
  apply (own_columns_local ex_samples [sample 10 2600 3200 1600] 1 0 r r' E E').
  vm_compute in E, E'. injection E as <-. injection E' as <-. reflexivity.
Defined.

(** X3. Every row of the table is consistent in itself: the moduli, the
    impedances and the velocity ratio are the formulas of the four input
    columns of the same row, and Young's modulus, lambda over mu and the
    Poisson ratio from the moduli are the formulas of the shear modulus, the
    Poisson ratio, lambda and the bulk modulus printed in that row. *)
Theorem columns_consistent rows i r :
  computeParameters rows !! i = Some r →
  shear_modulus_pa r = r_density r * Math_pow2 (r_vs r) ∧
  bulk_modulus_pa r =
    r_density r * (Math_pow2 (r_vp r) - (4 / 3) * Math_pow2 (r_vs r)) ∧
  lame_lambda_pa r = r_density r * (Math_pow2 (r_vp r) - 2 * Math_pow2 (r_vs r)) ∧
  poisson_ratio r = poisson_of (r_vp r) (r_vs r) ∧
  youngs_modulus_pa r = young_of (shear_modulus_pa r) (poisson_ratio r) ∧
  acoustic_impedance r = r_density r * r_vp r ∧
  shear_impedance r = r_density r * r_vs r ∧
  p_modulus_pa r = r_density r * Math_pow2 (r_vp r) ∧
  vp_vs_ratio r = (if negb (r_vs r =? 0) then r_vp r / r_vs r else nan) ∧
  lambda_over_mu r =
    (if truthy (shear_modulus_pa r) then lame_lambda_pa r / shear_modulus_pa r else nan) ∧
  poisson_from_moduli r = poisson_moduli_of (bulk_modulus_pa r) (shear_modulus_pa r).
Proof.
  intros Hr. pose proof (own_columns_of rows i _ r (out_inputs _ _ _ Hr) Hr) as H.
  unfold own_columns, own_of in H. cbn [inputs_of depth density vp vs] in H.
  injection H as H1 H2 H3 H4 H5 H6 H7 H8 H9 H10 H11.
  rewrite <- H1, <- H2, <- H3, <- H5 in *. repeat split; assumption.
Qed.

Lemma columns_consistent_witness :
  ∃ r, computeParameters ex_samples !! 1%nat = Some r ∧
       youngs_modulus_pa r = young_of (shear_modulus_pa r) (poisson_ratio r) ∧
       shear_modulus_pa r = 6656000000.
Proof.
  destruct (computeParameters ex_samples !! 1%nat) as [r|] eqn:E;
    [|vm_compute in E; discriminate E].
  exists r. split; [reflexivity|].
  destruct (columns_consistent ex_samples 1 r E) as (H1 & _ & _ & _ & H5 & _).
  split; [exact H5|]. rewrite H1.
  vm_compute in E. injection E as <-. reflexivity.
Defined.

(** X4. The impedance difference is 0 in the first row and, in every later
    row, the acoustic impedance of the row minus that of the row before; in
    the last row the impedance gradient is this difference over the depth
    step to the row before, or the sentinel when that step is 0 or [NaN]. *)
Theorem delta_impedance_prev_rows rows :
  (∀ r, computeParameters rows !! 0%nat = Some r → delta_impedance_prev r = 0) ∧
  (∀ i p r,
     computeParameters rows !! i = Some p → computeParameters rows !! S i = Some r →
     delta_impedance_prev r = acoustic_impedance r - acoustic_impedance p ∧
     (length rows = S (S i) →
        impedance_gradient_per_m r =
          if truthy (r_depth r - r_depth p)
          then delta_impedance_prev r / (r_depth r - r_depth p) else nan)).
Proof.
  split.
  - intros r Hr. out_row Hr rows 0%nat s Hs. cbn [delta_impedance_prev].
    apply (deltaZPrev_get _ _ 0). apply lookup_lt_is_Some. eauto.
  - intros i p r Hp Hr.
    destruct (out_depth_impedance rows i p Hp) as (Hi & Hdp & HZp & _).
    destruct (out_depth_impedance rows (S i) r Hr) as (HSi & Hdr & HZr & Hg).
    assert (Hd : delta_impedance_prev r = acoustic_impedance r - acoustic_impedance p).
    { rewrite HZp, HZr. clear -Hr HSi. out_row Hr rows (S i) s Hs.
      cbn [delta_impedance_prev]. apply (deltaZPrev_get _ _ (S i)). exact HSi. }
    split; [exact Hd|]. intros Hn.
    rewrite Hg, Hn, gradient_at_last. unfold finite_difference.
    rewrite Hd, HZr, HZp, Hdr, Hdp. reflexivity.
Qed.

(** * Quotients *)

Module SFQuotient.
Import SF.

(** The sign of a rounded number is the sign it was given, whatever the
    mantissa rounds to. *)
Lemma binary_round_aux_sign s m e l :
  (0 <= m)%Z →
  match binary_round_aux prec emax s m e l with
  | S754_zero s' | S754_infinity s' | S754_finite s' _ _ => s' = s
  | S754_nan => False
  end.
Proof.
  intros Hm. unfold binary_round_aux.
  pose proof (SFFacts.shr_fexp_nonneg m e l Hm) as H1.
  destruct (shr_fexp prec emax m e l) as [mrs' e']. cbn [fst] in H1.
  pose proof (SFFacts.round_nearest_even_nonneg _ (loc_of_shr_record mrs') H1) as H2.
  pose proof (SFFacts.shr_fexp_nonneg _ e' loc_Exact H2) as H3.
  destruct (shr_fexp prec emax _ e' loc_Exact) as [mrs'' e'']. cbn [fst] in H3.
  destruct (shr_m mrs'') as [|q|q]; try lia; [reflexivity|].
  destruct (e'' <=? emax - prec)%Z; reflexivity.
Qed.

Lemma SFdiv_core_nonneg m1 e1 m2 e2 :
  (0 <= (SFdiv_core_binary prec emax (Z.pos m1) e1 (Z.pos m2) e2).1.1)%Z.
Proof.
  unfold SFdiv_core_binary.
  set (s := (e1 - e2 - Z.min _ _)%Z).
  set (m' := match s with Z.pos _ => Z.shiftl (Z.pos m1) s | 0%Z => Z.pos m1 | _ => 0%Z end).
  assert (Hm' : (0 <= m')%Z).
  { unfold m'. destruct s; try lia. apply Z.shiftl_nonneg. lia. }
  pose proof (Z.div_pos m' (Z.pos m2) Hm' ltac:(lia)) as Hq. unfold Z.div in Hq.
  destruct (Z.div_eucl m' (Z.pos m2)) as [q r]. exact Hq.
Qed.

(** A finite number over a finite number other than zero is a number. *)
Lemma SFdiv_finite_not_nan x y :
  finite x = true → finite y = true → is_zero y = false →
  is_nan (SFdiv prec emax x y) = false.
Proof.
  destruct x as [?|sx'| |sx' mx ex], y as [?|sy'| |sy' my ey]; cbn [finite is_zero SFdiv];
    try discriminate; intros _ _ _; try reflexivity.
  pose proof (SFdiv_core_nonneg mx ex my ey) as Hq.
  destruct (SFdiv_core_binary prec emax (Z.pos mx) ex (Z.pos my) ey) as [[mz ez] lz].
  cbn [fst] in Hq. apply SFFacts.binary_round_aux_not_nan. exact Hq.
Qed.

End SFQuotient.

Lemma eqb_zero_spec x : (x =? 0) = SF.is_zero (Prim2SF x).
Proof.
  rewrite FloatAxioms.eqb_spec, Prim2SF_zero.
  destruct (Prim2SF x) as [[]|[]| |[] m e]; reflexivity.
Qed.

Lemma div_finite_not_nan a b :
  isFinite a = true → isFinite b = true → (b =? 0) = false → isNaN (a / b) = false.
Proof.
  rewrite !isFinite_spec, eqb_zero_spec, isNaN_spec, FloatAxioms.div_spec.
  apply SFQuotient.SFdiv_finite_not_nan.
Qed.

(** A product with the square of a zero is a zero or [NaN]. *)
Lemma mul_square_zero a b : (b =? 0) = true → truthy (a * (b * b)) = false.
Proof.
  rewrite eqb_zero_spec. intros Hb. apply null_falsy.
  rewrite !FloatAxioms.mul_spec.
  destruct (Prim2SF b) as [sb| | |]; try discriminate.
  destruct (Prim2SF a) as [sa|sa| |sa ma ea]; exact I.
Qed.

(** X5. How the sentinel spreads in a row.  A Poisson ratio that is not
    finite makes Young's modulus the sentinel, and a Young's modulus that is
    not finite makes the brittleness the sentinel.  A zero shear velocity
    (a fluid) gives the sentinel for the velocity ratio and for lambda over
    mu; and for finite velocities the velocity ratio is the sentinel in that
    case only. *)
Theorem sentinel_propagation rows i r :
  computeParameters rows !! i = Some r →
  (isFinite (poisson_ratio r) = false → youngs_modulus_pa r = nan) ∧
  (isFinite (youngs_modulus_pa r) = false → brittleness_e r = nan) ∧
  ((r_vs r =? 0) = true → vp_vs_ratio r = nan ∧ lambda_over_mu r = nan) ∧
  (isFinite (r_vp r) = true → isFinite (r_vs r) = true →
     isNaN (vp_vs_ratio r) = (r_vs r =? 0)).
Proof.
  intros Hr.
  pose proof (own_columns_of rows i _ r (out_inputs _ _ _ Hr) Hr) as H.
  unfold own_columns, own_of in H. cbn [inputs_of depth density vp vs] in H.
  injection H as HG _ Hlam HE Hpo _ _ _ Hratio Hlm _.
  rewrite <- HG, <- Hpo in HE. rewrite <- HG, <- Hlam in Hlm.
  split; [|split; [|split]].
  - intros Hnu. rewrite HE. unfold young_of. rewrite Hnu. reflexivity.
  - intros Hf. rewrite (out_brittleness rows i r Hr). unfold brittle_of.
    rewrite Hf. reflexivity.
  - intros Hz. rewrite Hratio, Hlm, Hz, HG, (mul_square_zero _ _ Hz). auto.
  - intros Hp Hs. rewrite Hratio. destruct (r_vs r =? 0) eqn:Hz; [reflexivity|].
    apply div_finite_not_nan; assumption.
Qed.

Lemma sentinel_propagation_witness :
  ∃ r, computeParameters ex_fluid !! 0%nat = Some r ∧
       vp_vs_ratio r = nan ∧ lambda_over_mu r = nan ∧ isNaN (vp_vs_ratio r) = true.
Proof.
  destruct (computeParameters ex_fluid !! 0%nat) as [r|] eqn:E;
    [|vm_compute in E; discriminate E].
  exists r. split; [reflexivity|].
  destruct (sentinel_propagation ex_fluid 0 r E) as (_ & _ & H3 & H4).
  vm_compute in E. injection E as <-.
  destruct H3 as [H3 H3']; [reflexivity|].
  split; [exact H3|]. split; [exact H3'|].
  rewrite H4; reflexivity.
Defined.

(** * Min-max normalisation: range *)

Lemma brittle_of_not_finite E mn mx : isFinite E = false → brittle_of E mn mx = nan.
Proof. intros H. unfold brittle_of. rewrite H. reflexivity. Qed.

(** The normalisation of a series is the brittleness formula with the least
    and greatest finite value of the series. *)
Lemma normalize_brittle arr :
  normalize arr =
    map (λ v, brittle_of v (E_min (List.filter isFinite arr))
                           (E_max (List.filter isFinite arr))) arr.
Proof.
  unfold normalize. fold (E_min (List.filter isFinite arr)).
  fold (E_max (List.filter isFinite arr)).
  set (vals := List.filter isFinite arr).
  destruct (isFinite (E_min vals)) eqn:Hm; cbn [andb].
  - assert (HM : isFinite (E_max vals) = true).
    { pose proof (finite_youngs_all_finite arr) as HF. fold vals in HF.
      unfold E_min in Hm. unfold E_max. destruct vals as [|x l] eqn:Ev; [discriminate Hm|].
      cbn [length Nat.eqb negb].
      destruct (Math_max_spec (x :: l) HF ltac:(discriminate)) as [Hin _].
      unfold all_finite in HF. rewrite Forall_forall in HF. auto. }
    rewrite HM. cbn [andb].
    destruct (E_max vals =? E_min vals) eqn:Heq; cbn [negb].
    + apply map_ext. intros v. unfold brittle_of. rewrite Hm, Heq.
      destruct (isFinite v); reflexivity.
    + apply map_ext. intros v. unfold brittle_of. rewrite Hm, Heq.
      destruct (isFinite v); reflexivity.
  - apply map_ext. intros v. unfold brittle_of. rewrite Hm.
    destruct (isFinite v); reflexivity.
Qed.

Lemma out_brittleness_column rows :
  map brittleness_e (computeParameters rows) =
  normalize (map youngs_modulus_pa (computeParameters rows)).
Proof.
  rewrite normalize_brittle, map_map. apply list_eq. intros i. rewrite !lookup_map.
  destruct (computeParameters rows !! i) as [r|] eqn:Hr; [|reflexivity].
  cbn [fmap option_fmap option_map]. rewrite (out_brittleness rows i r Hr). reflexivity.
Qed.

(** X6. Normalising the Young's modulus track of the well-log plot gives the
    brittleness column: [plotWellLogs] with the normalise option and
    [computeParameters] apply the same min-max normalisation, cell by cell. *)
Theorem normalized_youngs_is_brittleness rows :
  seriesList (computeParameters rows) ["youngs_modulus_pa"] 0 true =
  Some [series (computeParameters rows) "brittleness_e"].
Proof.
  unfold seriesList. change (truthy 0) with false. cbn [andb map].
  change (series (computeParameters rows) "youngs_modulus_pa")
    with (map youngs_modulus_pa (computeParameters rows)).
  change (series (computeParameters rows) "brittleness_e")
    with (map brittleness_e (computeParameters rows)).
  rewrite out_brittleness_column. reflexivity.
Qed.

(** * The moving average *)

Lemma above_one window :
  (1 <? window) = true → truthy window = true ∧ (window <=? 1) = false.
Proof.
  intros H. assert (Hn : isNaN window = false).
  { destruct (isNaN window) eqn:E; [|reflexivity].
    apply isNaN_nan in E. subst window. discriminate H. }
  rewrite (ltb_grid 1 window eq_refl Hn) in H. apply Z.ltb_lt in H.
  unfold truthy. rewrite Hn, (eqb_grid window 0 Hn eq_refl), (leb_grid window 1 Hn eq_refl).
  change (fgrid 0) with 0%Z. 
  assert (0 < fgrid 1)%Z by (vm_compute; reflexivity).
  rewrite (proj2 (Z.eqb_neq _ _)), (proj2 (Z.leb_gt _ _)) by lia. auto.
Qed.

Lemma not_above_one window :
  (1 <? window) = false → negb (truthy window) || (window <=? 1) = true.
Proof.
  intros H. destruct (isNaN window) eqn:Hn.
  - unfold truthy. rewrite Hn, andb_false_r. reflexivity.
  - rewrite (ltb_grid 1 window eq_refl Hn) in H. apply Z.ltb_ge in H.
    rewrite (leb_grid window 1 Hn eq_refl), (proj2 (Z.leb_le _ _)) by exact H.
    apply orb_true_r.
Qed.

Lemma smoothArray_cells arr window out :
  smoothArray arr window = Some out → (1 <? window) = true →
  length out = length arr ∧
  ∀ i, i < length arr → get out i = smooth_at arr (Math_floor window / 2) i.
Proof.
  intros H Hw. unfold smoothArray in H.
  destruct (above_one window Hw) as [E1 E2]. rewrite E1, E2 in H. cbn [negb orb] in H.
  destruct (9007199254740992 <=? window); [discriminate H|]. injection H as <-.
  split.
  - rewrite set_loop_length by (rewrite length_replicate; lia). apply length_replicate.
  - intros i Hi. rewrite set_loop_get by (rewrite length_replicate; lia).
    rewrite decide_True by lia. reflexivity.
Qed.



(** * Further properties of the Header Mapper *)

Lemma detectColumns_field headers k :
  k ∈ keys → detectColumns headers !! k = last_match (field_matches k) headers.
Proof.
  intros Hk. induction headers as [|h hs IH] using rev_ind; [reflexivity|].
  rewrite detectColumns_snoc, detect_step_field, last_match_snoc, IH by exact Hk.
  reflexivity.
Qed.

Lemma detectColumns_other headers k : k ∉ keys → detectColumns headers !! k = None.
Proof.
  intros Hk. induction headers as [|h hs IH] using rev_ind; [reflexivity|].
  rewrite detectColumns_snoc, detect_step_other by exact Hk. exact IH.
Qed.

Lemma last_match_Some p hs h : last_match p hs = Some h → h ∈ hs ∧ p h = true.
Proof.
  induction hs as [|h' hs IH]; cbn; [discriminate|].
  destruct (last_match p hs) as [h''|].
  - intros [= <-]. destruct (IH eq_refl) as [H1 H2]. split; [right; exact H1|exact H2].
  - destruct (p h') eqn:E; [|discriminate]. intros [= <-]. split; [left|exact E].
Qed.

Lemma last_match_None p hs : last_match p hs = None ↔ existsb p hs = false.
Proof.
  induction hs as [|h' hs IH]; cbn; [tauto|].
  destruct (last_match p hs) as [h''|].
  - split; [discriminate|]. intros H. apply orb_false_elim in H as [_ H].
    apply IH in H. discriminate H.
  - destruct (p h'); cbn [orb]; [split; discriminate|]. tauto.
Qed.

Lemma empty_header_unmatched k : field_matches k "" = false.
Proof.
  unfold field_matches.
  destruct (String.eqb k "depth"); [vm_compute; reflexivity|].
  destruct (String.eqb k "density"); [vm_compute; reflexivity|].
  destruct (String.eqb k "vp"); vm_compute; reflexivity.
Qed.

Lemma detected_header headers k h :
  k ∈ keys → detectColumns headers !! k = Some h →
  h ∈ headers ∧ field_matches k h = true.
Proof.
  intros Hk H. rewrite (detectColumns_field headers k Hk) in H.
  apply last_match_Some in H. exact H.
Qed.

Lemma matched_not_empty k h : field_matches k h = true → present (Some h) = true.
Proof.
  intros Hm. cbn [present]. destruct (String.eqb_spec h ""); [|reflexivity].
  subst h. rewrite empty_header_unmatched in Hm. discriminate Hm.
Qed.

(** X8. Whatever [detectColumns] puts in the mapping is one of the headers
    it was given: under a canonical field, a header of the input that is not
    empty and matches the patterns of that field.  So a detected field always
    passes the column check of [validateAndPrepare]. *)
Theorem detectColumns_values headers k h :
  detectColumns headers !! k = Some h →
  k ∈ keys ∧ h ∈ headers ∧ field_matches k h = true ∧
  present (detectColumns headers !! k) = true.
Proof.
  intros H. destruct (decide (k ∈ keys)) as [Hk|Hk].
  - destruct (detected_header headers k h Hk H) as [Hin Hm]. rewrite H.
    repeat split; try assumption. apply (matched_not_empty k h Hm).
  - rewrite (detectColumns_other headers k Hk) in H. discriminate H.
Qed.

Lemma detectColumns_values_witness :
  "vp" ∈ keys ∧ "Vp_Km/s" ∈ ["Vp"; "Depth_m"; "Vp_Km/s"; "Rho"] ∧
  field_matches "vp" "Vp_Km/s" = true ∧
  present (detectColumns ["Vp"; "Depth_m"; "Vp_Km/s"; "Rho"] !! "vp") = true.
Proof.
  apply (detectColumns_values ["Vp"; "Depth_m"; "Vp_Km/s"; "Rho"] "vp" "Vp_Km/s").
  vm_compute. reflexivity.
Defined.

Lemma detectColumns_present headers k :
  k ∈ keys →
  present (detectColumns headers !! k) = existsb (field_matches k) headers.
Proof.
  intros Hk. destruct (detectColumns headers !! k) as [h|] eqn:E.
  - destruct (detected_header headers k h Hk E) as [Hin Hm].
    rewrite (matched_not_empty k h Hm).
    symmetry. apply existsb_exists. exists h. split; [apply list_elem_of_In; exact Hin|exact Hm].
  - rewrite (detectColumns_field headers k Hk) in E. apply last_match_None in E.
    rewrite E. reflexivity.
Qed.

Section DetectedColumns.
Variable StringToNumber : string → float.
Local Abbreviation validateAndPrepare := (validateAndPrepare StringToNumber).
Local Abbreviation prepare := (prepare StringToNumber).

(** X9. Auto-detection followed by validation: the fields reported by the
    missing-columns error are exactly the canonical fields that no header
    matches, in the order depth, density, vp, vs; when every field is matched
    by some header the call can only fail for want of a numeric row. *)
Theorem undetected_fields_are_missing headers data :
  missing_columns (detectColumns headers) = undetected headers ∧
  (undetected headers ≠ [] →
     validateAndPrepare data (detectColumns headers) =
       Throw ("Missing columns: " ++ join ", " (undetected headers))%string) ∧
  (undetected headers = [] →
     validateAndPrepare data (detectColumns headers) =
       match omap (prepare (detectColumns headers)) data with
       | [] => Throw "No valid numeric rows found."
       | _ :: _ => Return (Array_sort by_depth (omap (prepare (detectColumns headers)) data))
       end).
Proof.
  assert (E : missing_columns (detectColumns headers) = undetected headers).
  { unfold missing_columns, undetected. apply filter_ext_in. intros k Hk.
    rewrite detectColumns_present by (apply list_elem_of_In; exact Hk). reflexivity. }
  split; [exact E|]. rewrite validateAndPrepare_cases, E.
  split; intros H; destruct (undetected headers); congruence.
Qed.

End DetectedColumns.

(** * Input that is sorted already *)

Section SortedInput.
Context {A : Type} (key : A → float).
Local Abbreviation by_key := (by_key key).
Local Abbreviation key_ok := (key_ok key).
Local Abbreviation key_le := (key_le key).

Lemma sort_insert_least x l :
  key_ok x → Forall key_ok l → Forall (key_le x) l → sort_insert by_key x l = x :: l.
Proof.
  intros Hx Hl Hle. destruct l as [|y l]; [reflexivity|]. cbn [sort_insert].
  apply Forall_cons in Hl as [Hy _]. apply Forall_cons in Hle as [Hxy _].
  rewrite (SortCompare_pos key x y Hx Hy).
  unfold key_le in Hxy.
  rewrite (proj2 (Z.ltb_ge _ _)) by exact Hxy. reflexivity.
Qed.

Lemma Array_sort_id l :
  Forall key_ok l → StronglySorted key_le l → Array_sort by_key l = l.
Proof.
  intros Hl Hs. induction Hs as [|x l Hs IH Hx]; [reflexivity|].
  apply Forall_cons in Hl as [Hox Hl].
  cbn [Array_sort foldr]. fold (Array_sort by_key l). rewrite (IH Hl).
  apply sort_insert_least; assumption.
Qed.

End SortedInput.

Lemma mul_finite_finite a b :
  isFinite a = true → isFinite b = true → isNaN (a * b) = false.
Proof.
  rewrite !isFinite_spec, isNaN_spec, FloatAxioms.mul_spec.
  destruct (Prim2SF a) as [sa|sa| |sa ma ea], (Prim2SF b) as [sb|sb| |sb mb eb];
    try discriminate; intros _ _; cbn [SFmul]; try reflexivity.
  apply SFFacts.binary_round_aux_not_nan. lia.
Qed.

(** Scaling by a unit multiplier neither makes nor removes a [NaN]. *)
Lemma scaled_nan raw header hint :
  isNaN (scaled raw (detectUnitMultiplier header hint)) = isNaN raw.
Proof.
  unfold scaled. destruct (isFinite raw) eqn:Hf; [|reflexivity].
  rewrite (isFinite_not_nan raw Hf). apply mul_finite_finite; [exact Hf|].
  destruct (detectUnitMultiplier_values header hint) as [-> | ->]; reflexivity.
Qed.

Section PreparedRows.
Variable StringToNumber : string → float.
Local Abbreviation Number := (Number StringToNumber).
Local Abbreviation validateAndPrepare := (validateAndPrepare StringToNumber).
Local Abbreviation prepare := (prepare StringToNumber).

(** X10. When the rows that survive are in ascending order of depth
    already, [validateAndPrepare] returns them as they are, in input order:
    sorting moves nothing. *)
Theorem sorted_rows_keep_order data cols arr :
  validateAndPrepare data cols = Return arr →
  ascending (omap (prepare cols) data) →
  arr = omap (prepare cols) data.
Proof.
  intros H Hasc. apply validateAndPrepare_Return in H as (_ & _ & ->).
  pose proof (survivors_not_nan StringToNumber cols data) as Hnn.
  assert (Hok : Forall (key_ok depth) (omap (prepare cols) data)).
  { eapply Forall_impl; [exact Hnn|]. intros s Hs. apply Hs. }
  apply (Array_sort_id depth); [exact Hok|].
  apply (StronglySorted_on (key_ok depth) (λ a b, (depth a <=? depth b) = true));
    [|exact Hok|exact Hasc].
  intros a b Ha Hb Hab. unfold key_le. rewrite (leb_grid _ _ Ha Hb) in Hab.
  apply Z.leb_le. exact Hab.
Qed.

(** X11. A row is skipped exactly when one of its four cells, read under
    the mapped header and converted by [Number], is [NaN]; the unit
    multiplier plays no part in it.  So a row that lacks a mapped column is
    skipped, and an infinite cell does not make a row skipped. *)
Theorem skipped_rows cols row :
  (prepare cols row = None ↔
   ∃ k, k ∈ keys ∧ isNaN (Number (property row (cols !! k))) = true) ∧
  (∀ k, k ∈ keys → property row (cols !! k) = JUndefined → prepare cols row = None).
Proof.
  assert (E : prepare cols row = None ↔
              ∃ k, k ∈ keys ∧ isNaN (Number (property row (cols !! k))) = true).
  { rewrite prepare_None. split; intros (k & Hk & Hn); exists k; split; try exact Hk.
    - unfold coerced in Hn. rewrite scaled_nan in Hn. exact Hn.
    - unfold coerced. rewrite scaled_nan. exact Hn. }
  split; [exact E|]. intros k Hk Hu. apply E. exists k. split; [exact Hk|].
  rewrite Hu. reflexivity.
Qed.

End PreparedRows.

Lemma sorted_rows_keep_order_witness :
  validateAndPrepare no_strings
    [ex_row (JNum 0) (JNum 2500) (JNum 3) (JNum 1500);
     ex_row (JNum 5) JUndefined (JNum 3) (JNum 1500);
     ex_row (JNum 10) (JNum 2600) (JNum 3.2) (JNum 1600)] ex_cols =
  Return [sample 0 2500 3000 1500; sample 10 2600 3200 1600].
Proof.
  destruct (validateAndPrepare no_strings
    [ex_row (JNum 0) (JNum 2500) (JNum 3) (JNum 1500);
     ex_row (JNum 5) JUndefined (JNum 3) (JNum 1500);
     ex_row (JNum 10) (JNum 2600) (JNum 3.2) (JNum 1600)] ex_cols) as [arr|m] eqn:E;
    [|vm_compute in E; discriminate E].
  f_equal. rewrite (sorted_rows_keep_order no_strings _ _ arr E).
  - vm_compute. reflexivity.
  - vm_compute. repeat constructor.
Defined.

(** * Letter case and outer white space *)

Lemma lower_char_space c : is_space (lower_char c) = is_space c.
Proof. destruct c as [[] [] [] [] [] [] [] []]; reflexivity. Qed.

Lemma lower_char_idem c : lower_char (lower_char c) = lower_char c.
Proof. destruct c as [[] [] [] [] [] [] [] []]; reflexivity. Qed.

Lemma toLowerCase_idem s : toLowerCase (toLowerCase s) = toLowerCase s.
Proof. induction s as [|c s IH]; cbn; [reflexivity|]. rewrite lower_char_idem, IH. reflexivity. Qed.

Lemma trim_start_lower s : trim_start (toLowerCase s) = toLowerCase (trim_start s).
Proof.
  induction s as [|c s IH]; cbn; [reflexivity|]. rewrite lower_char_space.
  destruct (is_space c); [exact IH|reflexivity].
Qed.

Lemma trim_end_lower s : trim_end (toLowerCase s) = toLowerCase (trim_end s).
Proof.
  induction s as [|c s IH]; cbn; [reflexivity|]. rewrite IH, lower_char_space.
  destruct (trim_end s); cbn; [|reflexivity]. destruct (is_space c); reflexivity.
Qed.

Lemma trim_end_idem s : trim_end (trim_end s) = trim_end s.
Proof.
  induction s as [|c s IH]; cbn; [reflexivity|].
  destruct (trim_end s) as [|c' t] eqn:E.
  - destruct (is_space c) eqn:Hc; cbn; [reflexivity|]. rewrite Hc. reflexivity.
  - cbn [trim_end]. cbn [trim_end] in IH. rewrite IH. reflexivity.
Qed.

(** Trimming the end keeps a first character that is not white space. *)
Lemma trim_end_head c s :
  is_space c = false → ∃ t, trim_end (String c s) = String c t.
Proof.
  intros Hc. cbn. destruct (trim_end s); [rewrite Hc|]; eauto.
Qed.

Lemma trim_start_head s :
  trim_start s = EmptyString ∨ ∃ c t, trim_start s = String c t ∧ is_space c = false.
Proof.
  induction s as [|c s IH]; cbn; [auto|].
  destruct (is_space c) eqn:Hc; [exact IH|]. right. eauto.
Qed.

Lemma trim_idem s : trim (trim s) = trim s.
Proof.
  unfold trim. destruct (trim_start_head s) as [->|(c & t & -> & Hc)]; [reflexivity|].
  destruct (trim_end_head c t Hc) as [u Hu]. rewrite Hu at 1.
  cbn [trim_start]. rewrite Hc, <- Hu. apply trim_end_idem.
Qed.

Lemma normalizeHeader_idem h : normalizeHeader (normalizeHeader h) = normalizeHeader h.
Proof.
  unfold normalizeHeader, trim.
  rewrite trim_start_lower, trim_end_lower, toLowerCase_idem.
  fold (trim h). fold (trim (trim h)). rewrite trim_idem. reflexivity.
Qed.

Lemma cleaned_normalized h : cleaned (normalizeHeader h) = cleaned h.
Proof. unfold cleaned. rewrite normalizeHeader_idem. reflexivity. Qed.

Lemma blank_multiplier h hint :
  normalizeHeader h = EmptyString → detectUnitMultiplier (Some h) hint = 1.
Proof.
  intros H. unfold detectUnitMultiplier. destruct (present (Some h)); [|reflexivity].
  cbn [negb default from_option id]. rewrite H.
  change (replace_runs false "") with EmptyString.
  change (test re_km_per_s "") with false. change (test re_m_per_s "") with false.
  change (test re_km "") with false. change (test re_g_per_cc "") with false.
  cbv iota. destruct (String.eqb hint "depth"); [reflexivity|].
  destruct (String.eqb hint "density"); reflexivity.
Qed.

(** X12. Detection does not depend on letter case or on white space around
    a header: a header and its normalised form (trimmed, lower case) match
    the same canonical fields and get the same unit multiplier, and
    normalising twice is normalising once. *)
Theorem detection_ignores_case_and_padding h k hint :
  normalizeHeader (normalizeHeader h) = normalizeHeader h ∧
  field_matches k (normalizeHeader h) = field_matches k h ∧
  detectUnitMultiplier (Some (normalizeHeader h)) hint = detectUnitMultiplier (Some h) hint.
Proof.
  split; [apply normalizeHeader_idem|]. split.
  - unfold field_matches.
    destruct (String.eqb k "depth"); [|destruct (String.eqb k "density");
      [|destruct (String.eqb k "vp")]];
      unfold matches_depth, matches_density, matches_vp, matches_vs;
      rewrite cleaned_normalized; reflexivity.
  - destruct (String.eqb_spec (normalizeHeader h) "") as [E|E].
    + rewrite (blank_multiplier h hint E).
      apply blank_multiplier. rewrite normalizeHeader_idem. exact E.
    + assert (Hh : h ≠ EmptyString) by (intros ->; apply E; reflexivity).
      unfold detectUnitMultiplier. cbn [present default from_option id].
      rewrite (proj2 (String.eqb_neq _ _) E), (proj2 (String.eqb_neq _ _) Hh).
      cbn [negb]. rewrite normalizeHeader_idem. reflexivity.
Qed.

(** * Rounding to nearest *)

Module Rounding.
Import SF Nearest.
#[local] Open Scope Z_scope.

Lemma pow2_pos k : 0 <= k → 0 < 2 ^ k.
Proof. intros. apply Z.pow_pos_nonneg; lia. Qed.

Lemma ulps_add' e : -1074 <= e → ulps (e + 1) = 2 * ulps e.
Proof. intros. rewrite SFFacts.ulps_add by lia. change (2 ^ 1) with 2. ring. Qed.

Lemma pow2_succ k : 0 <= k → 2 ^ (k + 1) = 2 * 2 ^ k.
Proof. intros. rewrite Z.pow_add_r by lia. change (2 ^ 1) with 2. ring. Qed.

Lemma shifted_start M : 0 <= M → shifted M 0 (Build_shr_record M false false).
Proof.
  intros HM. unfold shifted. cbn [shr_m shr_r shr_s]. change (2 ^ 0) with 1.
  rewrite Z.div_1_r, Z.mod_1_r. repeat split.
Qed.

Lemma shr_1_bits mrs :
  0 <= shr_m mrs →
  shr_m (shr_1 mrs) = shr_m mrs / 2 ∧
  shr_r (shr_1 mrs) = Z.odd (shr_m mrs) ∧
  shr_s (shr_1 mrs) = shr_r mrs || shr_s mrs.
Proof.
  intros Hm. split; [apply SFFacts.shr_1_m; exact Hm|].
  destruct mrs as [m r t]; cbn [shr_m shr_r shr_s] in *.
  destruct m as [|[p|p|]|p]; cbn [shr_1 shr_r shr_s]; try lia; auto.
Qed.

Lemma shifted_step M k mrs :
  0 <= M → 0 <= k → shifted M k mrs → shifted M (k + 1) (shr_1 mrs).
Proof.
  intros HM Hk (Hm & Hr & Hs).
  pose proof (pow2_pos k Hk) as HP.
  pose proof (Z.div_pos M (2 ^ k) HM HP) as HQ.
  destruct (shr_1_bits mrs ltac:(lia)) as (Hm' & Hr' & Hs').
  unfold shifted. rewrite pow2_succ by exact Hk.
  pose proof (Z.mod_pos_bound M (2 ^ k) HP) as HR.
  assert (Hmod : M mod (2 * 2 ^ k) = M mod 2 ^ k + 2 ^ k * ((M / 2 ^ k) mod 2)).
  { rewrite (Z.mul_comm 2). apply Z.rem_mul_r; lia. }
  pose proof (Z.mod_pos_bound (M / 2 ^ k) 2 ltac:(lia)) as Hb.
  set (P := 2 ^ k) in *. set (R := M mod P) in *. set (Q := M / P) in *.
  set (b := Q mod 2) in *.
  rewrite Hm', Hr', Hs', Hm, Hr, Hs, Hmod.
  split; [|split].
  - rewrite (Z.mul_comm 2 P). apply Z.div_div; lia.
  - rewrite Zodd_mod. fold b.
    destruct (Z.eqb_spec b 1) as [E|E]; symmetry;
      [apply Z.leb_le|apply Z.leb_gt]; nia.
  - assert (E : (2 * (R + P * b)) mod (2 * P) = 2 * R).
    { replace (2 * (R + P * b)) with (2 * R + b * (2 * P)) by ring.
      rewrite Z.mod_add by lia. apply Z.mod_small. lia. }
    rewrite E.
    destruct (Z.leb_spec P (2 * R)) as [H1|H1]; cbn [orb].
    + symmetry. apply negb_true_iff, Z.eqb_neq. lia.
    + rewrite (Z.mod_small (2 * R) P) by lia. 
      destruct (Z.eqb_spec (2 * R) 0), (Z.eqb_spec (2 * R) 0); reflexivity || lia.
Qed.

Lemma shifted_iter M p : ∀ k mrs,
  0 <= M → 0 <= k → shifted M k mrs →
  shifted M (k + Z.pos p) (SpecFloat.iter_pos shr_1 p mrs).
Proof.
  induction p as [p IH|p IH|]; intros k mrs HM Hk H; cbn [SpecFloat.iter_pos].
  - replace (k + Z.pos p~1) with (k + 1 + Z.pos p + Z.pos p) by lia.
    apply IH; [lia|lia|]. apply IH; [lia|lia|]. apply shifted_step; assumption.
  - replace (k + Z.pos p~0) with (k + Z.pos p + Z.pos p) by lia.
    apply IH; [lia|lia|]. apply IH; assumption.
  - apply shifted_step; assumption.
Qed.

(** The register read as a location, then rounded, is the nearest integer. *)
Lemma shifted_round M k mrs :
  0 <= M → 0 <= k → shifted M k mrs →
  round_nearest_even (shr_m mrs) (loc_of_shr_record mrs) = to_nearest M k.
Proof.
  intros HM Hk (Hm & Hr & Hs). unfold to_nearest.
  pose proof (pow2_pos k Hk) as HP.
  pose proof (Z.mod_pos_bound M (2 ^ k) HP) as HR.
  destruct mrs as [m r s]; cbn [shr_m shr_r shr_s] in *. subst m.
  set (P := 2 ^ k) in *. set (R := M mod P) in *.
  destruct (Z.leb_spec P (2 * R)) as [H1|H1]; subst r.
  - rewrite (proj2 (Z.ltb_ge _ _)) by lia.
    assert (E : (2 * R) mod P = 2 * R - P).
    { symmetry. apply Z.mod_unique with (q := 1); lia. }
    rewrite E in Hs.
    destruct (Z.eqb_spec (2 * R - P) 0) as [E0|E0]; subst s; cbn [negb loc_of_shr_record
      round_nearest_even].
    + rewrite (proj2 (Z.ltb_ge _ _)) by lia. reflexivity.
    + rewrite (proj2 (Z.ltb_lt _ _)) by lia. reflexivity.
  - rewrite (proj2 (Z.ltb_lt _ _)) by lia. destruct s; reflexivity.
Qed.

Lemma fexp_eq x : fexp prec emax x = Z.max (x - 53) (-1074).
Proof. reflexivity. Qed.

Lemma Zdigits2_bounds m :
  0 < m → 2 ^ (Zdigits2 m - 1) <= m < 2 ^ Zdigits2 m ∧ 0 < Zdigits2 m.
Proof.
  destruct m as [|p|p]; try lia. intros _. cbn [Zdigits2].
  split; [apply SFFacts.digits2_bounds|lia].
Qed.

(** The first shift of [binary_round_aux] on an exact mantissa. *)
Lemma shr_fexp_exact m e :
  0 < m → e <= fexp prec emax (Zdigits2 m + e) →
  snd (shr_fexp prec emax m e loc_Exact) = fexp prec emax (Zdigits2 m + e) ∧
  shifted m (fexp prec emax (Zdigits2 m + e) - e) (fst (shr_fexp prec emax m e loc_Exact)).
Proof.
  intros Hm He. unfold shr_fexp, shr.
  set (t := fexp prec emax (Zdigits2 m + e)) in *.
  destruct (t - e) as [|p|p] eqn:E; try lia; cbn [fst snd shr_record_of_loc].
  - split; [lia|]. apply shifted_start. lia.
  - split; [lia|]. change (Z.pos p) with (0 + Z.pos p).
    apply shifted_iter; try lia. apply shifted_start; lia.
Qed.

Lemma to_nearest_bounds M k : M / 2 ^ k <= to_nearest M k <= M / 2 ^ k + 1.
Proof.
  unfold to_nearest.
  destruct (2 * (M mod 2 ^ k) <? 2 ^ k); [lia|].
  destruct (2 ^ k <? 2 * (M mod 2 ^ k)); [lia|].
  destruct (Z.even (M / 2 ^ k)); lia.
Qed.

(** The rounded mantissa has at most 53 bits, or is [2^53]; above the
    subnormal range it has at least 53 bits. *)
Lemma nearest_mantissa m e :
  0 < m → e <= fexp prec emax (Zdigits2 m + e) →
  0 <= to_nearest m (fexp prec emax (Zdigits2 m + e) - e) <= 2 ^ 53 ∧
  (-1074 < fexp prec emax (Zdigits2 m + e) →
   2 ^ 52 <= to_nearest m (fexp prec emax (Zdigits2 m + e) - e)).
Proof.
  intros Hm He. rewrite fexp_eq in *.
  destruct (Zdigits2_bounds m Hm) as [[Hlo Hhi] Hd].
  set (d := Zdigits2 m) in *. set (t := Z.max (d + e - 53) (-1074)) in *.
  pose proof (to_nearest_bounds m (t - e)) as HN.
  pose proof (pow2_pos (t - e) ltac:(lia)) as HP.
  assert (Hq1 : m / 2 ^ (t - e) < 2 ^ 53).
  { apply Z.div_lt_upper_bound; [exact HP|].
    rewrite <- Z.pow_add_r by lia. eapply Z.lt_le_trans; [exact Hhi|].
    apply Z.pow_le_mono_r; lia. }
  assert (Hq0 : 0 <= m / 2 ^ (t - e)) by (apply Z.div_pos; lia).
  split; [lia|]. intros Ht.
  assert (Hk : t - e = d - 53) by lia.
  assert (2 ^ 52 <= m / 2 ^ (t - e)); [|lia].
  apply Z.div_le_lower_bound; [exact HP|].
  rewrite <- Z.pow_add_r by lia. eapply Z.le_trans; [|exact Hlo].
  apply Z.pow_le_mono_r; lia.
Qed.

(** The second shift of [binary_round_aux] and the overflow test. *)
Lemma finish s N t :
  0 <= N <= 2 ^ 53 → -1074 <= t →
  match (let '(mrs'', e'') := shr_fexp prec emax N t loc_Exact in
         match shr_m mrs'' with
         | 0 => S754_zero s
         | Z.pos m => if e'' <=? emax - prec then S754_finite s m e'' else S754_infinity s
         | Z.neg _ => S754_nan
         end) with
  | S754_zero s' => s' = s ∧ N = 0
  | S754_finite s' m e =>
      s' = s ∧ Z.pos m * ulps e = N * ulps t ∧ Z.pos m < 2 ^ 53 ∧ -1074 <= e <= 971
  | S754_infinity s' => s' = s ∧ 971 <= t ∧ 0 < N ∧ (t = 971 → N = 2 ^ 53)
  | S754_nan => False
  end.
Proof.
  intros HN Ht. unfold shr_fexp, shr. rewrite fexp_eq.
  destruct (Z.eq_dec N 0) as [->|N0].
  { cbn [Zdigits2]. destruct (Z.max (0 + t - 53) (-1074) - t) eqn:E; try lia; cbn; auto. }
  destruct (Z.eq_dec N (2 ^ 53)) as [->|N53].
  { change (Zdigits2 (2 ^ 53)) with 54.
    replace (Z.max (54 + t - 53) (-1074) - t) with 1 by lia.
    change (SpecFloat.iter_pos shr_1 1 (shr_record_of_loc (2 ^ 53) loc_Exact))
      with (Build_shr_record 4503599627370496 false false).
    cbn [shr_m]. change (emax - prec) with 971.
    change (2 ^ 53) with 9007199254740992.
    destruct (Z.leb_spec (t + 1) 971).
    - rewrite ulps_add' by lia. repeat split; lia.
    - repeat split; lia. }
  destruct (Zdigits2_bounds N ltac:(lia)) as [[Hlo Hhi] Hd].
  assert (Hd53 : Zdigits2 N <= 53).
  { destruct (Z.le_gt_cases (Zdigits2 N) 53) as [H|H]; [exact H|].
    assert (2 ^ 53 <= 2 ^ (Zdigits2 N - 1)) by (apply Z.pow_le_mono_r; lia). lia. }
  destruct (Z.max (Zdigits2 N + t - 53) (-1074) - t) eqn:E; try lia;
    cbn [shr_record_of_loc shr_m]; destruct N as [|n|n]; try lia;
    change (emax - prec) with 971; destruct (Z.leb_spec t 971); repeat split; lia.
Qed.

Lemma clamp_small b v : v < 2 ^ (2098 + b) → clamp b v = v.
Proof. intros H. unfold clamp. rewrite (proj2 (Z.ltb_lt _ _)) by exact H. reflexivity. Qed.

Lemma clamp_large b v : 2 ^ (2098 + b) <= v → clamp b v = top * 2 ^ b.
Proof. intros H. unfold clamp. rewrite (proj2 (Z.ltb_ge _ _)) by exact H. reflexivity. Qed.

(** [binary_round_aux] on an exact mantissa: the result is the nearest
    number of the format, or an infinity from [2^1024] on. *)
Lemma binary_round_aux_exact s m e :
  0 < m → e <= fexp prec emax (Zdigits2 m + e) →
  is_nan (binary_round_aux prec emax s m e loc_Exact) = false ∧
  grid (binary_round_aux prec emax s m e loc_Exact) =
    cond_Zopp s (clamp 0 (to_nearest m (fexp prec emax (Zdigits2 m + e) - e) *
                          ulps (fexp prec emax (Zdigits2 m + e)))).
Proof.
  intros Hm He. unfold binary_round_aux.
  destruct (shr_fexp_exact m e Hm He) as [He' Hsh].
  destruct (nearest_mantissa m e Hm He) as [HN HN52].
  set (t := fexp prec emax (Zdigits2 m + e)) in *.
  assert (Ht : -1074 <= t) by (unfold t; rewrite fexp_eq; lia).
  destruct (shr_fexp prec emax m e loc_Exact) as [mrs' e']; cbn [fst snd] in *. subst e'.
  rewrite (shifted_round m (t - e) mrs') by (try assumption; lia).
  set (N := to_nearest m (t - e)) in *.
  pose proof (finish s N t HN Ht) as HF.
  pose proof (SFFacts.ulps_pos t Ht) as Hu.
  destruct (let '(mrs'', e'') := shr_fexp prec emax N t loc_Exact in _) as [s'|s'| |s' m'' e''].
  - destruct HF as [-> ->]. split; [reflexivity|]. cbn [grid]. rewrite Z.mul_0_l.
    rewrite clamp_small by (apply pow2_pos; lia). destruct s; reflexivity.
  - destruct HF as (-> & Ht971 & HN0 & HN53). split; [reflexivity|]. cbn [grid].
    rewrite clamp_large; [unfold top; change (2 ^ 0) with 1; rewrite Z.mul_1_r; reflexivity|].
    change (2098 + 0) with 2098. specialize (HN52 ltac:(lia)).
    destruct (Z.eq_dec t 971) as [E|E].
    + rewrite (HN53 E), E. vm_compute. discriminate.
    + assert (Hle : ulps 972 <= ulps t) by (unfold ulps; apply Z.pow_le_mono_r; lia).
      assert (H1 : 2 ^ 52 * ulps 972 <= N * ulps t).
      { apply Z.mul_le_mono_nonneg; try lia. unfold ulps. apply Z.lt_le_incl, pow2_pos. lia. }
      eapply Z.le_trans; [|exact H1]. vm_compute. discriminate.
  - destruct HF.
  - destruct HF as (-> & Heq & Hm53 & He''). split; [reflexivity|]. cbn [grid].
    rewrite <- Heq. rewrite clamp_small; [reflexivity|].
    change (2098 + 0) with 2098.
    assert (Hle : ulps e'' <= ulps 971) by (unfold ulps; apply Z.pow_le_mono_r; lia).
    pose proof (SFFacts.ulps_pos e'' ltac:(lia)) as Hu''.
    assert (H1 : Z.pos m'' * ulps e'' < 2 ^ 53 * ulps 971).
    { apply Z.le_lt_trans with (Z.pos m'' * ulps 971).
      - apply Z.mul_le_mono_nonneg_l; lia.
      - apply Z.mul_lt_mono_pos_r; [|exact Hm53]. apply SFFacts.ulps_pos. lia. }
    eapply Z.lt_le_trans; [exact H1|]. vm_compute. discriminate.
Qed.

(** ** The binary place of a magnitude *)

Lemma Zdigits2_unique m d :
  0 < m → 2 ^ (d - 1) <= m < 2 ^ d → 0 < d → Zdigits2 m = d.
Proof.
  intros Hm [Hlo Hhi] Hd. destruct (Zdigits2_bounds m Hm) as [[Hlo' Hhi'] Hd'].
  set (d' := Zdigits2 m) in *.
  destruct (Z.lt_trichotomy d' d) as [H|[H|H]]; [|exact H|].
  - assert (2 ^ d' <= 2 ^ (d - 1)) by (apply Z.pow_le_mono_r; lia). lia.
  - assert (2 ^ d <= 2 ^ (d' - 1)) by (apply Z.pow_le_mono_r; lia). lia.
Qed.

Lemma Zdigits2_scale m c : 0 < m → 0 <= c → Zdigits2 (m * 2 ^ c) = Zdigits2 m + c.
Proof.
  intros Hm Hc. destruct (Zdigits2_bounds m Hm) as [[Hlo Hhi] Hd].
  pose proof (pow2_pos c Hc) as HP.
  apply Zdigits2_unique; [nia| |lia].
  replace (Zdigits2 m + c - 1) with (Zdigits2 m - 1 + c) by lia.
  rewrite !Z.pow_add_r by lia. split; nia.
Qed.

Lemma Zdigits2_nonneg V : 0 <= V → 0 <= Zdigits2 V.
Proof. destruct V; cbn; lia. Qed.

Lemma Zdigits2_mono V W : 0 <= V <= W → Zdigits2 V <= Zdigits2 W.
Proof.
  intros [HV HVW]. destruct (Z.eq_dec V 0) as [->|V0].
  - apply Zdigits2_nonneg. lia.
  - destruct (Zdigits2_bounds V ltac:(lia)) as [[Hlo Hhi] Hd].
    destruct (Zdigits2_bounds W ltac:(lia)) as [[Hlo' Hhi'] Hd'].
    destruct (Z.le_gt_cases (Zdigits2 V) (Zdigits2 W)) as [H|H]; [exact H|].
    assert (2 ^ Zdigits2 W <= 2 ^ (Zdigits2 V - 1)) by (apply Z.pow_le_mono_r; lia). lia.
Qed.

Lemma place_lower b V : b <= place b V.
Proof. unfold place. lia. Qed.

Lemma place_mono b V W : 0 <= V <= W → place b V <= place b W.
Proof. intros H. unfold place. pose proof (Zdigits2_mono V W H). lia. Qed.

(** ** Rounding a quotient *)

Lemma to_nearest_scale M k c :
  0 <= k → 0 <= c → to_nearest (M * 2 ^ c) (k + c) = to_nearest M k.
Proof.
  intros Hk Hc. unfold to_nearest.
  pose proof (pow2_pos k Hk) as HP. pose proof (pow2_pos c Hc) as HC.
  rewrite Z.pow_add_r by lia.
  rewrite Z.div_mul_cancel_r by lia.
  rewrite Z.mul_mod_distr_r by lia.
  set (P := 2 ^ k) in *. set (C := 2 ^ c) in *. set (R := M mod P).
  replace (2 * (R * C) <? P * C) with (2 * R <? P)
    by (destruct (Z.ltb_spec (2 * R) P), (Z.ltb_spec (2 * (R * C)) (P * C)); try reflexivity; nia).
  replace (P * C <? 2 * (R * C)) with (P <? 2 * R)
    by (destruct (Z.ltb_spec P (2 * R)), (Z.ltb_spec (P * C) (2 * (R * C))); try reflexivity; nia).
  reflexivity.
Qed.

Lemma to_nearest_mono M M' k : 0 <= k → M <= M' → to_nearest M k <= to_nearest M' k.
Proof.
  intros Hk HM. pose proof (pow2_pos k Hk) as HP.
  pose proof (Z.div_le_mono M M' (2 ^ k) HP HM) as Hq.
  destruct (Z.eq_dec (M / 2 ^ k) (M' / 2 ^ k)) as [E|E].
  - pose proof (Z.div_mod M (2 ^ k) ltac:(lia)) as H1.
    pose proof (Z.div_mod M' (2 ^ k) ltac:(lia)) as H2.
    unfold to_nearest. rewrite <- E in *.
    set (q := M / 2 ^ k) in *. set (r := M mod 2 ^ k) in *. set (r' := M' mod 2 ^ k) in *.
    assert (r <= r') by lia.
    destruct (Z.ltb_spec (2 * r) (2 ^ k)), (Z.ltb_spec (2 * r') (2 ^ k)),
      (Z.ltb_spec (2 ^ k) (2 * r)), (Z.ltb_spec (2 ^ k) (2 * r'));
      destruct (Z.even q); lia.
  - pose proof (to_nearest_bounds M k). pose proof (to_nearest_bounds M' k). lia.
Qed.

Lemma to_nearest_exact M k : M mod 2 ^ k = 0 → 0 <= k → to_nearest M k = M / 2 ^ k.
Proof.
  intros H Hk. unfold to_nearest. rewrite H.
  rewrite (proj2 (Z.ltb_lt _ _)) by (pose proof (pow2_pos k Hk); lia). reflexivity.
Qed.

(** ** The rounded magnitude *)

Lemma rounded_nonneg b V : 0 <= b → 0 <= V → 0 <= rounded b V.
Proof.
  intros Hb HV. unfold rounded. pose proof (place_lower b V).
  pose proof (pow2_pos (place b V) ltac:(lia)).
  pose proof (to_nearest_bounds V (place b V)).
  pose proof (Z.div_pos V (2 ^ place b V) HV ltac:(lia)). nia.
Qed.

Lemma rounded_mono b V W : 0 <= b → 0 <= V <= W → rounded b V <= rounded b W.
Proof.
  intros Hb [HV HVW]. unfold rounded.
  pose proof (place_mono b V W ltac:(lia)) as HT.
  pose proof (place_lower b V) as HbT.
  set (T := place b V) in *. set (T' := place b W) in *.
  pose proof (pow2_pos T ltac:(lia)) as HP. pose proof (pow2_pos T' ltac:(lia)) as HP'.
  destruct (Z.eq_dec T T') as [E|E].
  - rewrite <- E. apply Z.mul_le_mono_nonneg_r; [lia|]. apply to_nearest_mono; lia.
  - assert (HW : 0 < W).
    { destruct (Z.eq_dec W 0) as [->|]; [|lia]. assert (V = 0) by lia. subst V.
      unfold T, T' in E. congruence. }
    destruct (Zdigits2_bounds W HW) as [[Hlo Hhi] Hd].
    assert (HT' : T' = Zdigits2 W - 53) by (unfold T', place in *; lia).
    (* the power of two between the two *)
    apply Z.le_trans with (2 ^ 52 * 2 ^ T').
    + pose proof (to_nearest_bounds V T) as HN.
      assert (Hq : V / 2 ^ T < 2 ^ 53).
      { apply Z.div_lt_upper_bound; [exact HP|]. rewrite <- Z.pow_add_r by lia.
        destruct (Z.eq_dec V 0) as [->|V0]; [apply pow2_pos; lia|].
        destruct (Zdigits2_bounds V ltac:(lia)) as [[_ HhiV] _].
        eapply Z.lt_le_trans; [exact HhiV|]. apply Z.pow_le_mono_r; [lia|].
        unfold T, place. lia. }
      apply Z.le_trans with (2 ^ 53 * 2 ^ T).
      * apply Z.mul_le_mono_nonneg_r; lia.
      * rewrite <- !Z.pow_add_r by lia. apply Z.pow_le_mono_r; lia.
    + apply Z.mul_le_mono_nonneg_r; [lia|].
      pose proof (to_nearest_bounds W T') as HN.
      assert (2 ^ 52 <= W / 2 ^ T'); [|lia].
      apply Z.div_le_lower_bound; [exact HP'|]. rewrite <- Z.pow_add_r by lia.
      eapply Z.le_trans; [|exact Hlo]. apply Z.pow_le_mono_r; lia.
Qed.

(** A magnitude with at most 53 significant bits above the place [b] is
    its own rounding. *)
Lemma rounded_exact b m c :
  0 <= m < 2 ^ 53 → 0 <= b <= c → rounded b (m * 2 ^ c) = m * 2 ^ c.
Proof.
  intros [Hm Hm53] Hc. unfold rounded.
  pose proof (pow2_pos c ltac:(lia)) as HC.
  assert (HT : b <= place b (m * 2 ^ c) <= c).
  { split; [apply place_lower|]. unfold place.
    destruct (Z.eq_dec m 0) as [->|m0]; [rewrite Z.mul_0_l; cbn [Zdigits2]; lia|].
    rewrite Zdigits2_scale by lia.
    destruct (Zdigits2_bounds m ltac:(lia)) as [[Hlo _] Hd].
    assert (Zdigits2 m <= 53); [|lia].
    destruct (Z.le_gt_cases (Zdigits2 m) 53) as [H|H]; [exact H|].
    assert (2 ^ 53 <= 2 ^ (Zdigits2 m - 1)) by (apply Z.pow_le_mono_r; lia). lia. }
  set (T := place b (m * 2 ^ c)) in *.
  pose proof (pow2_pos T ltac:(lia)) as HP.
  assert (E : m * 2 ^ c = m * 2 ^ (c - T) * 2 ^ T).
  { rewrite <- Z.mul_assoc, <- Z.pow_add_r by lia. do 2 f_equal. lia. }
  rewrite to_nearest_exact; [| |lia].
  - rewrite E at 1. rewrite Z.div_mul by lia. symmetry. exact E.
  - rewrite E. apply Z.mod_mul. lia.
Qed.

Lemma clamp_mono b v w : 0 <= b → v <= w → clamp b v <= clamp b w.
Proof.
  intros Hb H. unfold clamp.
  assert (Ht : 2 ^ (2098 + b) <= top * 2 ^ b).
  { unfold top. rewrite <- Z.pow_add_r by lia. apply Z.pow_le_mono_r; lia. }
  destruct (Z.ltb_spec v (2 ^ (2098 + b))), (Z.ltb_spec w (2 ^ (2098 + b))); lia.
Qed.

Lemma clamp_nonneg b v : 0 <= b → 0 <= v → 0 <= clamp b v.
Proof.
  intros Hb H. unfold clamp. destruct (v <? 2 ^ (2098 + b)); [exact H|].
  unfold top. pose proof (pow2_pos 2100 ltac:(lia)). pose proof (pow2_pos b Hb). nia.
Qed.

Lemma signed_rounded_mono b S S' :
  0 <= b → S <= S' → signed_rounded b S <= signed_rounded b S'.
Proof.
  intros Hb H. unfold signed_rounded.
  assert (Hpos : ∀ v, 0 <= v → 0 <= clamp b (rounded b v))
    by (intros v Hv; apply clamp_nonneg; [exact Hb|apply rounded_nonneg; assumption]).
  assert (Hmono : ∀ v w, 0 <= v <= w → clamp b (rounded b v) <= clamp b (rounded b w))
    by (intros v w Hvw; apply clamp_mono; [exact Hb|apply rounded_mono; assumption]).
  destruct (Z.lt_trichotomy S 0) as [HS|[HS|HS]], (Z.lt_trichotomy S' 0) as [HS'|[HS'|HS']];
    try lia;
    rewrite ?(Z.sgn_neg S), ?(Z.sgn_neg S'), ?(Z.sgn_pos S), ?(Z.sgn_pos S'),
      ?(Z.sgn_null S), ?(Z.sgn_null S') by assumption;
    pose proof (Hpos (Z.abs S) ltac:(lia));
    pose proof (Hpos (Z.abs S') ltac:(lia));
    try pose proof (Hmono (Z.abs S') (Z.abs S) ltac:(lia));
    try pose proof (Hmono (Z.abs S) (Z.abs S') ltac:(lia));
    lia.
Qed.

(** ** The operations on the grid *)

Lemma rounded_spec b m e :
  0 < m → 0 <= b → -1074 - b <= e → e <= fexp prec emax (Zdigits2 m + e) →
  rounded b (m * 2 ^ (e + 1074 + b)) =
    to_nearest m (fexp prec emax (Zdigits2 m + e) - e) *
    ulps (fexp prec emax (Zdigits2 m + e)) * 2 ^ b.
Proof.
  intros Hm Hb He Ht. unfold rounded, place. rewrite Zdigits2_scale by lia.
  rewrite fexp_eq in *. set (t := Z.max (Zdigits2 m + e - 53) (-1074)) in *.
  replace (Z.max (Zdigits2 m + (e + 1074 + b) - 53) b) with ((t - e) + (e + 1074 + b)) by lia.
  rewrite to_nearest_scale by lia.
  unfold ulps. rewrite <- Z.mul_assoc, <- Z.pow_add_r by lia. do 2 f_equal. lia.
Qed.

Lemma clamp_scale b v : 0 <= b → clamp b (v * 2 ^ b) = clamp 0 v * 2 ^ b.
Proof.
  intros Hb. unfold clamp. pose proof (pow2_pos b Hb) as HB.
  rewrite Z.pow_add_r by lia. change (2098 + 0) with 2098. change (2 ^ 0) with 1.
  replace (v * 2 ^ b <? 2 ^ 2098 * 2 ^ b) with (v <? 2 ^ 2098)
    by (destruct (Z.ltb_spec v (2 ^ 2098)), (Z.ltb_spec (v * 2 ^ b) (2 ^ 2098 * 2 ^ b));
        try reflexivity; nia).
  destruct (v <? 2 ^ 2098); ring.
Qed.

Lemma cond_Zopp_mul s a b : cond_Zopp s a * b = cond_Zopp s (a * b).
Proof. destruct s; cbn [cond_Zopp]; ring. Qed.

(** [binary_round_aux] on an exact mantissa at or below its place, in units
    of [2^-(1074+b)]. *)
Lemma binary_round_aux_grid b s m e :
  0 < m → 0 <= b → -1074 - b <= e → e <= fexp prec emax (Zdigits2 m + e) →
  is_nan (binary_round_aux prec emax s m e loc_Exact) = false ∧
  grid (binary_round_aux prec emax s m e loc_Exact) * 2 ^ b =
    cond_Zopp s (clamp b (rounded b (m * 2 ^ (e + 1074 + b)))).
Proof.
  intros Hm Hb He Ht. destruct (binary_round_aux_exact s m e Hm Ht) as [Hn Hg].
  split; [exact Hn|]. rewrite Hg, rounded_spec, clamp_scale, cond_Zopp_mul by assumption.
  reflexivity.
Qed.

Lemma shl_align_place m e :
  -1074 <= e →
  let t := fexp prec emax (Z.pos (digits2_pos m) + e) in
  let mz := fst (shl_align m e t) in
  let ez := snd (shl_align m e t) in
  Z.pos mz * ulps ez = Z.pos m * ulps e ∧ -1074 <= ez ∧
  ez <= fexp prec emax (Zdigits2 (Z.pos mz) + ez).
Proof.
  intros He t mz ez. assert (Ht : -1074 <= t) by (unfold t; rewrite fexp_eq; lia).
  destruct (Z.le_gt_cases t e) as [H|H].
  - destruct (SFFacts.shl_align_spec m e t H) as [E1 E2]. fold mz in E1. fold ez in E2.
    rewrite E2, E1. split; [|split; [exact Ht|]].
    + assert (E : ulps e = ulps t * 2 ^ (e - t))
        by (rewrite <- SFFacts.ulps_add by lia; f_equal; lia).
      rewrite E. ring.
    + rewrite Zdigits2_scale by lia. cbn [Zdigits2].
      replace (Z.pos (digits2_pos m) + (e - t) + t) with (Z.pos (digits2_pos m) + e) by lia.
      fold t. lia.
  - assert (E : shl_align m e t = (m, e)).
    { unfold shl_align. destruct (t - e) eqn:E; try lia; reflexivity. }
    unfold mz, ez. rewrite E. cbn [fst snd Zdigits2]. fold t. lia.
Qed.

Lemma binary_round_grid s m e :
  -1074 <= e →
  is_nan (binary_round prec emax s m e) = false ∧
  grid (binary_round prec emax s m e) = cond_Zopp s (clamp 0 (rounded 0 (Z.pos m * ulps e))).
Proof.
  intros He. unfold binary_round.
  destruct (shl_align_place m e He) as (Hv & Hez & Hpl).
  destruct (shl_align m e _) as [mz ez]. cbn [fst snd] in *.
  destruct (binary_round_aux_grid 0 s (Z.pos mz) ez) as [Hn Hg]; try lia.
  split; [exact Hn|]. change (2 ^ 0) with 1 in Hg. rewrite Z.mul_1_r in Hg.
  rewrite Hg. replace (ez + 1074 + 0) with (ez + 1074) by lia. fold (ulps ez).
  rewrite Hv. reflexivity.
Qed.

Lemma binary_normalize_grid D e sz :
  -1074 <= e →
  is_nan (binary_normalize prec emax D e sz) = false ∧
  grid (binary_normalize prec emax D e sz) = signed_rounded 0 (D * ulps e).
Proof.
  intros He. pose proof (SFFacts.ulps_pos e He) as Hu. unfold signed_rounded.
  destruct D as [|p|p]; cbn [binary_normalize].
  - split; reflexivity.
  - destruct (binary_round_grid false p e He) as [Hn Hg]. split; [exact Hn|].
    rewrite Hg, Z.sgn_pos, Z.abs_eq by lia. cbn [cond_Zopp]. ring.
  - destruct (binary_round_grid true p e He) as [Hn Hg]. split; [exact Hn|].
    rewrite Hg, Z.sgn_neg by lia.
    replace (Z.abs (Z.neg p * ulps e)) with (Z.pos p * ulps e) by lia.
    cbn [cond_Zopp]. ring.
Qed.

(** A number of the format is its own rounding. *)
Lemma signed_rounded_float b x :
  0 <= b → valid_binary x = true → finite x = true →
  signed_rounded b (grid x * 2 ^ b) = grid x * 2 ^ b.
Proof.
  intros Hb V F. pose proof (pow2_pos b Hb) as HB. unfold signed_rounded.
  destruct x as [s|s| |s m e]; try discriminate; cbn [grid].
  - reflexivity.
  - cbn in V. pose proof (SFFacts.finite_below_top m e V) as [Hpos _].
    apply SFFacts.bounded_inv in V as (He & Hm & _).
    pose proof (SFFacts.ulps_pos e ltac:(lia)) as Hu.
    assert (E : Z.abs (cond_Zopp s (Z.pos m * ulps e) * 2 ^ b) = Z.pos m * 2 ^ (e + 1074 + b)).
    { unfold ulps in *. rewrite (Z.pow_add_r 2 (e + 1074) b) by lia. destruct s; cbn [cond_Zopp]; nia. }
    rewrite E, rounded_exact by lia.
    rewrite clamp_small.
    + rewrite <- E. destruct s; cbn [cond_Zopp].
      * rewrite Z.sgn_neg by nia. lia.
      * rewrite Z.sgn_pos by nia. lia.
    + apply Z.lt_le_trans with (2 ^ 53 * 2 ^ (e + 1074 + b)).
      * apply Z.mul_lt_mono_pos_r; [apply pow2_pos; lia|exact Hm].
      * rewrite <- Z.pow_add_r by lia. apply Z.pow_le_mono_r; lia.
Qed.

Lemma aligned_sum sx mx ex sy my ey (op : Z → Z → Z) :
  -1074 <= ex → -1074 <= ey →
  (∀ a b c, op a b * c = op (a * c) (b * c)) →
  op (cond_Zopp sx (Z.pos (fst (shl_align mx ex (Z.min ex ey)))))
     (cond_Zopp sy (Z.pos (fst (shl_align my ey (Z.min ex ey))))) * ulps (Z.min ex ey) =
  op (cond_Zopp sx (Z.pos mx * ulps ex)) (cond_Zopp sy (Z.pos my * ulps ey)).
Proof.
  intros Hex Hey Hop. set (ez := Z.min ex ey).
  destruct (SFFacts.shl_align_spec mx ex ez ltac:(lia)) as [Ex _].
  destruct (SFFacts.shl_align_spec my ey ez ltac:(lia)) as [Ey _].
  rewrite Hop, Ex, Ey, !cond_Zopp_mul. f_equal; f_equal.
  - assert (E : ulps ex = ulps ez * 2 ^ (ex - ez))
      by (rewrite <- SFFacts.ulps_add by lia; f_equal; lia).
    rewrite E. ring.
  - assert (E : ulps ey = ulps ez * 2 ^ (ey - ez))
      by (rewrite <- SFFacts.ulps_add by lia; f_equal; lia).
    rewrite E. ring.
Qed.

(** Sums and differences of finite numbers: the exact result on the grid,
    rounded. *)
Lemma SFadd_grid x y :
  valid_binary x = true → valid_binary y = true → finite x = true → finite y = true →
  is_nan (SFadd prec emax x y) = false ∧
  grid (SFadd prec emax x y) = signed_rounded 0 (grid x + grid y).
Proof.
  intros Vx Vy Fx Fy.
  pose proof (signed_rounded_float 0 x ltac:(lia) Vx Fx) as Rx.
  pose proof (signed_rounded_float 0 y ltac:(lia) Vy Fy) as Ry.
  change (2 ^ 0) with 1 in Rx, Ry. rewrite Z.mul_1_r in Rx, Ry.
  destruct x as [sx|sx| |sx mx ex], y as [sy|sy| |sy my ey]; try discriminate.
  - split; [destruct sx, sy; reflexivity|]. destruct sx, sy; reflexivity.
  - split; [reflexivity|]. cbn [SFadd]. rewrite Z.add_0_l. symmetry. exact Ry.
  - split; [reflexivity|]. cbn [SFadd]. change (grid (S754_zero sy)) with 0.
    rewrite Z.add_0_r. symmetry. exact Rx.
  - cbn [SFadd]. cbn in Vx, Vy.
    apply SFFacts.bounded_inv in Vx as (Hex & _ & _).
    apply SFFacts.bounded_inv in Vy as (Hey & _ & _).
    match goal with |- context [binary_normalize _ _ ?D ?ez _] =>
      destruct (binary_normalize_grid D ez false ltac:(lia)) as [Hn Hg] end.
    split; [exact Hn|]. rewrite Hg. cbn [grid].
    rewrite (aligned_sum sx mx ex sy my ey Z.add) by (try lia; intros; ring). reflexivity.
Qed.

Lemma SFsub_grid x y :
  valid_binary x = true → valid_binary y = true → finite x = true → finite y = true →
  is_nan (SFsub prec emax x y) = false ∧
  grid (SFsub prec emax x y) = signed_rounded 0 (grid x - grid y).
Proof.
  intros Vx Vy Fx Fy.
  pose proof (signed_rounded_float 0 x ltac:(lia) Vx Fx) as Rx.
  change (2 ^ 0) with 1 in Rx. rewrite Z.mul_1_r in Rx.
  destruct x as [sx|sx| |sx mx ex], y as [sy|sy| |sy my ey]; try discriminate.
  - split; [destruct sx, sy; reflexivity|]. destruct sx, sy; reflexivity.
  - split; [reflexivity|]. cbn [SFsub].
    pose proof (signed_rounded_float 0 (S754_finite (negb sy) my ey) ltac:(lia) Vy eq_refl) as Ry.
    change (2 ^ 0) with 1 in Ry. rewrite Z.mul_1_r in Ry.
    replace (grid (S754_zero sx) - grid (S754_finite sy my ey))
      with (grid (S754_finite (negb sy) my ey)) by (destruct sy; cbn; lia).
    symmetry. exact Ry.
  - split; [reflexivity|]. cbn [SFsub]. change (grid (S754_zero sy)) with 0.
    rewrite Z.sub_0_r. symmetry. exact Rx.
  - cbn [SFsub]. cbn in Vx, Vy.
    apply SFFacts.bounded_inv in Vx as (Hex & _ & _).
    apply SFFacts.bounded_inv in Vy as (Hey & _ & _).
    match goal with |- context [binary_normalize _ _ ?D ?ez _] =>
      destruct (binary_normalize_grid D ez false ltac:(lia)) as [Hn Hg] end.
    split; [exact Hn|]. rewrite Hg. cbn [grid].
    rewrite (aligned_sum sx mx ex sy my ey Z.sub) by (try lia; intros; ring). reflexivity.
Qed.

Lemma cond_Zopp_prod sx sy a b :
  cond_Zopp sx a * cond_Zopp sy b = cond_Zopp (xorb sx sy) (a * b).
Proof. destruct sx, sy; cbn [cond_Zopp xorb]; ring. Qed.

Lemma signed_rounded_cond b s P :
  0 < P → signed_rounded b (cond_Zopp s P) = cond_Zopp s (clamp b (rounded b P)).
Proof.
  intros HP. unfold signed_rounded. destruct s; cbn [cond_Zopp].
  - rewrite Z.sgn_neg, Z.abs_neq by lia. rewrite Z.opp_involutive. ring.
  - rewrite Z.sgn_pos, Z.abs_eq by lia. ring.
Qed.

(** Products of finite numbers: the exact product, in units of [2^-2148],
    rounded. *)
Lemma SFmul_grid x y :
  valid_binary x = true → valid_binary y = true → finite x = true → finite y = true →
  is_nan (SFmul prec emax x y) = false ∧
  grid (SFmul prec emax x y) * 2 ^ 1074 = signed_rounded 1074 (grid x * grid y).
Proof.
  intros Vx Vy Fx Fy.
  destruct x as [sx|sx| |sx mx ex], y as [sy|sy| |sy my ey]; try discriminate;
    cbn [SFmul grid]; rewrite ?Z.mul_0_l, ?Z.mul_0_r; try (split; reflexivity).
  cbn in Vx, Vy.
  apply SFFacts.bounded_inv in Vx as (Hex & Hmx & Hnx).
  apply SFFacts.bounded_inv in Vy as (Hey & Hmy & Hny).
  rewrite Pos2Z.inj_mul.
  assert (Hm : 0 < Z.pos mx * Z.pos my) by lia.
  assert (Hpl : ex + ey <= fexp prec emax (Zdigits2 (Z.pos mx * Z.pos my) + (ex + ey))).
  { rewrite fexp_eq. destruct (Z.le_gt_cases (ex + ey) (-1074)) as [H|H]; [lia|].
    assert (H52 : 2 ^ 52 <= Z.pos mx * Z.pos my).
    { destruct (Z.le_gt_cases ex (-1074)) as [H'|H'].
      - specialize (Hny ltac:(lia)). nia.
      - specialize (Hnx ltac:(lia)). nia. }
    destruct (Zdigits2_bounds _ Hm) as [[_ Hhi] Hd].
    assert (52 < Zdigits2 (Z.pos mx * Z.pos my)); [|lia].
    apply (Z.pow_lt_mono_r_iff 2); lia. }
  destruct (binary_round_aux_grid 1074 (xorb sx sy) (Z.pos mx * Z.pos my) (ex + ey))
    as [Hn Hg]; try lia.
  split; [exact Hn|]. rewrite Hg, cond_Zopp_prod.
  pose proof (SFFacts.ulps_pos ex ltac:(lia)). pose proof (SFFacts.ulps_pos ey ltac:(lia)).
  rewrite signed_rounded_cond by nia. do 3 f_equal.
  unfold ulps. replace (ex + ey + 1074 + 1074) with ((ex + 1074) + (ey + 1074)) by lia.
  rewrite Z.pow_add_r by lia. ring.
Qed.

(** ** Quotients below one *)

Lemma round_nearest_even_bounds m l : m <= round_nearest_even m l <= m + 1.
Proof. destruct l as [|[]]; cbn; try lia. destruct (Z.even m); lia. Qed.

Lemma shr_fexp_m q e l :
  0 <= q →
  let k := fexp prec emax (Zdigits2 q + e) - e in
  (k <= 0 → shr_m (fst (shr_fexp prec emax q e l)) = q ∧ snd (shr_fexp prec emax q e l) = e) ∧
  (0 < k → shr_m (fst (shr_fexp prec emax q e l)) = q / 2 ^ k ∧
           snd (shr_fexp prec emax q e l) = e + k).
Proof.
  intros Hq k. unfold shr_fexp, shr. fold k.
  destruct k as [|p|p]; cbn [fst snd]; rewrite ?SFFacts.shr_record_of_loc_m;
    (split; [intros H|intros H]; try lia; auto).
  rewrite SFFacts.iter_shr_m by (rewrite SFFacts.shr_record_of_loc_m; lia).
  rewrite SFFacts.shr_record_of_loc_m. auto.
Qed.

(** Rounding a mantissa that stands for less than one gives at most one. *)
Lemma binary_round_aux_upper s q e l :
  0 <= q → e <= -53 → q < 2 ^ (- e) →
  match binary_round_aux prec emax s q e l with
  | S754_zero s' => s' = s
  | S754_finite s' m'' e'' => s' = s ∧ Z.pos m'' * ulps e'' <= 2 ^ 1074
  | _ => False
  end.
Proof.
  intros Hq He Hlt. unfold binary_round_aux.
  destruct (shr_fexp_m q e l Hq) as [Hk0 Hk1].
  assert (Hdq : Zdigits2 q <= - e).
  { destruct (Z.eq_dec q 0) as [->|q0]; [cbn; lia|].
    destruct (Zdigits2_bounds q ltac:(lia)) as [[Hlo _] Hd].
    assert (Zdigits2 q - 1 < - e); [|lia]. apply (Z.pow_lt_mono_r_iff 2); lia. }
  assert (Hq53 : Zdigits2 q <= 53 → q < 2 ^ 53).
  { intros H. destruct (Z.eq_dec q 0) as [->|q0]; [reflexivity|].
    destruct (Zdigits2_bounds q ltac:(lia)) as [[_ Hhi] _].
    eapply Z.lt_le_trans; [exact Hhi|]. apply Z.pow_le_mono_r; lia. }
  rewrite fexp_eq in Hk0, Hk1.
  set (k := Z.max (Zdigits2 q + e - 53) (-1074) - e) in *.
  destruct (shr_fexp prec emax q e l) as [mrs' e1]. cbn [fst snd] in *.
  assert (H1 : 0 <= shr_m mrs' < 2 ^ 53 ∧ shr_m mrs' < 2 ^ (- e1) ∧ -1074 <= e1 <= -53).
  { destruct (Z.le_gt_cases k 0) as [Hk|Hk].
    - destruct (Hk0 Hk) as [-> ->]. repeat split; first [lia|apply Hq53; lia].
    - destruct (Hk1 Hk) as [-> ->]. pose proof (pow2_pos k ltac:(lia)) as HP.
      repeat split; try lia.
      + apply Z.div_pos; lia.
      + apply Z.div_lt_upper_bound; [exact HP|]. rewrite <- Z.pow_add_r by lia.
        destruct (Z.eq_dec q 0) as [->|q0]; [apply pow2_pos; lia|].
        destruct (Zdigits2_bounds q ltac:(lia)) as [[_ Hhi] _].
        eapply Z.lt_le_trans; [exact Hhi|]. apply Z.pow_le_mono_r; lia.
      + apply Z.div_lt_upper_bound; [exact HP|]. rewrite <- Z.pow_add_r by lia.
        replace (k + - (e + k)) with (- e) by lia. exact Hlt. }
  destruct H1 as (HM1 & HM1' & He1).
  pose proof (round_nearest_even_bounds (shr_m mrs') (loc_of_shr_record mrs')) as HN.
  set (N := round_nearest_even (shr_m mrs') (loc_of_shr_record mrs')) in *.
  pose proof (finish s N e1 ltac:(lia) ltac:(lia)) as HF.
  destruct (let '(mrs'', e'') := shr_fexp prec emax N e1 loc_Exact in _) as [s'|s'| |s' m'' e''].
  - apply HF.
  - lia.
  - exact HF.
  - destruct HF as (-> & Heq & _). split; [reflexivity|]. rewrite Heq.
    assert (E : 2 ^ 1074 = 2 ^ (- e1) * ulps e1).
    { unfold ulps. rewrite <- Z.pow_add_r by lia. f_equal. lia. }
    rewrite E. apply Z.mul_le_mono_nonneg_r; [|lia].
    apply Z.lt_le_incl, SFFacts.ulps_pos. lia.
Qed.

(** The quotient of a positive number by a greater one is at most 1. *)
Lemma SFdiv_below_one mx ex my ey :
  bounded prec emax mx ex = true → bounded prec emax my ey = true →
  Z.pos mx * ulps ex < Z.pos my * ulps ey →
  0 <= grid (SFdiv prec emax (S754_finite false mx ex) (S754_finite false my ey)) <= 2 ^ 1074 ∧
  is_nan (SFdiv prec emax (S754_finite false mx ex) (S754_finite false my ey)) = false.
Proof.
  intros Vx Vy Hlt.
  apply SFFacts.bounded_inv in Vx as (Hex & Hmx & _).
  apply SFFacts.bounded_inv in Vy as (Hey & Hmy & _).
  cbn [SFdiv xorb]. unfold SFdiv_core_binary.
  destruct (Zdigits2_bounds (Z.pos mx) ltac:(lia)) as [[Hlo1 Hhi1] Hd1].
  destruct (Zdigits2_bounds (Z.pos my) ltac:(lia)) as [[Hlo2 Hhi2] Hd2].
  set (d1 := Zdigits2 (Z.pos mx)) in *. set (d2 := Zdigits2 (Z.pos my)) in *.
  pose proof (SFFacts.ulps_pos ex ltac:(lia)) as Hux.
  pose proof (SFFacts.ulps_pos ey ltac:(lia)) as Huy.
  (* the exponents of the two numbers *)
  assert (Hd : d1 + ex <= d2 + ey).
  { assert (H : 2 ^ (d1 - 1) * ulps ex < 2 ^ d2 * ulps ey).
    { assert (2 ^ (d1 - 1) * ulps ex <= Z.pos mx * ulps ex)
        by (apply Z.mul_le_mono_nonneg_r; lia).
      assert (Z.pos my * ulps ey <= 2 ^ d2 * ulps ey)
        by (apply Z.mul_le_mono_nonneg_r; lia).
      lia. }
    unfold ulps in H. rewrite <- !Z.pow_add_r in H by lia.
    apply Z.pow_lt_mono_r_iff in H; lia. }
  rewrite fexp_eq.
  set (e' := Z.min (Z.max (d1 + ex - (d2 + ey) - 53) (-1074)) (ex - ey)).
  assert (He' : e' <= -53 ∧ e' <= ex - ey) by (unfold e'; lia).
  remember (ex - ey - e') as s eqn:Es.
  assert (Hs : 0 <= s) by lia.
  set (m' := match s with 0 => Z.pos mx | Z.pos _ => Z.shiftl (Z.pos mx) s | Z.neg _ => 0 end).
  assert (Hm' : m' = Z.pos mx * 2 ^ s).
  { unfold m'. destruct s as [|p|p];
      [rewrite Z.pow_0_r, Z.mul_1_r; reflexivity|apply Z.shiftl_mul_pow2; lia|lia]. }
  pose proof (Z.div_eucl_eq m' (Z.pos my) ltac:(lia)) as Heq.
  pose proof (Z.mod_pos_bound m' (Z.pos my) ltac:(lia)) as Hr.
  pose proof (Z.div_pos m' (Z.pos my) ltac:(rewrite Hm'; pose proof (pow2_pos s Hs); nia)
                ltac:(lia)) as Hq.
  unfold Z.modulo in Hr. unfold Z.div in Hq.
  destruct (Z.div_eucl m' (Z.pos my)) as [q r].
  assert (Hq1 : q < 2 ^ (- e')).
  { destruct (Z.lt_ge_cases q (2 ^ (- e'))) as [H|H]; [exact H|]. exfalso.
    pose proof (pow2_pos (- e') ltac:(lia)) as HP. pose proof (pow2_pos s Hs) as HS.
    assert (H1 : Z.pos my * 2 ^ (- e') <= Z.pos mx * 2 ^ s) by nia.
    assert (H2 : Z.pos my * 2 ^ (- e') * ulps ey <= Z.pos mx * 2 ^ s * ulps ey)
      by (apply Z.mul_le_mono_nonneg_r; lia).
    assert (E : 2 ^ s * ulps ey = ulps ex * 2 ^ (- e')).
    { unfold ulps. rewrite <- !Z.pow_add_r by lia. f_equal. lia. }
    nia. }
  pose proof (binary_round_aux_upper false q e' (new_location (Z.pos my) r)
                Hq ltac:(lia) Hq1) as H.
  destruct (binary_round_aux prec emax false q e' _) as [s'|s'| |s' m'' e'']; try tauto.
  - cbn [grid is_nan]. split; [|reflexivity]. pose proof (pow2_pos 1074 ltac:(lia)). lia.
  - destruct H as [-> H]. cbn [grid is_nan cond_Zopp]. split; [|reflexivity].
    pose proof (Z.pow_nonneg 2 (e'' + 1074) ltac:(lia)) as Hu. fold (ulps e'') in Hu.
    split; [|exact H]. apply Z.mul_nonneg_nonneg; lia.
Qed.

End Rounding.

(** * Arithmetic of numbers on the grid *)

Lemma add_grid x y :
  isFinite x = true → isFinite y = true →
  isNaN (x + y) = false ∧ fgrid (x + y) = Nearest.signed_rounded 0 (fgrid x + fgrid y).
Proof.
  rewrite !isFinite_spec, isNaN_spec. unfold fgrid. rewrite FloatAxioms.add_spec.
  apply Rounding.SFadd_grid; apply Prim2SF_valid.
Qed.

Lemma sub_grid x y :
  isFinite x = true → isFinite y = true →
  isNaN (x - y) = false ∧ fgrid (x - y) = Nearest.signed_rounded 0 (fgrid x - fgrid y).
Proof.
  rewrite !isFinite_spec, isNaN_spec. unfold fgrid. rewrite FloatAxioms.sub_spec.
  apply Rounding.SFsub_grid; apply Prim2SF_valid.
Qed.

Lemma mul_grid x y :
  isFinite x = true → isFinite y = true →
  isNaN (x * y) = false ∧
  (fgrid (x * y) * 2 ^ 1074 = Nearest.signed_rounded 1074 (fgrid x * fgrid y))%Z.
Proof.
  rewrite !isFinite_spec, isNaN_spec. unfold fgrid. rewrite FloatAxioms.mul_spec.
  apply Rounding.SFmul_grid; apply Prim2SF_valid.
Qed.

Lemma fgrid_bounds x : (- SF.top <= fgrid x <= SF.top)%Z.
Proof.
  unfold fgrid. pose proof (Prim2SF_valid x) as V.
  pose proof (Z.pow_pos_nonneg 2 2100 ltac:(lia) ltac:(lia)) as Ht. fold SF.top in Ht.
  destruct (Prim2SF x) as [s|s| |s m e]; cbn [SF.grid]; try lia.
  - destruct s; cbn [cond_Zopp]; lia.
  - apply SFFacts.finite_below_top in V. destruct s; cbn [cond_Zopp]; lia.
Qed.

Lemma finite_of_grid x :
  isNaN x = false → (- SF.top < fgrid x < SF.top)%Z → isFinite x = true.
Proof.
  rewrite isNaN_spec, isFinite_spec. unfold fgrid.
  destruct (Prim2SF x) as [s|s| |s m e]; try reflexivity; try discriminate.
  intros _. cbn [SF.grid]. destruct s; cbn [cond_Zopp]; lia.
Qed.

(** Two numbers at the same place of the grid, other than zero, are equal. *)
Lemma grid_inj a b :
  isNaN a = false → isNaN b = false → fgrid a = fgrid b → fgrid a ≠ 0%Z → a = b.
Proof.
  intros Na Nb E Hnz. pose proof (eqb_grid a b Na Nb) as H.
  rewrite E, Z.eqb_refl, FloatAxioms.eqb_spec in H.
  apply SFFacts.SFeqb_inv in H as [H|[Za _]]; [apply Prim2SF_inj; exact H|].
  exfalso. apply Hnz. unfold fgrid. destruct (Prim2SF a); try discriminate. reflexivity.
Qed.

(** Multiplying a finite number by 1 changes nothing, not even the sign of
    a zero. *)
Lemma mul_one x : isFinite x = true → x * 1 = x.
Proof.
  intros Hf. destruct (Z.eq_dec (fgrid x) 0%Z) as [E|E].
  - apply Prim2SF_inj. rewrite FloatAxioms.mul_spec.
    rewrite isFinite_spec in Hf. unfold fgrid in E. pose proof (Prim2SF_valid x) as V.
    destruct (Prim2SF x) as [s|s| |s m e]; try discriminate.
    + destruct s; reflexivity.
    + apply SFFacts.finite_below_top in V. cbn [SF.grid] in E.
      destruct s; cbn [cond_Zopp] in E; lia.
  - destruct (mul_grid x 1 Hf eq_refl) as [Hn Hg].
    symmetry. apply grid_inj; [apply isFinite_not_nan; exact Hf|exact Hn| |exact E].
    change (fgrid 1) with (2 ^ 1074)%Z in Hg. unfold fgrid in Hg, E |- *.
    rewrite (Rounding.signed_rounded_float 1074 (Prim2SF x)) in Hg
      by (try lia; try apply Prim2SF_valid; rewrite <- isFinite_spec; exact Hf).
    pose proof (Z.pow_pos_nonneg 2 1074 ltac:(lia) ltac:(lia)).
    symmetry. apply (Z.mul_reg_r _ _ (2 ^ 1074)); lia.
Qed.

Lemma rounded_self x :
  isFinite x = true → Nearest.signed_rounded 0 (fgrid x) = fgrid x.
Proof.
  intros Hf. rewrite isFinite_spec in Hf.
  pose proof (Rounding.signed_rounded_float 0 (Prim2SF x) ltac:(lia) (Prim2SF_valid x) Hf) as H.
  change (2 ^ 0)%Z with 1%Z in H. rewrite Z.mul_1_r in H. exact H.
Qed.

(** A number that is not negative is finite or [+Infinity]. *)
Lemma nonneg_cases x :
  isNaN x = false → (0 <= fgrid x)%Z → isFinite x = true ∨ Prim2SF x = S754_infinity false.
Proof.
  rewrite isNaN_spec, isFinite_spec. unfold fgrid.
  pose proof (Z.pow_pos_nonneg 2 2100 ltac:(lia) ltac:(lia)) as Ht. fold SF.top in Ht.
  destruct (Prim2SF x) as [s|s| |s m e]; try discriminate; auto.
  cbn [SF.grid]. destruct s; cbn [cond_Zopp]; auto; lia.
Qed.

Lemma infinity_grid x : Prim2SF x = S754_infinity false → fgrid x = SF.top.
Proof. unfold fgrid. intros ->. reflexivity. Qed.

(** Adding numbers that are not negative: the sum is a number, and below
    neither of them. *)
Lemma add_nonneg a b :
  isNaN a = false → isNaN b = false → (0 <= fgrid a)%Z → (0 <= fgrid b)%Z →
  isNaN (a + b) = false ∧ (fgrid a <= fgrid (a + b))%Z ∧ (fgrid b <= fgrid (a + b))%Z.
Proof.
  intros Na Nb Ha Hb.
  destruct (nonneg_cases a Na Ha) as [Fa|Ia], (nonneg_cases b Nb Hb) as [Fb|Ib].
  - destruct (add_grid a b Fa Fb) as [Hn Hg]. split; [exact Hn|]. rewrite Hg. split.
    + rewrite <- (rounded_self a Fa) at 1. apply Rounding.signed_rounded_mono; lia.
    + rewrite <- (rounded_self b Fb) at 1. apply Rounding.signed_rounded_mono; lia.
  - assert (E : Prim2SF (a + b) = S754_infinity false).
    { rewrite FloatAxioms.add_spec, Ib. rewrite isFinite_spec in Fa.
      destruct (Prim2SF a); try discriminate; reflexivity. }
    rewrite isNaN_spec, E, (infinity_grid _ E), (infinity_grid _ Ib).
    pose proof (fgrid_bounds a). auto with zarith.
  - assert (E : Prim2SF (a + b) = S754_infinity false).
    { rewrite FloatAxioms.add_spec, Ia. rewrite isFinite_spec in Fb.
      destruct (Prim2SF b); try discriminate; reflexivity. }
    rewrite isNaN_spec, E, (infinity_grid _ E), (infinity_grid _ Ia).
    pose proof (fgrid_bounds b). auto with zarith.
  - assert (E : Prim2SF (a + b) = S754_infinity false)
      by (rewrite FloatAxioms.add_spec, Ia, Ib; reflexivity).
    rewrite isNaN_spec, E, (infinity_grid _ E), (infinity_grid _ Ia), (infinity_grid _ Ib).
    auto with zarith.
Qed.

Lemma add_nan_l x : nan + x = nan.
Proof. apply Prim2SF_inj. rewrite FloatAxioms.add_spec. reflexivity. Qed.

Lemma add_nan_r x : x + nan = nan.
Proof.
  apply Prim2SF_inj. rewrite FloatAxioms.add_spec. change (Prim2SF nan) with S754_nan.
  destruct (Prim2SF x); reflexivity.
Qed.

Lemma mul_nan_l x : nan * x = nan.
Proof. apply Prim2SF_inj. rewrite FloatAxioms.mul_spec. reflexivity. Qed.

Lemma signed_false_pos x : SF.signed false (Prim2SF x) → (0 < fgrid x)%Z.
Proof.
  unfold fgrid. pose proof (Prim2SF_valid x) as V.
  pose proof (Z.pow_pos_nonneg 2 2100 ltac:(lia) ltac:(lia)) as Ht. fold SF.top in Ht.
  destruct (Prim2SF x) as [s|s| |s m e]; cbn [SF.signed SF.grid]; try tauto; intros ->;
    cbn [cond_Zopp]; [lia|].
  apply SFFacts.finite_below_top in V. lia.
Qed.

Lemma null_grid x : SF.null (Prim2SF x) → fgrid x = 0%Z.
Proof. unfold fgrid. destruct (Prim2SF x); cbn; tauto. Qed.

(** The difference of a number and one that is not above it is not
    negative. *)
Lemma sub_nonneg a b :
  isNaN a = false → isNaN b = false → (fgrid b <= fgrid a)%Z → (0 <= fgrid (a - b))%Z.
Proof.
  intros Na Nb H. pose proof (sub_sign a b Na Nb) as Hs.
  destruct (Z.compare_spec (fgrid a) (fgrid b)) as [E|E|E]; try lia.
  - rewrite (null_grid _ Hs). lia.
  - apply signed_false_pos in Hs. lia.
Qed.

Lemma nonneg_sign x :
  valid_binary x = true → (0 <= SF.grid x)%Z →
  match x with S754_infinity s | S754_finite s _ _ => s = false | _ => True end.
Proof.
  intros V H.
  pose proof (Z.pow_pos_nonneg 2 2100 ltac:(lia) ltac:(lia)) as Ht. fold SF.top in Ht.
  destruct x as [s|s| |s m e]; auto; cbn [SF.grid] in H; destruct s; cbn [cond_Zopp] in H;
    try reflexivity; [lia|].
  apply SFFacts.finite_below_top in V. lia.
Qed.

(** A product of numbers that are not negative is not negative ([NaN]
    counts as such: its place on the grid is 0). *)
Lemma mul_nonneg a b : (0 <= fgrid a)%Z → (0 <= fgrid b)%Z → (0 <= fgrid (a * b))%Z.
Proof.
  unfold fgrid. rewrite FloatAxioms.mul_spec. intros Ha Hb.
  pose proof (nonneg_sign _ (Prim2SF_valid a) Ha) as Sa.
  pose proof (nonneg_sign _ (Prim2SF_valid b) Hb) as Sb.
  pose proof (Z.pow_pos_nonneg 2 2100 ltac:(lia) ltac:(lia)) as Ht. fold SF.top in Ht.
  unfold SF64mul.
  destruct (Prim2SF a) as [sa|sa| |sa ma ea], (Prim2SF b) as [sb|sb| |sb mb eb];
    cbn [SF.grid SFmul]; subst; cbn [xorb cond_Zopp]; try lia.
  pose proof (SFQuotient.binary_round_aux_sign false (Z.pos (ma * mb)) (ea + eb) loc_Exact
                ltac:(lia)) as H.
  destruct (binary_round_aux prec emax false (Z.pos (ma * mb)) (ea + eb) loc_Exact)
    as [s|s| |s m e]; cbn [SF.grid]; try lia; subst s; cbn [cond_Zopp]; try lia.
  apply Z.mul_nonneg_nonneg; [lia|]. unfold SF.ulps. apply Z.pow_nonneg. lia.
Qed.

Lemma leb_nonneg x : (0 <=? x) = true → isNaN x = false ∧ (0 <= fgrid x)%Z.
Proof.
  intros H. assert (Hn : isNaN x = false).
  { destruct (isNaN x) eqn:E; [|reflexivity]. apply isNaN_nan in E. subst x. discriminate H. }
  split; [exact Hn|]. rewrite (leb_grid 0 x eq_refl Hn) in H. apply Z.leb_le in H. exact H.
Qed.

Lemma leb_not_nan x y : (x <=? y) = true → isNaN x = false ∧ isNaN y = false.
Proof.
  intros H. rewrite !isNaN_spec. rewrite FloatAxioms.leb_spec in H.
  destruct (Prim2SF x), (Prim2SF y); try discriminate H; auto.
Qed.

Lemma leb_le x y : (x <=? y) = true → (fgrid x <= fgrid y)%Z.
Proof.
  intros H. destruct (leb_not_nan x y H) as [Nx Ny].
  rewrite (leb_grid x y Nx Ny) in H. apply Z.leb_le. exact H.
Qed.

(** Multiplying by a positive finite number keeps the order. *)
Lemma mul_mono_finite a a' c :
  isFinite a = true → isFinite a' = true → isFinite c = true → (0 < fgrid c)%Z →
  (fgrid a <= fgrid a')%Z → (fgrid (a * c) <= fgrid (a' * c))%Z.
Proof.
  intros Fa Fa' Fc Hc H.
  destruct (mul_grid a c Fa Fc) as [_ Hg]. destruct (mul_grid a' c Fa' Fc) as [_ Hg'].
  pose proof (Rounding.signed_rounded_mono 1074 (fgrid a * fgrid c) (fgrid a' * fgrid c)
                ltac:(lia) ltac:(nia)) as Hm.
  rewrite <- Hg, <- Hg' in Hm.
  pose proof (Z.pow_pos_nonneg 2 1074 ltac:(lia) ltac:(lia)). nia.
Qed.

Lemma mul_infinity a c :
  Prim2SF a = S754_infinity false → isFinite c = true → (0 < fgrid c)%Z →
  Prim2SF (a * c) = S754_infinity false.
Proof.
  intros Ha Fc Hc. rewrite FloatAxioms.mul_spec, Ha. rewrite isFinite_spec in Fc.
  pose proof (nonneg_sign _ (Prim2SF_valid c) ltac:(unfold fgrid in Hc; lia)) as Sc.
  unfold fgrid in Hc.
  destruct (Prim2SF c) as [s|s| |s m e]; try discriminate; cbn [SF.grid] in Hc; try lia.
  subst s. reflexivity.
Qed.

Lemma mul_mono_nonneg a a' c :
  isNaN a = false → isNaN a' = false → (0 <= fgrid a <= fgrid a')%Z →
  isFinite c = true → (0 < fgrid c)%Z →
  isNaN (a * c) = false ∧ isNaN (a' * c) = false ∧ (fgrid (a * c) <= fgrid (a' * c))%Z.
Proof.
  intros Na Na' [H0 H] Fc Hc.
  destruct (nonneg_cases a Na H0) as [Fa|Ia], (nonneg_cases a' Na' ltac:(lia)) as [Fa'|Ia'].
  - split; [apply (mul_grid a c Fa Fc)|]. split; [apply (mul_grid a' c Fa' Fc)|].
    apply mul_mono_finite; assumption.
  - pose proof (mul_infinity a' c Ia' Fc Hc) as E.
    split; [apply (mul_grid a c Fa Fc)|]. split; [rewrite isNaN_spec, E; reflexivity|].
    rewrite (infinity_grid _ E). apply fgrid_bounds.
  - rewrite (infinity_grid _ Ia) in H. pose proof (finite_grid_bounds a' Fa'). lia.
  - pose proof (mul_infinity a c Ia Fc Hc) as E. pose proof (mul_infinity a' c Ia' Fc Hc) as E'.
    rewrite !isNaN_spec, E, E', (infinity_grid _ E), (infinity_grid _ E'). auto with zarith.
Qed.

(** * The vertical stress never decreases *)

Lemma StronglySorted_lookup {A} (R : A → A → Prop) l i j a b :
  StronglySorted R l → l !! i = Some a → l !! j = Some b → i < j → R a b.
Proof.
  intros Hs. revert i j. induction Hs as [|x l Hs IH Hx]; intros i j Ha Hb Hij.
  - discriminate Ha.
  - destruct j as [|j]; [lia|]. cbn in Hb. destruct i as [|i].
    + cbn in Ha. injection Ha as ->. rewrite Forall_forall in Hx. apply Hx.
      eapply list_elem_of_lookup_2. exact Hb.
    + cbn in Ha. apply (IH i j); [assumption|assumption|lia].
Qed.

Lemma out_stress rows i r :
  computeParameters rows !! i = Some r →
  vertical_stress_pa r = cumulative_area (map depth rows) (map density rows) i * g.
Proof.
  intros H. out_row H rows i s Hs. cbn [vertical_stress_pa].
  rewrite sigma_v_get by (apply lookup_lt_is_Some; eauto).
  destruct i; reflexivity.
Qed.

Section Stress.
Variable rows : list PreparedSample.
Hypothesis Hasc : ascending rows.
Hypothesis Hrho : ∀ s, s ∈ rows → (0 <=? density s) = true.

Local Abbreviation acc := (cumulative_area (map depth rows) (map density rows)).

(** The area of every layer is not negative. *)
Lemma layer_nonneg j :
  S j < length rows →
  (0 <= fgrid (0.5 * (get (map density rows) (S j) + get (map density rows) j) *
               (get (map depth rows) (S j) - get (map depth rows) j)))%Z.
Proof.
  intros Hj.
  destruct (lookup_lt_is_Some_2 rows j ltac:(lia)) as [s Hs].
  destruct (lookup_lt_is_Some_2 rows (S j) Hj) as [s' Hs'].
  rewrite (get_map density rows j s Hs), (get_map density rows (S j) s' Hs').
  rewrite (get_map depth rows j s Hs), (get_map depth rows (S j) s' Hs').
  destruct (leb_nonneg _ (Hrho s (list_elem_of_lookup_2 _ _ _ Hs))) as [N1 G1].
  destruct (leb_nonneg _ (Hrho s' (list_elem_of_lookup_2 _ _ _ Hs'))) as [N2 G2].
  pose proof (StronglySorted_lookup _ rows j (S j) s s' Hasc Hs Hs' ltac:(lia)) as Hd.
  cbv beta in Hd. destruct (leb_not_nan _ _ Hd) as [Nd Nd']. apply leb_le in Hd.
  apply mul_nonneg; [apply mul_nonneg; [vm_compute; discriminate|]|].
  - destruct (add_nonneg (density s') (density s) N2 N1 G2 G1) as (_ & H & _). lia.
  - apply sub_nonneg; assumption.
Qed.

Lemma acc_nonneg j : j < length rows → (0 <= fgrid (acc j))%Z.
Proof.
  induction j as [|j IH]; intros Hj; [vm_compute; discriminate|].
  cbn [cumulative_area]. specialize (IH ltac:(lia)).
  pose proof (layer_nonneg j Hj) as Hl.
  set (area := 0.5 * _ * _) in *.
  destruct (isNaN (acc j)) eqn:Na.
  { apply isNaN_nan in Na. rewrite Na, add_nan_l. vm_compute. discriminate. }
  destruct (isNaN area) eqn:Nl.
  { apply isNaN_nan in Nl. rewrite Nl, add_nan_r. vm_compute. discriminate. }
  destruct (add_nonneg (acc j) area Na Nl IH Hl) as (_ & H & _). lia.
Qed.

Lemma acc_step j :
  S j < length rows →
  isNaN (acc (S j)) = true ∨
  (isNaN (acc j) = false ∧ isNaN (acc (S j)) = false ∧ (fgrid (acc j) <= fgrid (acc (S j)))%Z).
Proof.
  intros Hj. pose proof (acc_nonneg j ltac:(lia)) as H0.
  pose proof (layer_nonneg j Hj) as Hl. cbn [cumulative_area].
  set (area := 0.5 * _ * _) in *.
  destruct (isNaN (acc j)) eqn:Na.
  { apply isNaN_nan in Na. rewrite Na, add_nan_l. left. reflexivity. }
  destruct (isNaN area) eqn:Nl.
  { apply isNaN_nan in Nl. rewrite Nl, add_nan_r. left. reflexivity. }
  destruct (add_nonneg (acc j) area Na Nl H0 Hl) as (Hn & H & _). right. auto.
Qed.

Lemma acc_mono i j :
  i ≤ j → j < length rows → isNaN (acc i) = false →
  isNaN (acc j) = true ∨ (isNaN (acc j) = false ∧ (fgrid (acc i) <= fgrid (acc j))%Z).
Proof.
  intros Hij. induction Hij as [|j Hij IH]; intros Hj Ni.
  - right. split; [exact Ni|lia].
  - destruct (acc_step j Hj) as [H|(Nj & NSj & Hle)]; [left; exact H|].
    destruct (IH ltac:(lia) Ni) as [H|[_ H]]; [congruence|]. right. split; [exact NSj|lia].
Qed.

Lemma acc_nan_stays i j :
  i ≤ j → j < length rows → isNaN (acc i) = true → isNaN (acc j) = true.
Proof.
  intros Hij. induction Hij as [|j Hij IH]; intros Hj Ni; [exact Ni|].
  destruct (acc_step j Hj) as [H|(Nj & _)]; [exact H|].
  rewrite (IH ltac:(lia) Ni) in Nj. discriminate Nj.
Qed.

Lemma acc_order i j :
  i ≤ j → j < length rows →
  isNaN (acc j) = true ∨
  (isNaN (acc i) = false ∧ isNaN (acc j) = false ∧ (0 <= fgrid (acc i) <= fgrid (acc j))%Z).
Proof.
  intros Hij Hj. destruct (isNaN (acc i)) eqn:Ni.
  { left. apply (acc_nan_stays i j Hij Hj Ni). }
  destruct (acc_mono i j Hij Hj Ni) as [H|[Nj Hle]]; [left; exact H|].
  right. pose proof (acc_nonneg i ltac:(lia)). auto.
Qed.

End Stress.

(** The last step of the loop, [sigma_v[i] = acc * g], keeps the order. *)
Lemma times_g_order a a' :
  isNaN a' = true ∨
  (isNaN a = false ∧ isNaN a' = false ∧ (0 <= fgrid a <= fgrid a')%Z) →
  isNaN (a' * g) = true ∨ (a * g <=? a' * g) = true.
Proof.
  intros [H|(Na & Na' & H)].
  - left. apply isNaN_nan in H. rewrite H, mul_nan_l. reflexivity.
  - right. destruct (mul_mono_nonneg a a' g Na Na' H eq_refl ltac:(vm_compute; reflexivity))
      as (N1 & N2 & Hle).
    rewrite (leb_grid _ _ N1 N2). apply Z.leb_le. exact Hle.
Qed.

(** X13. The vertical stress never decreases down the table: for samples
    in ascending order of depth whose densities are not negative, the
    vertical stress of a row is at least that of every row above it, or it
    is [NaN]. *)
Theorem vertical_stress_non_decreasing rows i j ri rj :
  ascending rows → (∀ s, s ∈ rows → (0 <=? density s) = true) →
  i ≤ j → computeParameters rows !! i = Some ri → computeParameters rows !! j = Some rj →
  isNaN (vertical_stress_pa rj) = true ∨
  (vertical_stress_pa ri <=? vertical_stress_pa rj) = true.
Proof.
  intros Hasc Hrho Hij Hi Hj.
  rewrite (out_stress rows i ri Hi), (out_stress rows j rj Hj).
  apply times_g_order, acc_order; try assumption.
  rewrite <- computeParameters_length. apply lookup_lt_is_Some. eauto.
Qed.

Lemma vertical_stress_non_decreasing_witness :
  ∃ r0 r1, computeParameters ex_samples !! 0%nat = Some r0 ∧
           computeParameters ex_samples !! 1%nat = Some r1 ∧
           (vertical_stress_pa r0 <=? vertical_stress_pa r1) = true.
Proof.
  destruct (computeParameters ex_samples !! 0%nat) as [r0|] eqn:E0;
    [|vm_compute in E0; discriminate E0].
  destruct (computeParameters ex_samples !! 1%nat) as [r1|] eqn:E1;
    [|vm_compute in E1; discriminate E1].
  exists r0, r1. split; [reflexivity|]. split; [reflexivity|].
  destruct (vertical_stress_non_decreasing ex_samples 0 1 r0 r1) as [H|H].
  - unfold ascending, ex_samples. repeat constructor.
  - intros s Hs. apply list_elem_of_In in Hs. cbn in Hs.
    destruct Hs as [<-|[<-|[]]]; reflexivity.
  - lia.
  - exact E0.
  - exact E1.
  - vm_compute in E1. injection E1 as <-. discriminate H.
  - exact H.
Defined.

(** * Quotients of a part by the whole *)

Lemma sub_mono_l a a' c :
  isFinite a = true → isFinite a' = true → isFinite c = true →
  (fgrid a <= fgrid a')%Z → (fgrid (a - c) <= fgrid (a' - c))%Z.
Proof.
  intros Fa Fa' Fc H.
  destruct (sub_grid a c Fa Fc) as [_ ->]. destruct (sub_grid a' c Fa' Fc) as [_ ->].
  apply Rounding.signed_rounded_mono; lia.
Qed.

Lemma zero_in_unit x : (x =? 0) = true → (0 <=? x) = true ∧ (x <=? 1) = true.
Proof.
  rewrite eqb_zero_spec, !FloatAxioms.leb_spec, Prim2SF_zero.
  destruct (Prim2SF x) as [[]|[]| |[] m e]; try discriminate; auto.
Qed.

(** A number that is not negative, over a number at least as great and
    positive, lies between 0 and 1, unless both are infinite. *)
Lemma div_range a b :
  isNaN a = false → isNaN b = false → (0 <= fgrid a <= fgrid b)%Z → (0 < fgrid b)%Z →
  isNaN (a / b) = true ∨ ((0 <=? a / b) = true ∧ (a / b <=? 1) = true).
Proof.
  intros Na Nb [H0 Hab] Hb.
  pose proof (nonneg_sign _ (Prim2SF_valid a) H0) as Sa.
  pose proof (nonneg_sign _ (Prim2SF_valid b) ltac:(unfold fgrid in Hb; lia)) as Sb.
  destruct (nonneg_cases b Nb ltac:(lia)) as [Fb|Ib].
  - (* a finite divisor *)
    assert (Fa : isFinite a = true).
    { apply finite_of_grid; [exact Na|]. pose proof (finite_grid_bounds b Fb).
      pose proof (Z.pow_pos_nonneg 2 2100 ltac:(lia) ltac:(lia)) as Ht. fold SF.top in Ht. lia. }
    destruct (Z.eq_dec (fgrid a) 0%Z) as [Ea|Ea].
    { right. apply zero_in_unit. apply (zero_div a b false).
      - rewrite isFinite_spec in Fa. unfold fgrid in Ea.
        pose proof (Prim2SF_valid a) as V.
        destruct (Prim2SF a) as [s|s| |s m e]; try discriminate; try reflexivity.
        apply SFFacts.finite_below_top in V. cbn [SF.grid] in Ea.
        destruct s; cbn [cond_Zopp] in Ea; lia.
      - rewrite isFinite_spec in Fb. unfold fgrid in Hb.
        destruct (Prim2SF b) as [s|s| |s m e]; try discriminate; cbn [SF.grid] in Hb;
          try lia; exact Sb. }
    destruct (Z.eq_dec (fgrid a) (fgrid b)) as [Eab|Eab].
    { right. rewrite (grid_inj a b Na Nb Eab Ea).
      rewrite div_diag; [split; reflexivity|exact Fb|].
      unfold truthy. rewrite Nb, (eqb_grid b 0 Nb eq_refl).
      change (fgrid 0) with 0%Z. rewrite (proj2 (Z.eqb_neq _ _)) by lia. reflexivity. }
    right.
    assert (H : (0 <= fgrid (a / b) <= fgrid 1)%Z ∧ isNaN (a / b) = false).
    { unfold fgrid in *. rewrite isNaN_spec, FloatAxioms.div_spec.
      rewrite isFinite_spec in Fa, Fb.
      pose proof (Prim2SF_valid a) as Va. pose proof (Prim2SF_valid b) as Vb.
      destruct (Prim2SF a) as [sa|sa| |sa ma ea]; try discriminate;
        try (cbn [SF.grid] in Ea; lia).
      destruct (Prim2SF b) as [sb|sb| |sb mb eb]; try discriminate;
        try (cbn [SF.grid] in Hb; lia).
      subst sa sb. cbn [SF.grid cond_Zopp] in *.
      change (SF.grid (Prim2SF 1)) with (2 ^ 1074)%Z.
      apply Rounding.SFdiv_below_one; [exact Va|exact Vb|lia]. }
    destruct H as [[H1 H2] Hn].
    rewrite (leb_grid 0 _ eq_refl Hn), (leb_grid _ 1 Hn eq_refl).
    split; apply Z.leb_le; [exact H1|exact H2].
  - (* an infinite divisor *)
    destruct (nonneg_cases a Na H0) as [Fa|Ia].
    + right. apply zero_in_unit. rewrite eqb_zero_spec, FloatAxioms.div_spec, Ib.
      rewrite isFinite_spec in Fa. destruct (Prim2SF a); try discriminate; reflexivity.
    + left. rewrite isNaN_spec, FloatAxioms.div_spec, Ia, Ib. reflexivity.
Qed.

(** The brittleness formula gives the sentinel or a number from 0 to 1. *)
Lemma brittle_range Es E :
  all_finite Es → E ∈ Es →
  isNaN (brittle_of E (E_min Es) (E_max Es)) = true ∨
  ((0 <=? brittle_of E (E_min Es) (E_max Es)) = true ∧
   (brittle_of E (E_min Es) (E_max Es) <=? 1) = true).
Proof.
  intros HEs HE. rewrite (brittle_formula Es E HEs HE).
  destruct (min_max_facts Es E HEs HE) as (Hm & HM & HEg & _).
  pose proof (E_finite Es E HEs HE) as HEf.
  pose proof (isFinite_not_nan _ Hm) as Nm. pose proof (isFinite_not_nan _ HM) as NM.
  pose proof (isFinite_not_nan _ HEf) as NE.
  rewrite (eqb_grid _ _ NM Nm).
  destruct (Z.eqb_spec (fgrid (Math_max Es)) (fgrid (Math_min Es))) as [_|Hne];
    [left; reflexivity|].
  pose proof (sub_sign (Math_max Es) (Math_min Es) NM Nm) as H2.
  replace (fgrid (Math_max Es) ?= fgrid (Math_min Es))%Z with Gt in H2
    by (symmetry; apply Z.compare_gt_iff; lia).
  apply div_range.
  - apply sub_finite_not_nan; assumption.
  - apply sub_finite_not_nan; assumption.
  - split; [apply sub_nonneg; [exact NE|exact Nm|lia]|].
    apply sub_mono_l; [assumption..|lia].
  - apply signed_false_pos. exact H2.
Qed.

(** X14. The brittleness of every row is the sentinel or a number from 0
    to 1, both ends included. *)
Theorem brittleness_in_unit_interval rows i r :
  computeParameters rows !! i = Some r →
  isNaN (brittleness_e r) = true ∨
  ((0 <=? brittleness_e r) = true ∧ (brittleness_e r <=? 1) = true).
Proof.
  intros Hr. rewrite (out_brittleness rows i r Hr).
  destruct (isFinite (youngs_modulus_pa r)) eqn:Hf.
  - apply brittle_range; [apply finite_youngs_all_finite|].
    apply (finite_youngs_elem rows i r Hr Hf).
  - left. rewrite brittle_of_not_finite by exact Hf. reflexivity.
Qed.

Lemma brittleness_in_unit_interval_witness :
  ∃ r, computeParameters ex_samples !! 1%nat = Some r ∧
       (0 <=? brittleness_e r) = true ∧ (brittleness_e r <=? 1) = true.
Proof.
  destruct (computeParameters ex_samples !! 1%nat) as [r|] eqn:E;
    [|vm_compute in E; discriminate E].
  exists r. split; [reflexivity|].
  destruct (brittleness_in_unit_interval ex_samples 1 r E) as [H|H]; [|exact H].
  vm_compute in E. injection E as <-. discriminate H.
Defined.

(** * The normalised series *)

(** X15. The normalised series of a well-log track has the length of the
    series; a cell that is not finite becomes [NaN]; every other cell
    becomes [NaN] or a number from 0 to 1; and when the series holds fewer
    than two distinct finite values every cell becomes [NaN]. *)
Theorem normalize_cells arr :
  length (normalize arr) = length arr ∧
  (∀ i x v, arr !! i = Some x → normalize arr !! i = Some v →
     (isFinite x = false → v = nan) ∧
     (isNaN v = true ∨ ((0 <=? v) = true ∧ (v <=? 1) = true))) ∧
  ((∀ x y, x ∈ arr → y ∈ arr → isFinite x = true → isFinite y = true → (x =? y) = true) →
   ∀ v, v ∈ normalize arr → v = nan).
Proof.
  rewrite normalize_brittle. split; [apply length_map|]. split.
  - intros i x v Hx Hv. rewrite lookup_map, Hx in Hv. injection Hv as <-.
    split; [apply brittle_of_not_finite|].
    destruct (isFinite x) eqn:Hf.
    + apply brittle_range; [apply finite_youngs_all_finite|].
      apply list_elem_of_In, filter_In. split; [|exact Hf].
      apply list_elem_of_In. eapply list_elem_of_lookup_2. exact Hx.
    + left. rewrite brittle_of_not_finite by exact Hf. reflexivity.
  - intros Hsame v Hv. apply list_elem_of_In, in_map_iff in Hv as (x & <- & Hx).
    apply list_elem_of_In in Hx.
    destruct (isFinite x) eqn:Hf; [|apply brittle_of_not_finite; exact Hf].
    set (vals := List.filter isFinite arr).
    assert (HF : all_finite vals) by apply finite_youngs_all_finite.
    assert (Hin : x ∈ vals).
    { apply list_elem_of_In, filter_In. split; [apply list_elem_of_In; exact Hx|exact Hf]. }
    rewrite (brittle_formula vals x HF Hin).
    destruct (Math_min_spec vals HF (Es_nonempty vals x HF Hin)) as [Hmin _].
    destruct (Math_max_spec vals HF (Es_nonempty vals x HF Hin)) as [Hmax _].
    apply list_elem_of_In, filter_In in Hmin as [Hmin Hminf].
    apply list_elem_of_In, filter_In in Hmax as [Hmax Hmaxf].
    rewrite (Hsame _ _ ltac:(apply list_elem_of_In; exact Hmax)
               ltac:(apply list_elem_of_In; exact Hmin) Hmaxf Hminf).
    reflexivity.
Qed.

(** * The moving average: gaps *)

Lemma add_finite_not_nan a b : isNaN a = false → isFinite b = true → isNaN (a + b) = false.
Proof.
  intros Na Fb. destruct (isFinite a) eqn:Fa; [apply (add_grid a b Fa Fb)|].
  rewrite isNaN_spec in *. rewrite isFinite_spec in *. rewrite FloatAxioms.add_spec.
  destruct (Prim2SF a) as [sa|sa| |sa ma ea]; try discriminate.
  destruct (Prim2SF b) as [sb|sb| |sb mb eb]; try discriminate; reflexivity.
Qed.

Lemma div_by_finite_not_nan a b :
  isNaN a = false → isFinite b = true → (b =? 0) = false → isNaN (a / b) = false.
Proof.
  intros Na Fb Hb. destruct (isFinite a) eqn:Fa; [apply div_finite_not_nan; assumption|].
  rewrite isNaN_spec in *. rewrite isFinite_spec in *. rewrite eqb_zero_spec in Hb.
  rewrite FloatAxioms.div_spec.
  destruct (Prim2SF a) as [sa|sa| |sa ma ea]; try discriminate.
  destruct (Prim2SF b) as [sb|sb| |sb mb eb]; try discriminate; reflexivity.
Qed.

Lemma rounded_integer n :
  (0 <= n < 2 ^ 53)%Z → Nearest.signed_rounded 0 (n * 2 ^ 1074) = (n * 2 ^ 1074)%Z.
Proof.
  intros Hn. unfold Nearest.signed_rounded.
  pose proof (Z.pow_pos_nonneg 2 1074 ltac:(lia) ltac:(lia)) as HP.
  destruct (Z.eq_dec n 0%Z) as [->|n0]; [reflexivity|].
  rewrite Z.sgn_pos, Z.abs_eq by nia.
  rewrite Rounding.rounded_exact by lia. rewrite Rounding.clamp_small; [lia|].
  apply Z.lt_le_trans with (2 ^ 53 * 2 ^ 1074)%Z; [nia|].
  rewrite <- Z.pow_add_r by lia. apply Z.pow_le_mono_r; lia.
Qed.

(** [cnt++] on a count below [2^53]. *)
Lemma count_next cnt K :
  isFinite cnt = true → (0 <= fgrid cnt <= K * 2 ^ 1074)%Z → (0 <= K)%Z → (K + 1 < 2 ^ 53)%Z →
  isFinite (cnt + 1) = true ∧ (2 ^ 1074 <= fgrid (cnt + 1) <= (K + 1) * 2 ^ 1074)%Z.
Proof.
  intros Fc Hc HK HK1. destruct (add_grid cnt 1 Fc eq_refl) as [Hn Hg].
  change (fgrid 1) with (2 ^ 1074)%Z in Hg.
  pose proof (Z.pow_pos_nonneg 2 1074 ltac:(lia) ltac:(lia)) as HP.
  assert (Hlo : (2 ^ 1074 <= fgrid (cnt + 1))%Z).
  { rewrite Hg. rewrite <- (rounded_integer 1%Z) at 1 by lia.
    apply Rounding.signed_rounded_mono; lia. }
  assert (Hhi : (fgrid (cnt + 1) <= (K + 1) * 2 ^ 1074)%Z).
  { rewrite Hg. rewrite <- (rounded_integer (K + 1)%Z) by lia.
    apply Rounding.signed_rounded_mono; lia. }
  split; [|lia]. apply finite_of_grid; [exact Hn|].
  assert ((K + 1) * 2 ^ 1074 < SF.top)%Z; [|lia].
  apply Z.lt_le_trans with (2 ^ 53 * 2 ^ 1074)%Z; [nia|].
  unfold SF.top. rewrite <- Z.pow_add_r by lia. apply Z.pow_le_mono_r; lia.
Qed.

Lemma smooth_step_spec arr st j :
  smooth_step arr st j =
    if usable arr j then (st.1 + get arr (Z.to_nat j), st.2 + 1) else st.
Proof. reflexivity. Qed.

(** The inner loop: the sum stays a number, the count stays finite, and
    the count is positive exactly when a cell of the window was added. *)
Lemma smooth_fold arr l : ∀ st K,
  counted st K → (0 <= K)%Z → (K + Z.of_nat (length l) < 2 ^ 53)%Z →
  counted (fold_left (smooth_step arr) l st) (K + Z.of_nat (length l)) ∧
  ((0 < fgrid (fold_left (smooth_step arr) l st).2)%Z ↔
   (0 < fgrid st.2)%Z ∨ ∃ j, j ∈ l ∧ usable arr j = true).
Proof.
  pose proof (Z.pow_pos_nonneg 2 1074 ltac:(lia) ltac:(lia)) as HP.
  induction l as [|j l IH]; intros st K Hst HK Hlen; cbn [fold_left length].
  - rewrite Z.add_0_r. split; [exact Hst|]. split; [auto|].
    intros [H|(j & Hj & _)]; [exact H|]. apply elem_of_nil in Hj as [].
  - cbn [length] in Hlen. rewrite Nat2Z.inj_succ in *. destruct Hst as (Hsum & Hfin & Hcnt).
    assert (Hnext : counted (smooth_step arr st j) (K + 1) ∧
                    ((0 < fgrid (smooth_step arr st j).2)%Z ↔
                     (0 < fgrid st.2)%Z ∨ usable arr j = true)).
    { rewrite smooth_step_spec. destruct (usable arr j) eqn:Hu.
      - destruct (count_next st.2 K Hfin Hcnt HK ltac:(lia)) as [Hf Hc].
        unfold counted. cbn [fst snd]. split.
        + split; [|split; [exact Hf|lia]]. apply add_finite_not_nan; [exact Hsum|].
          unfold usable in Hu. apply andb_prop in Hu as [_ Hu]. exact Hu.
        + split; [auto|]. intros _. lia.
      - split; [split; [exact Hsum|split; [exact Hfin|nia]]|].
        split; [auto|]. intros [H|H]; [exact H|discriminate H]. }
    destruct Hnext as [Hc Hiff].
    destruct (IH (smooth_step arr st j) (K + 1)%Z Hc ltac:(lia) ltac:(lia)) as [Hc' Hiff'].
    replace (K + Z.succ (Z.of_nat (length l)))%Z with (K + 1 + Z.of_nat (length l))%Z by lia.
    split; [exact Hc'|]. rewrite Hiff', Hiff. split.
    + intros [[H|H]|(k & Hk & Hu)]; [left; exact H|right; exists j; split; [left|exact H]|].
      right. exists k. split; [right; exact Hk|exact Hu].
    + intros [H|(k & Hk & Hu)]; [left; left; exact H|].
      apply elem_of_cons in Hk as [->|Hk]; [left; right; exact Hu|].
      right. exists k. split; assumption.
Qed.

Lemma Math_floor_grid w : isFinite w = true → Math_floor w = (fgrid w / 2 ^ 1074)%Z.
Proof.
  rewrite isFinite_spec. unfold Math_floor, fgrid. pose proof (Prim2SF_valid w) as V.
  pose proof (Z.pow_pos_nonneg 2 1074 ltac:(lia) ltac:(lia)) as HP.
  destruct (Prim2SF w) as [s|s| |s m e]; try discriminate; intros _; [reflexivity|].
  cbn in V. apply SFFacts.bounded_inv in V as (He & _ & _). cbn [SF.grid].
  rewrite <- Rounding.cond_Zopp_mul. unfold SF.ulps.
  destruct (Z.le_gt_cases 0 e) as [H|H].
  - rewrite Z.shiftl_mul_pow2 by lia. rewrite Z.pow_add_r by lia.
    rewrite Z.mul_assoc, Z.div_mul by lia. reflexivity.
  - replace e with (- (- e))%Z at 1 by lia. rewrite Z.shiftl_opp_r.
    rewrite Z.shiftr_div_pow2 by lia.
    replace (2 ^ 1074)%Z with (2 ^ (- e) * 2 ^ (e + 1074))%Z
      by (rewrite <- Z.pow_add_r by lia; f_equal; lia).
    rewrite Z.div_mul_cancel_r; [reflexivity| |]; apply Z.pow_nonzero; lia.
Qed.

(** The half-width of the window of a call that smooths. *)
Lemma half_bounds window :
  (1 <? window) = true → (9007199254740992 <=? window) = false →
  (0 <= Math_floor window / 2 < 2 ^ 52)%Z.
Proof.
  intros H1 H2. assert (Hn : isNaN window = false).
  { destruct (isNaN window) eqn:E; [|reflexivity].
    apply isNaN_nan in E. subst window. discriminate H1. }
  rewrite (ltb_grid 1 window eq_refl Hn) in H1. apply Z.ltb_lt in H1.
  rewrite (leb_grid 9007199254740992 window eq_refl Hn) in H2. apply Z.leb_gt in H2.
  change (fgrid 1) with (2 ^ 1074)%Z in H1.
  change (fgrid 9007199254740992) with (2 ^ 53 * 2 ^ 1074)%Z in H2.
  pose proof (Z.pow_pos_nonneg 2 1074 ltac:(lia) ltac:(lia)) as HP.
  assert (Hf : isFinite window = true).
  { apply finite_of_grid; [exact Hn|].
    assert (2 ^ 53 * 2 ^ 1074 < SF.top)%Z
      by (unfold SF.top; rewrite <- Z.pow_add_r by lia; apply Z.pow_lt_mono_r; lia).
    lia. }
  rewrite (Math_floor_grid window Hf).
  assert (1 <= fgrid window / 2 ^ 1074 < 2 ^ 53)%Z.
  { split; [apply Z.div_le_lower_bound; lia|apply Z.div_lt_upper_bound; lia]. }
  split; [apply Z.div_pos; lia|]. apply Z.div_lt_upper_bound; [lia|].
  change (2 * 2 ^ 52)%Z with (2 ^ 53)%Z. lia.
Qed.

Lemma truthy_pos x :
  isNaN x = false → (0 <= fgrid x)%Z → truthy x = true ↔ (0 < fgrid x)%Z.
Proof.
  intros Hn H0. unfold truthy. rewrite Hn, (eqb_grid x 0 Hn eq_refl).
  change (fgrid 0) with 0%Z. cbn [negb]. rewrite andb_true_r, negb_true_iff, Z.eqb_neq. lia.
Qed.

(** X16. Where [smoothArray] smooths (a window above 1), a cell of the
    result is [NaN] exactly when the window around it, cut to the array,
    holds no finite value: the moving average fills every gap that has a
    finite neighbour within [half] cells, and an overflow of the running sum
    gives an infinity, never [NaN]. *)
Theorem smoothArray_gaps arr window out i v :
  smoothArray arr window = Some out → (1 <? window) = true → out !! i = Some v →
  (isNaN v = true ↔
   ∀ j, in_window (length arr) (Math_floor window / 2) i j → isFinite (get arr j) = false).
Proof.
  intros Hout Hw Hv.
  destruct (smoothArray_cells arr window out Hout Hw) as [Hlen Hget].
  assert (Hi : i < length arr) by (rewrite <- Hlen; apply lookup_lt_is_Some; eauto).
  rewrite <- (get_lookup out i v Hv), (Hget i Hi).
  assert (Hhalf : (0 <= Math_floor window / 2 < 2 ^ 52)%Z).
  { apply half_bounds; [exact Hw|]. unfold smoothArray in Hout.
    destruct (above_one window Hw) as [E1 E2]. rewrite E1, E2 in Hout. cbn [negb orb] in Hout.
    destruct (9007199254740992 <=? window); [discriminate Hout|reflexivity]. }
  set (half := (Math_floor window / 2)%Z) in *.
  unfold smooth_at.
  set (l := seqZ (Z.of_nat i - half) (2 * half + 1)).
  assert (Hl : Z.of_nat (length l) = (2 * half + 1)%Z) by (unfold l; rewrite length_seqZ; lia).
  destruct (smooth_fold arr l (0, 0) 0%Z) as [(Hsum & Hfin & Hcnt) Hiff].
  { repeat split; vm_compute; congruence. }
  { lia. }
  { rewrite Hl. change (2 ^ 53)%Z with (2 * 2 ^ 52)%Z. lia. }
  set (st := fold_left (smooth_step arr) l (0, 0)) in *.
  assert (Hwin : (∃ j, j ∈ l ∧ usable arr j = true) ↔
                 ∃ j, in_window (length arr) half i j ∧ isFinite (get arr j) = true).
  { split.
    - intros (j & Hj & Hu). unfold usable in Hu.
      apply andb_prop in Hu as [Hu Hf]. apply andb_prop in Hu as [H0 H1].
      apply Z.leb_le in H0. apply Z.ltb_lt in H1.
      exists (Z.to_nat j). split; [|exact Hf]. apply elem_of_seqZ in Hj.
      unfold in_window. lia.
    - intros (j & [Hj1 Hj2] & Hf). exists (Z.of_nat j). split.
      + apply elem_of_seqZ. lia.
      + unfold usable. rewrite Nat2Z.id, Hf.
        rewrite (proj2 (Z.leb_le _ _)), (proj2 (Z.ltb_lt _ _)) by lia. reflexivity. }
  change (fgrid (0, 0).2) with 0%Z in Hiff.
  pose proof (isFinite_not_nan _ Hfin) as Hnn.
  destruct (truthy st.2) eqn:Ht.
  - apply (truthy_pos _ Hnn ltac:(lia)) in Ht. destruct (proj1 Hiff Ht) as [H|H]; [lia|].
    apply Hwin in H as (j & Hj & Hf).
    rewrite div_by_finite_not_nan; [| exact Hsum | exact Hfin |].
    + split; [discriminate|]. intros H. rewrite (H j Hj) in Hf. discriminate Hf.
    + rewrite (eqb_grid _ 0 Hnn eq_refl). change (fgrid 0) with 0%Z.
      apply Z.eqb_neq. lia.
  - split; [|reflexivity]. intros _ j Hj.
    destruct (isFinite (get arr j)) eqn:Hf; [|reflexivity]. exfalso.
    assert (H : (0 < fgrid st.2)%Z) by (apply Hiff; right; apply Hwin; eauto).
    apply (truthy_pos _ Hnn ltac:(lia)) in H. congruence.
Qed.

Lemma smoothArray_gaps_witness :
  ∃ out v, smoothArray ex_log 3 = Some out ∧ out !! 2%nat = Some v ∧ isNaN v = true.
Proof.
  destruct (smoothArray ex_log 3) as [out|] eqn:E; [|vm_compute in E; discriminate E].
  destruct (out !! 2%nat) as [v|] eqn:Ev;
    [|vm_compute in E; injection E as <-; discriminate Ev].
  exists out, v. split; [reflexivity|]. split; [exact Ev|].
  apply (smoothArray_gaps ex_log 3 out 2 v E eq_refl Ev).
  intros j [Hj1 Hj2]. change (Math_floor 3 / 2)%Z with 1%Z in Hj2.
  destruct j as [|[|[|[|j]]]]; try reflexivity; lia.
Defined.

(** * Unit conversion keeps the order *)

Lemma infinite_grid x :
  isNaN x = false → isFinite x = false → fgrid x = SF.top ∨ fgrid x = (- SF.top)%Z.
Proof.
  rewrite isNaN_spec, isFinite_spec. unfold fgrid.
  destruct (Prim2SF x) as [s|s| |s m e]; try discriminate. destruct s; auto.
Qed.

(** X17. Unit conversion is faithful: a multiplier of 1 leaves every value
    exactly as it is, and any multiplier keeps the order of two values, so
    rows in ascending order of raw depth are still in ascending order after
    the conversion. *)
Theorem unit_scaling_faithful header hint raw raw' :
  (detectUnitMultiplier header hint = 1 →
   scaled raw (detectUnitMultiplier header hint) = raw) ∧
  ((raw <=? raw') = true →
   (scaled raw (detectUnitMultiplier header hint) <=?
    scaled raw' (detectUnitMultiplier header hint)) = true).
Proof.
  split.
  - intros ->. unfold scaled. destruct (isFinite raw) eqn:Hf; [|reflexivity].
    apply mul_one. exact Hf.
  - intros H. destruct (leb_not_nan _ _ H) as [Nr Nr']. apply leb_le in H.
    rewrite leb_grid by (rewrite scaled_nan; assumption). apply Z.leb_le.
    set (m := detectUnitMultiplier header hint).
    assert (Hm : isFinite m = true ∧ (0 < fgrid m)%Z).
    { unfold m. destruct (detectUnitMultiplier_values header hint) as [-> | ->];
        split; vm_compute; reflexivity. }
    destruct Hm as [Fm Hm]. unfold scaled.
    pose proof (Z.pow_pos_nonneg 2 2100 ltac:(lia) ltac:(lia)) as Ht. fold SF.top in Ht.
    destruct (isFinite raw) eqn:Fr, (isFinite raw') eqn:Fr'.
    + apply mul_mono_finite; assumption.
    + pose proof (finite_grid_bounds raw Fr).
      destruct (infinite_grid raw' Nr' Fr') as [E|E]; [|lia].
      rewrite E. apply fgrid_bounds.
    + pose proof (finite_grid_bounds raw' Fr').
      destruct (infinite_grid raw Nr Fr) as [E|E]; [lia|].
      rewrite E. apply fgrid_bounds.
    + exact H.
Qed.

(** * Validate and compute, together *)

Section ComputedResults.
Variable StringToNumber : string → float.
Local Abbreviation validateAndPrepare := (validateAndPrepare StringToNumber).
Local Abbreviation prepare := (prepare StringToNumber).

Lemma prepared_ascending data cols arr :
  validateAndPrepare data cols = Return arr →
  arr ≠ [] ∧ Forall not_nan arr ∧ ascending arr.
Proof.
  intros H. apply validateAndPrepare_Return in H as (_ & Hne & ->).
  pose proof (survivors_not_nan StringToNumber cols data) as Hnn.
  assert (Hnn' : Forall not_nan (Array_sort by_depth (omap (prepare cols) data)))
    by (rewrite (Array_sort_perm depth); exact Hnn).
  split; [|split; [exact Hnn'|]].
  - intros E. apply Hne. apply Permutation_nil. rewrite <- E.
    apply (Array_sort_perm depth).
  - apply (StronglySorted_on (key_ok depth) (key_le depth)).
    + intros a b Ha Hb Hab. rewrite (leb_grid _ _ Ha Hb). apply Z.leb_le. exact Hab.
    + eapply Forall_impl; [exact Hnn'|]. intros s Hs. apply Hs.
    + apply (Array_sort_sorted depth).
      eapply Forall_impl; [exact Hnn|]. intros s Hs. apply Hs.
Qed.

(** X18. What the Validate button leaves in [results].  When validation
    passes there is at least one row; the rows are in ascending order of
    depth; and when no density is negative the vertical stress never
    decreases down the rows (or is [NaN]). *)
Theorem compute_results_ordered data cols results :
  compute_results StringToNumber data cols = Return results →
  results ≠ [] ∧
  ∀ i j ri rj, i ≤ j → results !! i = Some ri → results !! j = Some rj →
    (r_depth ri <=? r_depth rj) = true ∧
    ((∀ r, r ∈ results → (0 <=? r_density r) = true) →
     isNaN (vertical_stress_pa rj) = true ∨
     (vertical_stress_pa ri <=? vertical_stress_pa rj) = true).
Proof.
  unfold compute_results.
  destruct (validateAndPrepare data cols) as [arr|m] eqn:E; [|discriminate].
  intros [= <-]. destruct (prepared_ascending data cols arr E) as (Hne & Hnn & Hasc).
  split.
  - intros H. apply Hne. apply length_zero_iff_nil.
    rewrite <- computeParameters_length, H. reflexivity.
  - intros i j ri rj Hij Hi Hj.
    pose proof (out_inputs arr i ri Hi) as Hsi. pose proof (out_inputs arr j rj Hj) as Hsj.
    split.
    + change (r_depth ri) with (depth (inputs_of ri)).
      change (r_depth rj) with (depth (inputs_of rj)).
      destruct (Nat.eq_dec i j) as [->|Hne'].
      * assert (inputs_of ri = inputs_of rj) as -> by congruence.
        rewrite Forall_forall in Hnn.
        destruct (Hnn _ (list_elem_of_lookup_2 _ _ _ Hsj)) as (Hd & _).
        rewrite (leb_grid _ _ Hd Hd). apply Z.leb_refl.
      * apply (StronglySorted_lookup _ arr i j _ _ Hasc Hsi Hsj). lia.
    + intros Hrho. rewrite (out_stress arr i ri Hi), (out_stress arr j rj Hj).
      apply times_g_order, acc_order; try assumption.
      * intros s Hs. apply list_elem_of_lookup_1 in Hs as [k Hk].
        destruct (lookup_lt_is_Some_2 (computeParameters arr) k) as [r Hr].
        { rewrite computeParameters_length. apply lookup_lt_is_Some. eauto. }
        pose proof (out_inputs arr k r Hr) as Hs'. rewrite Hk in Hs'. injection Hs' as ->.
        apply (Hrho r). eapply list_elem_of_lookup_2. exact Hr.
      * rewrite <- computeParameters_length. apply lookup_lt_is_Some. eauto.
Qed.

End ComputedResults.

Lemma compute_results_ordered_witness :
  ∃ r0 r1 r2, compute_results no_strings ex_data ex_cols = Return [r0; r1; r2] ∧
    (r_depth r0 <=? r_depth r2) = true ∧
    (vertical_stress_pa r0 <=? vertical_stress_pa r2) = true.
Proof.
  destruct (compute_results no_strings ex_data ex_cols) as [results|m] eqn:E;
    [|vm_compute in E; discriminate E].
  destruct (compute_results_ordered no_strings ex_data ex_cols results E) as [_ H].
  assert (E' := E). vm_compute in E'. injection E' as <-.
  eexists _, _, _. split; [reflexivity|].
  destruct (H 0%nat 2%nat _ _ ltac:(lia) eq_refl eq_refl) as [H1 H2].
  split; [exact H1|]. destruct H2 as [H2|H2]; [|discriminate H2|exact H2].
  intros r Hr. apply list_elem_of_In in Hr. cbn in Hr.
  destruct Hr as [<-|[<-|[<-|[]]]]; reflexivity.
Defined.

(** * The series handed to the well-log plot *)

Lemma smoothArray_length arr window out :
  smoothArray arr window = Some out → length out = length arr.
Proof.
  intros H. destruct (1 <? window) eqn:Hw.
  - apply (smoothArray_cells arr window out H Hw).
  - unfold smoothArray in H. rewrite (not_above_one window Hw) in H.
    injection H as <-. reflexivity.
Qed.

Lemma find_absent (f : string) (l : list (string * float)) :
  f ∉ map fst l → List.find (λ kv, String.eqb kv.1 f) l = None.
Proof.
  induction l as [|[k v] l IH]; intros Hf; [reflexivity|]. cbn [List.find fst].
  destruct (String.eqb_spec k f) as [->|_].
  - exfalso. apply Hf. left.
  - apply IH. intros H. apply Hf. right. exact H.
Qed.

Lemma normalize_length arr : length (normalize arr) = length arr.
Proof. rewrite normalize_brittle. apply length_map. Qed.

(** A window below [2^53] is one [smoothArray] returns for. *)
Lemma smoothArray_returns arr window :
  (9007199254740992 <=? window) = false → ∃ out, smoothArray arr window = Some out.
Proof.
  intros H. unfold smoothArray. rewrite H.
  destruct (negb (truthy window) || (window <=? 1)); eauto.
Qed.

Lemma smooth_all_returns smooth xs :
  (9007199254740992 <=? smooth) = false →
  ∃ ys, smooth_all smooth xs = Some ys ∧
        Forall2 (λ x y, smoothArray x smooth = Some y) xs ys.
Proof.
  intros H. induction xs as [|x xs (ys & E & HF)]; [exists []; split; [reflexivity|constructor]|].
  destruct (smoothArray_returns x smooth H) as [y Hy].
  exists (y :: ys). cbn [smooth_all]. rewrite Hy, E. split; [reflexivity|].
  constructor; assumption.
Qed.

(** A series without a finite value stays one through the moving average
    and through the normalisation. *)
Lemma smooth_fold_blank arr l : ∀ st,
  (∀ j, usable arr j = false) → fold_left (smooth_step arr) l st = st.
Proof.
  induction l as [|j l IH]; intros st H; [reflexivity|].
  cbn [fold_left]. rewrite smooth_step_spec, H. apply IH. exact H.
Qed.

Lemma smoothArray_blank arr window out :
  smoothArray arr window = Some out →
  (∀ v, v ∈ arr → v = nan) → ∀ v, v ∈ out → v = nan.
Proof.
  intros Hout Harr v Hv. destruct (1 <? window) eqn:Hw.
  - destruct (smoothArray_cells arr window out Hout Hw) as [Hlen Hget].
    apply list_elem_of_lookup_1 in Hv as [i Hi].
    assert (Hlt : i < length arr) by (rewrite <- Hlen; apply lookup_lt_is_Some; eauto).
    rewrite <- (get_lookup out i v Hi), (Hget i Hlt). unfold smooth_at.
    rewrite smooth_fold_blank; [reflexivity|].
    intros j. unfold usable.
    destruct (0 <=? j)%Z; [|reflexivity]. destruct (j <? Z.of_nat (length arr))%Z; [|reflexivity].
    cbn [andb]. unfold get. destruct (arr !! Z.to_nat j) as [x|] eqn:Ex; [|reflexivity].
    rewrite (Harr x (list_elem_of_lookup_2 _ _ _ Ex)). reflexivity.
  - unfold smoothArray in Hout. rewrite (not_above_one window Hw) in Hout.
    injection Hout as <-. auto.
Qed.

Lemma normalize_blank arr :
  (∀ v, v ∈ arr → v = nan) → ∀ v, v ∈ normalize arr → v = nan.
Proof.
  intros Harr v Hv. rewrite normalize_brittle in Hv.
  apply list_elem_of_In, in_map_iff in Hv as (x & <- & Hx).
  apply brittle_of_not_finite. rewrite (Harr x) by (apply list_elem_of_In; exact Hx).
  reflexivity.
Qed.

(** X19. The tracks of the well-log plot line up with the depth axis.  For
    a selection of fields that is not empty, every smoothing option that is
    not [2^53] or more, and with or without normalisation, [plotWellLogs]
    builds its series: one for each selected field, each with one cell for
    each row of the results; and the series of a field that is not a column
    of the results is [NaN] in every cell, after smoothing and
    normalisation as before. *)
Theorem seriesList_shape results fields smooth normalized :
  fields ≠ [] → (9007199254740992 <=? smooth) = false →
  ∃ ss, seriesList results fields smooth normalized = Some ss ∧
    length ss = length fields ∧
    (∀ s, s ∈ ss → length s = length results) ∧
    (∀ k f s, fields !! k = Some f → ss !! k = Some s →
       (∀ r, r ∈ results → f ∉ map fst (entries r)) → ∀ v, v ∈ s → v = nan).
Proof.
  intros _ Hb. unfold seriesList.
  set (raw := map (series results) fields).
  assert (Hsm : ∃ sm, (if truthy smooth && (1 <? smooth) then smooth_all smooth raw
                       else Some raw) = Some sm ∧
                      Forall2 (λ x y, length y = length x ∧
                                 ((∀ v, v ∈ x → v = nan) → ∀ v, v ∈ y → v = nan)) raw sm).
  { destruct (truthy smooth && (1 <? smooth)).
    - destruct (smooth_all_returns smooth raw Hb) as (sm & E & HF). exists sm.
      split; [exact E|]. eapply Forall2_impl; [exact HF|]. cbv beta. intros x y Hxy. split.
      + apply (smoothArray_length x smooth y Hxy).
      + apply (smoothArray_blank x smooth y Hxy).
    - exists raw. split; [reflexivity|]. apply Forall_Forall2_diag, Forall_forall. auto. }
  destruct Hsm as (sm & -> & HF).
  assert (Hlen : length sm = length fields).
  { rewrite <- (Forall2_length _ _ _ HF). apply length_map. }
  assert (Hcell : ∀ k f y, fields !! k = Some f → sm !! k = Some y →
            length y = length results ∧
            ((∀ r, r ∈ results → f ∉ map fst (entries r)) → ∀ v, v ∈ y → v = nan)).
  { intros k f y Hf Hy.
    assert (Hx : raw !! k = Some (series results f)).
    { unfold raw. rewrite lookup_map, Hf. reflexivity. }
    destruct (Forall2_lookup_lr _ _ _ _ _ _ HF Hx Hy) as [H1 H2].
    split; [rewrite H1; apply length_map|]. intros Habs. apply H2.
    intros v Hv. apply list_elem_of_In, in_map_iff in Hv as (r & <- & Hr).
    unfold series_value. rewrite find_absent; [reflexivity|].
    apply Habs, list_elem_of_In. exact Hr. }
  eexists. split; [reflexivity|]. split; [|split].
  - destruct normalized; [rewrite length_map|]; exact Hlen.
  - intros s Hs. apply list_elem_of_lookup_1 in Hs as [k Hk].
    assert (Hk' : k < length fields).
    { rewrite <- Hlen. destruct normalized.
      - rewrite <- (length_map normalize). apply lookup_lt_is_Some. eauto.
      - apply lookup_lt_is_Some. eauto. }
    destruct (lookup_lt_is_Some_2 fields k Hk') as [f Hf].
    destruct normalized.
    + rewrite lookup_map in Hk. destruct (sm !! k) as [y|] eqn:Hy; [|discriminate Hk].
      injection Hk as <-. rewrite normalize_length. apply (Hcell k f y Hf Hy).
    + apply (Hcell k f s Hf Hk).
  - intros k f s Hf Hs Habs. destruct normalized.
    + rewrite lookup_map in Hs. destruct (sm !! k) as [y|] eqn:Hy; [|discriminate Hs].
      injection Hs as <-. apply normalize_blank. apply (Hcell k f y Hf Hy). exact Habs.
    + apply (Hcell k f s Hf Hs). exact Habs.
Qed.

Lemma seriesList_shape_witness :
  ∃ ss, seriesList (computeParameters ex_samples) ["vp"; "porosity"] 3 true = Some ss ∧
        length ss = 2%nat ∧ ss !! 1%nat = Some [nan; nan].
Proof.
  destruct (seriesList_shape (computeParameters ex_samples) ["vp"; "porosity"] 3 true)
    as (ss & E & H1 & H2 & H3); [discriminate|reflexivity|].
  exists ss. split; [exact E|]. split; [exact H1|].
  vm_compute in E. injection E as <-. reflexivity.
Defined.

(** * Stiffness is not negative *)

Lemma nonneg_leb x : (0 <= fgrid x)%Z → isNaN x = true ∨ (0 <=? x) = true.
Proof.
  intros H. destruct (isNaN x) eqn:Hn; [left; reflexivity|right].
  rewrite (leb_grid 0 x eq_refl Hn). apply Z.leb_le. exact H.
Qed.

Lemma square_nonneg x : (0 <= fgrid (Math_pow2 x))%Z.
Proof.
  unfold Math_pow2. destruct (isNaN x) eqn:Hn.
  { apply isNaN_nan in Hn. subst x. vm_compute. discriminate. }
  destruct (Z.le_gt_cases 0 (fgrid x)) as [H|H]; [apply mul_nonneg; exact H|].
  unfold fgrid in *. rewrite FloatAxioms.mul_spec. unfold SF64mul.
  destruct (Prim2SF x) as [s|s| |s m e]; cbn [SFmul SF.grid xorb];
    rewrite ?xorb_nilpotent; cbn [cond_Zopp]; try lia.
  - pose proof (Z.pow_pos_nonneg 2 2100 ltac:(lia) ltac:(lia)) as Ht. fold SF.top in Ht. lia.
  - pose proof (SFQuotient.binary_round_aux_sign false (Z.pos (m * m)) (e + e) loc_Exact
                  ltac:(lia)) as Hs.
    destruct (binary_round_aux prec emax false (Z.pos (m * m)) (e + e) loc_Exact)
      as [s'|s'| |s' m' e']; cbn [SF.grid]; try lia; subst s'; cbn [cond_Zopp]; try lia.
    + pose proof (Z.pow_pos_nonneg 2 2100 ltac:(lia) ltac:(lia)) as Ht. fold SF.top in Ht. lia.
    + apply Z.mul_nonneg_nonneg; [lia|]. unfold SF.ulps. apply Z.pow_nonneg. lia.
Qed.

(** X20. Rounding never makes a stiffness negative: when the density of a
    row is not negative, its shear modulus and its P-wave modulus are [NaN]
    or not negative, whatever the signs of the velocities; and so are its
    two impedances when the velocities are not negative. *)
Theorem moduli_not_negative rows i r :
  computeParameters rows !! i = Some r → (0 <=? r_density r) = true →
  (isNaN (shear_modulus_pa r) = true ∨ (0 <=? shear_modulus_pa r) = true) ∧
  (isNaN (p_modulus_pa r) = true ∨ (0 <=? p_modulus_pa r) = true) ∧
  ((0 <=? r_vp r) = true →
     isNaN (acoustic_impedance r) = true ∨ (0 <=? acoustic_impedance r) = true) ∧
  ((0 <=? r_vs r) = true →
     isNaN (shear_impedance r) = true ∨ (0 <=? shear_impedance r) = true).
Proof.
  intros Hr Hrho. apply leb_nonneg in Hrho as [_ Hrho].
  pose proof (own_columns_of rows i _ r (out_inputs _ _ _ Hr) Hr) as H.
  unfold own_columns, own_of in H. cbn [inputs_of depth density vp vs] in H.
  injection H as HG _ _ _ _ HZp HZs HM _ _ _.
  rewrite HG, HM, HZp, HZs.
  repeat split; try intros Hv; apply nonneg_leb, mul_nonneg;
    try exact Hrho; try apply square_nonneg; apply leb_nonneg in Hv; apply Hv.
Qed.

Lemma moduli_not_negative_witness :
  ∃ r, computeParameters ex_samples !! 1%nat = Some r ∧
       (0 <=? shear_modulus_pa r) = true ∧ (0 <=? p_modulus_pa r) = true.
Proof.
  destruct (computeParameters ex_samples !! 1%nat) as [r|] eqn:E;
    [|vm_compute in E; discriminate E].
  exists r. split; [reflexivity|].
  assert (E' := E). vm_compute in E'. injection E' as <-.
  destruct (moduli_not_negative ex_samples 1 _ E eq_refl) as (H1 & H2 & _).
  split; [destruct H1 as [H1|H1]; [discriminate H1|exact H1]|].
  destruct H2 as [H2|H2]; [discriminate H2|exact H2].
Defined.

(** * Samples with equal velocities *)






(** *** The running sum of the layers *)



(** *** The finite difference *)







(** The Poisson ratio from the moduli of a sample with [vp = vs] is the
    sentinel when the rounded [3K + G] cancels, as above, and a number
    without meaning when it does not. *)
Lemma equal_velocities_moduli_ratio :
  ∃ r0 r1, computeParameters [sample 0 2500 3001 3001; sample 10 2600 3200 1600] = [r0; r1] ∧
    (r_vp r0 =? r_vs r0) = true ∧ poisson_from_moduli r0 = -4426629611519999.5.
Proof. eexists _, _. split; [vm_compute; reflexivity|]. vm_compute. auto. Qed.
